(** * SkyScript front end: the recursive-descent parser of [src/frontend/parser.ts]

    The parser is embedded as a family of mutually recursive functions over
    an explicit token buffer.  Every method of the TypeScript class [Parser]
    becomes one function of the same name; every [while] loop becomes one
    tail-recursive function carrying the loop's local variables.  All of them
    recurse on a fuel argument that is decremented at each call and at each
    loop iteration; the termination section shows that a fuel linear in the
    number of tokens always suffices. *)

From Stdlib Require Import String Ascii List Bool Arith Lia.
Import ListNotations.
Open Scope string_scope.
Set Warnings "-register-all".

(** ** Tokens (the contract of [lexer.ts]) *)

(** Modelled from the spec: the enumeration [TokenType] of [lexer.ts], which is
    not part of the sources at hand.  Its members are the ones [parser.ts]
    names ([TokenType.X] becomes [TX]) together with [TBinaryOperator] for the
    arithmetic operator tokens, whose type the parser never inspects (it reads
    their [value]). *)
Inductive TokenType : Type :=
| TNumber | TIdentifier | TString
| TSet | TLock | TFun | TIf | TElse
| TBinaryOperator | TEquals | TDoubleEquals | TNotEquals | TBinaryEquals
| TComma | TDot | TColon | TSemicolon
| TOpenParen | TCloseParen
| TOpenBrace | TCloseBrace
| TOpenBracket | TCloseBracket
| TEOF.

Definition TokenType_eq_dec (a b : TokenType) : {a = b} + {a <> b}.
Proof. decide equality. Defined.

Definition TokenType_eqb (a b : TokenType) : bool :=
  if TokenType_eq_dec a b then true else false.

(** Modelled from the spec: the interface [Token] of [lexer.ts],
    [{ type: TokenType, value: string }]. *)
Record Token : Type := mkToken { type : TokenType; value : string }.

(** ** Syntax trees (the contract of [ast.ts]) *)

(** A JavaScript number.  The parser obtains numbers only by calling
    [parseFloat] on the text of a [TNumber] token and never computes with
    them, so a number is represented by the call that produced it. *)
Inductive number : Type := parseFloat (text : string).

(** Modelled from the spec: the expression nodes of [ast.ts], one constructor
    per [kind], with the fields that the specification's data model lists and
    that [parser.ts] writes.  [EmptyObject] is the value [{} as Expr] that
    [parse_if_stmt] stores in the [right] field of every [IfStmt]: an object
    with no [kind] and no fields. *)
Inductive Expr : Type :=
| AssignmentExpr (assigne value : Expr)
| ObjectLiteral (properties : list Property)
| BinaryExpr (left right : Expr) (operator : string)
| EqualityExpr (left : Expr) (operator : TokenType) (right : Expr)
| CallExpr (caller : Expr) (args : list Expr)
| MemberExpr (object property : Expr) (computed : bool)
| Identifier (symbol : string)
| NumericLiteral (value : number)
| StringLiteral (value : string)
| EmptyObject
with Property : Type :=
| mkProperty (key : string) (value : option Expr).

(** Modelled from the spec: the statement nodes of [ast.ts].  An [IfStmt] has,
    besides the fields of the data model, the fields [operator] and [right]
    that [parse_if_stmt] writes.  In TypeScript [Expr] extends [Stmt];
    [ExprStmt] is that inclusion. *)
Inductive Stmt : Type :=
| VarDeclaration (identifier : string) (value : option Expr) (constant : bool)
| FunctionDeclaration (name : string) (parameters : list string)
    (body : list Stmt)
| IfStmt (conditional : Expr) (operator : TokenType) (right : Expr)
    (consequent : list Stmt) (alternate : option (list Stmt))
| ExprStmt (e : Expr).

(** Modelled from the spec: the root node [Program] of [ast.ts]. *)
Record Program : Type := mkProgram { body : list Stmt }.

(** The test [arg.kind !== "Identifier"] / [property.kind != "Identifier"]. *)
Definition kind_is_Identifier (e : Expr) : bool :=
  match e with Identifier _ => true | _ => false end.

(** ** Ways in which a parse stops *)

Inductive ParseError : Type :=
(** [expect]: [console.error("Parser Error:\n", err, prev, " - Expecting: ", type)]
    followed by [Deno.exit(1)] *)
| ExpectError (err : string) (prev : option Token) (expecting : TokenType)
(** [parse_primary_expr], default case: [console.error(..., this.at())] followed
    by [Deno.exit(1)] *)
| UnexpectedToken (tk : option Token)
(** [throw "Must assigne value to constant expression. No value provided."] *)
| ConstantWithoutValue
(** [throw "Inside function declaration expected parameters to be of type string."] *)
| ParameterNotIdentifier
(** [throw `Cannonot use dot operator without right hand side being a identifier`] *)
| DotWithoutIdentifier
(** reading [.type] or [.value] of [undefined], the front of an empty buffer *)
| TypeError.

Inductive Outcome (A : Type) : Type :=
| Ok (a : A) (tokens : list Token)
| Halt (e : ParseError)
| OutOfFuel.
Arguments Ok {A} a tokens.
Arguments Halt {A} e.
Arguments OutOfFuel {A}.

(** A method of the class: it reads and updates [this.tokens]. *)
Definition Parser (A : Type) : Type := list Token -> Outcome A.

Definition ret {A} (a : A) : Parser A := fun ts => Ok a ts.

Definition bind {A B} (p : Parser A) (k : A -> Parser B) : Parser B :=
  fun ts =>
    match p ts with
    | Ok a ts' => k a ts'
    | Halt e => Halt e
    | OutOfFuel => OutOfFuel
    end.

Definition halt {A} (e : ParseError) : Parser A := fun _ => Halt e.
Definition out_of_fuel {A} : Parser A := fun _ => OutOfFuel.

Declare Scope parser_scope.
Delimit Scope parser_scope with parser.
Notation "x <- p ;; k" := (bind p (fun x => k))
  (at level 61, p at next level, right associativity) : parser_scope.
Notation "p ;;; k" := (bind p (fun _ => k))
  (at level 61, right associativity) : parser_scope.
Open Scope parser_scope.

(** ** The token cursor *)

(** [this.tokens[0]]: [undefined] ([None]) on an empty buffer. *)
Definition at_ : Parser (option Token) := fun ts => Ok (hd_error ts) ts.

(** [this.tokens.shift()]: removes and returns the front token; on an empty
    buffer it returns [undefined] and leaves the buffer empty. *)
Definition eat : Parser (option Token) :=
  fun ts => match ts with
            | [] => Ok None []
            | t :: rest => Ok (Some t) rest
            end.

(** Property reads [tk.type] and [tk.value]; they throw on [undefined]. *)
Definition type_of (tk : option Token) : Parser TokenType :=
  match tk with Some t => ret (type t) | None => halt TypeError end.

Definition value_of (tk : option Token) : Parser string :=
  match tk with Some t => ret (value t) | None => halt TypeError end.

(** [this.at().type] and [this.at().value] *)
Definition at_type : Parser TokenType := tk <- at_ ;; type_of tk.
Definition at_value : Parser string := tk <- at_ ;; value_of tk.

Definition not_eof : Parser bool :=
  ty <- at_type ;; ret (negb (TokenType_eqb ty TEOF)).

Definition expect (ty : TokenType) (err : string) : Parser Token :=
  prev <- eat ;;
  match prev with
  | None => halt (ExpectError err None ty)
  | Some t =>
      if TokenType_eqb (type t) ty then ret t
      else halt (ExpectError err prev ty)
  end.

(** The double-quote character, for the one message that contains it. *)
Definition dquote : string := String (ascii_of_nat 34) EmptyString.

(** ** The grammar *)

(** The [for (const arg of args)] loop of [parse_fn_declaration]: the first
    argument whose [kind] is not ["Identifier"] throws; the symbols of the
    others are pushed onto [params] in order. *)
Fixpoint check_params (args : list Expr) (params : list string)
  : Parser (list string) :=
  match args with
  | [] => ret params
  | arg :: rest =>
      match arg with
      | Identifier symbol => check_params rest (params ++ [symbol])
      | _ => halt ParameterNotIdentifier
      end
  end.

(** *** Expressions

    Each [while] loop is the function named after its method with the suffix
    [_loop]; its arguments are the loop's local variables. *)
Fixpoint parse_expr (fuel : nat) : Parser Expr :=
  match fuel with
  | O => out_of_fuel
  | S n => parse_assignment_expr n
  end

with parse_assignment_expr (fuel : nat) : Parser Expr :=
  match fuel with
  | O => out_of_fuel
  | S n =>
      left <- parse_object_expr n ;;
      ty <- at_type ;;
      if TokenType_eqb ty TEquals then
        eat ;;;
        v <- parse_assignment_expr n ;;
        ret (AssignmentExpr left v)
      else ret left
  end

with parse_object_expr (fuel : nat) : Parser Expr :=
  match fuel with
  | O => out_of_fuel
  | S n =>
      ty <- at_type ;;
      if negb (TokenType_eqb ty TOpenBrace) then parse_additive_expr n
      else
        eat ;;;
        properties <- parse_object_loop n [] ;;
        expect TCloseBrace "Object literal missing closing brace." ;;;
        ret (ObjectLiteral properties)
  end

(** [while (this.not_eof() && this.at().type != TokenType.CloseBrace)] of
    [parse_object_expr] *)
with parse_object_loop (fuel : nat) (properties : list Property)
  : Parser (list Property) :=
  match fuel with
  | O => out_of_fuel
  | S n =>
      ne <- not_eof ;;
      cont <- (if ne then
                 ty <- at_type ;; ret (negb (TokenType_eqb ty TCloseBrace))
               else ret false) ;;
      if cont then
        tk <- expect TIdentifier "Object literal key expected" ;;
        let key := value tk in
        ty <- at_type ;;
        if TokenType_eqb ty TComma then
          eat ;;;
          parse_object_loop n (properties ++ [mkProperty key None])
        else if TokenType_eqb ty TCloseBrace then
          parse_object_loop n (properties ++ [mkProperty key None])
        else
          expect TColon "Missing colon following identifier in ObjectExpr" ;;;
          v <- parse_expr n ;;
          let properties := (properties ++ [mkProperty key (Some v)])%list in
          ty' <- at_type ;;
          (if negb (TokenType_eqb ty' TCloseBrace) then
             expect TComma
               "Expected comma or closing bracket following property" ;;;
             ret tt
           else ret tt) ;;;
          parse_object_loop n properties
      else ret properties
  end

with parse_additive_expr (fuel : nat) : Parser Expr :=
  match fuel with
  | O => out_of_fuel
  | S n =>
      left <- parse_multiplicitave_expr n ;;
      parse_additive_loop n left
  end

(** [while (this.at().value == "+" || this.at().value == "-" && this.not_eof())]:
    [&&] binds tighter than [||], so [not_eof] guards the ["-"] case only. *)
with parse_additive_loop (fuel : nat) (left : Expr) : Parser Expr :=
  match fuel with
  | O => out_of_fuel
  | S n =>
      v <- at_value ;;
      cont <- (if String.eqb v "+" then ret true
               else
                 v' <- at_value ;;
                 if String.eqb v' "-" then not_eof else ret false) ;;
      if cont then
        tk <- eat ;;
        operator <- value_of tk ;;
        right <- parse_multiplicitave_expr n ;;
        parse_additive_loop n (BinaryExpr left right operator)
      else ret left
  end

with parse_multiplicitave_expr (fuel : nat) : Parser Expr :=
  match fuel with
  | O => out_of_fuel
  | S n =>
      left <- parse_call_member_expr n ;;
      parse_multiplicitave_loop n left
  end

(** [while (["/", "*", "%"].includes(this.at().value))] *)
with parse_multiplicitave_loop (fuel : nat) (left : Expr) : Parser Expr :=
  match fuel with
  | O => out_of_fuel
  | S n =>
      v <- at_value ;;
      if existsb (String.eqb v) ["/"; "*"; "%"] then
        tk <- eat ;;
        operator <- value_of tk ;;
        right <- parse_call_member_expr n ;;
        parse_multiplicitave_loop n (BinaryExpr left right operator)
      else ret left
  end

with parse_call_member_expr (fuel : nat) : Parser Expr :=
  match fuel with
  | O => out_of_fuel
  | S n =>
      member <- parse_member_expr n ;;
      ty <- at_type ;;
      if TokenType_eqb ty TOpenParen then parse_call_expr n member
      else ret member
  end

with parse_call_expr (fuel : nat) (caller : Expr) : Parser Expr :=
  match fuel with
  | O => out_of_fuel
  | S n =>
      args <- parse_args n ;;
      let call_expr := CallExpr caller args in
      ty <- at_type ;;
      if TokenType_eqb ty TOpenParen then parse_call_expr n call_expr
      else ret call_expr
  end

with parse_args (fuel : nat) : Parser (list Expr) :=
  match fuel with
  | O => out_of_fuel
  | S n =>
      expect TOpenParen "Expected open parenthesis" ;;;
      ty <- at_type ;;
      args <- (if TokenType_eqb ty TCloseParen then ret []
               else parse_arguments_list n) ;;
      expect TCloseParen "Missing closing parenthesis inside arguments list" ;;;
      ret args
  end

with parse_arguments_list (fuel : nat) : Parser (list Expr) :=
  match fuel with
  | O => out_of_fuel
  | S n =>
      first <- parse_assignment_expr n ;;
      parse_arguments_loop n [first]
  end

(** [while (this.at().type == TokenType.Comma && this.eat())]: the token
    returned by [eat] is an object, hence truthy; [undefined] is falsy. *)
with parse_arguments_loop (fuel : nat) (args : list Expr)
  : Parser (list Expr) :=
  match fuel with
  | O => out_of_fuel
  | S n =>
      ty <- at_type ;;
      cont <- (if TokenType_eqb ty TComma then
                 tk <- eat ;;
                 ret (match tk with Some _ => true | None => false end)
               else ret false) ;;
      if cont then
        a <- parse_assignment_expr n ;;
        parse_arguments_loop n (args ++ [a])
      else ret args
  end

with parse_member_expr (fuel : nat) : Parser Expr :=
  match fuel with
  | O => out_of_fuel
  | S n =>
      object <- parse_primary_expr n ;;
      parse_member_loop n object
  end

(** [while (at().type == TokenType.Dot || at().type == TokenType.OpenBracket)] *)
with parse_member_loop (fuel : nat) (object : Expr) : Parser Expr :=
  match fuel with
  | O => out_of_fuel
  | S n =>
      ty <- at_type ;;
      if TokenType_eqb ty TDot || TokenType_eqb ty TOpenBracket then
        operator <- eat ;;
        opty <- type_of operator ;;
        if TokenType_eqb opty TDot then
          property <- parse_primary_expr n ;;
          if negb (kind_is_Identifier property) then halt DotWithoutIdentifier
          else parse_member_loop n (MemberExpr object property false)
        else
          property <- parse_expr n ;;
          expect TCloseBracket "Missing closing bracket in computed value." ;;;
          parse_member_loop n (MemberExpr object property true)
      else ret object
  end

with parse_primary_expr (fuel : nat) : Parser Expr :=
  match fuel with
  | O => out_of_fuel
  | S n =>
      cur <- at_ ;;
      tk <- type_of cur ;;
      match tk with
      | TIdentifier =>
          t <- eat ;; symbol <- value_of t ;; ret (Identifier symbol)
      | TNumber =>
          t <- eat ;; v <- value_of t ;; ret (NumericLiteral (parseFloat v))
      | TString =>
          t <- eat ;; v <- value_of t ;; ret (StringLiteral v)
      | TOpenParen =>
          eat ;;;
          left <- parse_expr n ;;
          ty <- at_type ;;
          v <- (if TokenType_eqb ty TDoubleEquals
                   || TokenType_eqb ty TNotEquals
                then
                  t <- eat ;;
                  operator <- type_of t ;;
                  right <- parse_expr n ;;
                  ret (EqualityExpr left operator right)
                else ret left) ;;
          expect TCloseParen
            "Unexpected token found inside parenthesised expression. Expected closing parenthesis." ;;;
          ret v
      | _ => halt (UnexpectedToken cur)
      end
  end.

(** *** Statements *)

Definition parse_var_declaration (fuel : nat) : Parser Stmt :=
  match fuel with
  | O => out_of_fuel
  | S n =>
      kw <- eat ;;
      kwty <- type_of kw ;;
      let isConstant := TokenType_eqb kwty TLock in
      tk <- expect TIdentifier
              "Expected identifier name following let | const keywords." ;;
      let identifier := value tk in
      ty <- at_type ;;
      if TokenType_eqb ty TSemicolon then
        eat ;;;
        if isConstant then halt ConstantWithoutValue
        else ret (VarDeclaration identifier None false)
      else
        expect TEquals
          "Expected equals token following identifier in var declaration." ;;;
        v <- parse_expr n ;;
        expect TSemicolon
          "Variable declaration statment must end with semicolon." ;;;
        ret (VarDeclaration identifier (Some v) isConstant)
  end.

(** The three statement-block loops of [parse_if_stmt] and
    [parse_fn_declaration] have the same text,
    [while (at().type !== EOF && at().type !== CloseBrace) block.push(parse_stmt())];
    they are the one function [parse_block] below. *)
Fixpoint parse_stmt (fuel : nat) : Parser Stmt :=
  match fuel with
  | O => out_of_fuel
  | S n =>
      ty <- at_type ;;
      match ty with
      | TSet | TLock => parse_var_declaration n
      | TFun => parse_fn_declaration n
      | TIf => parse_if_stmt n
      | _ => e <- parse_expr n ;; ret (ExprStmt e)
      end
  end

with parse_block (fuel : nat) (block : list Stmt) : Parser (list Stmt) :=
  match fuel with
  | O => out_of_fuel
  | S n =>
      ty <- at_type ;;
      if negb (TokenType_eqb ty TEOF) && negb (TokenType_eqb ty TCloseBrace)
      then s <- parse_stmt n ;; parse_block n (block ++ [s])
      else ret block
  end

with parse_if_stmt (fuel : nat) : Parser Stmt :=
  match fuel with
  | O => out_of_fuel
  | S n =>
      expect TIf ("Expected " ++ dquote ++ "if" ++ dquote ++ " keyword.") ;;;
      conditional <- parse_expr n ;;
      let right := EmptyObject in
      let operator := TBinaryEquals in
      expect TOpenBrace "Expected opening brace for consequent block." ;;;
      consequent <- parse_block n [] ;;
      expect TCloseBrace "Expected closing brace for consequent block." ;;;
      ty <- at_type ;;
      alternate <-
        (if TokenType_eqb ty TElse then
           eat ;;;
           ty' <- at_type ;;
           if TokenType_eqb ty' TIf then
             s <- parse_if_stmt n ;; ret (Some [s])
           else
             expect TOpenBrace "Expected opening brace for alternate block." ;;;
             alt <- parse_block n [] ;;
             expect TCloseBrace "Expected closing brace for alternate block." ;;;
             ret (Some alt)
         else ret None) ;;
      ret (IfStmt conditional operator right consequent alternate)
  end

with parse_fn_declaration (fuel : nat) : Parser Stmt :=
  match fuel with
  | O => out_of_fuel
  | S n =>
      eat ;;;
      tk <- expect TIdentifier "Expected function name following fn keyword" ;;
      let name := value tk in
      args <- parse_args n ;;
      params <- check_params args [] ;;
      expect TOpenBrace "Expected function body following declaration" ;;;
      body <- parse_block n [] ;;
      expect TCloseBrace "Closing brace expected inside function declaration" ;;;
      ret (FunctionDeclaration name params body)
  end.

(** *** The whole program *)

(** [while (this.not_eof()) program.body.push(this.parse_stmt())] *)
Fixpoint produceAST_loop (fuel : nat) (body : list Stmt)
  : Parser (list Stmt) :=
  match fuel with
  | O => out_of_fuel
  | S n =>
      ne <- not_eof ;;
      if ne then s <- parse_stmt n ;; produceAST_loop n (body ++ [s])
      else ret body
  end.

(** [produceAST] after the call of [tokenize]: the buffer is the lexer's
    output, the program starts with an empty body. *)
Definition parse_tokens (fuel : nat) : Parser Program :=
  body <- produceAST_loop fuel [] ;; ret (mkProgram body).

(** [produceAST(sourceCode)], for a given lexer. *)
Definition produceAST (tokenize : string -> list Token) (fuel : nat)
  (sourceCode : string) : Outcome Program :=
  parse_tokens fuel (tokenize sourceCode).

(** ** The two error kinds of the specification

    A second classification, following the specification's words: a Syntax
    Error is a token that is not the expected one (a failed [expect], a
    non-identifier after a dot, an unexpected token in primary position); a
    Declaration Error is a well-formed but invalid declaration (an immutable
    binding without initializer, a non-identifier function parameter).  A
    [TypeError] of the JavaScript runtime is neither. *)
Inductive ErrorKind : Type := SyntaxError | DeclarationError.

Definition error_kind (e : ParseError) : option ErrorKind :=
  match e with
  | ExpectError _ _ _ => Some SyntaxError
  | UnexpectedToken _ => Some SyntaxError
  | DotWithoutIdentifier => Some SyntaxError
  | ConstantWithoutValue => Some DeclarationError
  | ParameterNotIdentifier => Some DeclarationError
  | TypeError => None
  end.

(** ** Token sequences of the inputs used below

    The lexer, [lexer.ts], is not part of the sources at hand.  Each input is
    written as the token sequence it stands for: one token per lexeme, its
    [value] the text of the lexeme, closed by the end-of-file token, whose
    text is taken to be [EndOfFile]. *)
Definition tok (ty : TokenType) (v : string) : Token := mkToken ty v.

Definition t_eof : Token := tok TEOF "EndOfFile".
Definition t_id (s : string) : Token := tok TIdentifier s.
Definition t_num (s : string) : Token := tok TNumber s.
Definition t_op (s : string) : Token := tok TBinaryOperator s.
Definition t_set : Token := tok TSet "set".
Definition t_lock : Token := tok TLock "lock".
Definition t_fun : Token := tok TFun "fun".
Definition t_if : Token := tok TIf "if".
Definition t_else : Token := tok TElse "else".
Definition t_eq : Token := tok TEquals "=".
Definition t_deq : Token := tok TDoubleEquals "==".
Definition t_neq : Token := tok TNotEquals "!=".
Definition t_semi : Token := tok TSemicolon ";".
Definition t_comma : Token := tok TComma ",".
Definition t_dot : Token := tok TDot ".".
Definition t_colon : Token := tok TColon ":".
Definition t_lparen : Token := tok TOpenParen "(".
Definition t_rparen : Token := tok TCloseParen ")".
Definition t_lbrace : Token := tok TOpenBrace "{".
Definition t_rbrace : Token := tok TCloseBrace "}".
Definition t_lbracket : Token := tok TOpenBracket "[".
Definition t_rbracket : Token := tok TCloseBracket "]".

(** * Vocabulary of the properties

    ** Results of fuelled functions *)

(** [below r r']: [r] is [r'], or no result yet. *)
Definition below {A} (r r' : Outcome A) : Prop := r = OutOfFuel \/ r = r'.

(** [refines p q]: [q] has every result of [p]. *)
Definition refines {A} (p q : Parser A) : Prop :=
  forall ts, below (p ts) (q ts).

(** [monotone f]: raising the fuel of [f] by one keeps every result. *)
Definition monotone {A} (f : nat -> Parser A) : Prop :=
  forall n, refines (f n) (f (S n)).

(** [yields f ts r]: on the buffer [ts], [f] has the result [r], which is a
    value or an error, for every fuel from some point on. *)
Definition yields {A} (f : nat -> Parser A) (ts : list Token)
  (r : Outcome A) : Prop :=
  r <> OutOfFuel /\ exists n, forall m, n <= m -> f m ts = r.

(** The result is a value or an error. *)
Definition stops {A} (r : Outcome A) : Prop :=
  (exists a rest, r = Ok a rest) \/ (exists e, r = Halt e).

(** [returns p Q]: every value that [p] returns satisfies [Q]. *)
Definition returns {A} (p : Parser A) (Q : A -> Prop) : Prop :=
  forall ts a ts', p ts = Ok a ts' -> Q a.

(** ** Consumption and fuel *)

(** [consuming p]: when [p] returns, the buffer is strictly shorter. *)
Definition consuming {A} (p : Parser A) : Prop :=
  forall ts a ts', p ts = Ok a ts' -> length ts' < length ts.

(** [nongrowing p]: when [p] returns, the buffer is not longer; a loop may
    return without an iteration. *)
Definition nongrowing {A} (p : Parser A) : Prop :=
  forall ts a ts', p ts = Ok a ts' -> length ts' <= length ts.

(** [runs rank n p]: [p], a function at fuel [n], does not run out of fuel on
    a buffer of [k] tokens when [10 * k + rank < n].  The rank of a function
    exceeds the rank of every function it calls before consuming a token;
    every other call comes after at least one token was consumed and is paid
    by the factor 10. *)
Definition runs {A} (rank n : nat) (p : Parser A) : Prop :=
  forall ts, 10 * length ts + rank < n -> p ts <> OutOfFuel.

(** ** Buffers closed by an end-of-file token *)

(** The buffer ends in a token of type [EOF]. *)
Definition ends_in_EOF (ts : list Token) : Prop :=
  exists front eof, ts = (front ++ [eof])%list /\ type eof = TEOF.

(** The texts on which the loops of [parse_additive_expr] and
    [parse_multiplicitave_expr] continue without looking at the token type. *)
Definition is_unguarded_operator (v : string) : bool :=
  existsb (String.eqb v) ["+"; "/"; "*"; "%"].

(** The buffer is not empty and its last token is an end-of-file token whose
    text is not one of these operators. *)
Fixpoint closed_by_EOF (ts : list Token) : bool :=
  match ts with
  | [] => false
  | t :: rest =>
      match rest with
      | [] => TokenType_eqb (type t) TEOF
              && negb (is_unguarded_operator (value t))
      | _ :: _ => closed_by_EOF rest
      end
  end.

(** [safe p]: on a closed buffer, [p] leaves a closed buffer and never reads
    a field of [undefined]. *)
Definition safe {A} (p : Parser A) : Prop :=
  forall ts, closed_by_EOF ts = true ->
    (forall a ts', p ts = Ok a ts' -> closed_by_EOF ts' = true)
    /\ p ts <> Halt TypeError.

(** ** Statements about every function of the grammar

    A [Family] says something of one fuelled function, given its rank (see
    [runs]) and whether it is the function of a loop.  [on_expressions P] and
    [on_statements P] state [P] of every function of the two recursive
    groups. *)
Definition Family : Type :=
  forall A : Type, nat -> bool -> (nat -> Parser A) -> Prop.

Record on_expressions (P : Family) : Prop := {
  on_expr : P _ 7 false parse_expr;
  on_assignment : P _ 6 false parse_assignment_expr;
  on_object : P _ 5 false parse_object_expr;
  on_object_loop : forall ps, P _ 0 true (fun n => parse_object_loop n ps);
  on_additive : P _ 4 false parse_additive_expr;
  on_additive_loop : forall l, P _ 0 true (fun n => parse_additive_loop n l);
  on_multiplicitave : P _ 3 false parse_multiplicitave_expr;
  on_multiplicitave_loop : forall l,
    P _ 0 true (fun n => parse_multiplicitave_loop n l);
  on_call_member : P _ 2 false parse_call_member_expr;
  on_call : forall c, P _ 1 false (fun n => parse_call_expr n c);
  on_args : P _ 0 false parse_args;
  on_arguments_list : P _ 7 false parse_arguments_list;
  on_arguments_loop : forall a,
    P _ 0 true (fun n => parse_arguments_loop n a);
  on_member : P _ 1 false parse_member_expr;
  on_member_loop : forall o, P _ 0 true (fun n => parse_member_loop n o);
  on_primary : P _ 0 false parse_primary_expr
}.

Record on_statements (P : Family) : Prop := {
  on_stmt : P _ 8 false parse_stmt;
  on_block : forall b, P _ 9 true (fun n => parse_block n b);
  on_if : P _ 0 false parse_if_stmt;
  on_fn : P _ 0 false parse_fn_declaration
}.

(** Fuel [S n] keeps the results of fuel [n]. *)
Definition fuel_step (n : nat) : Family :=
  fun A _ _ f => refines (f n) (f (S n)).

(** At fuel [n], a production consumes a token and a loop does not give
    tokens back. *)
Definition consumption (n : nat) : Family :=
  fun A _ loop f => if loop then nongrowing (f n) else consuming (f n).

(** Fuel [n] is enough on the buffers that the rank allows. *)
Definition enough (n : nat) : Family :=
  fun A rank _ f => runs rank n (f n).

(** At fuel [n], closed buffers are left closed and nothing is read past the
    end. *)
Definition safety (n : nat) : Family :=
  fun A _ _ f => safe (f n).

(** ** Shapes of trees and of buffers *)

Definition is_EmptyObject (e : Expr) : bool :=
  match e with EmptyObject => true | _ => false end.

Definition is_EqualityExpr (e : Expr) : bool :=
  match e with EqualityExpr _ _ _ => true | _ => false end.

Definition is_CallExpr (e : Expr) : bool :=
  match e with CallExpr _ _ => true | _ => false end.

(** Every [IfStmt] node of the statement, at any depth, has
    [operator = TokenType.BinaryEquals] and [right = {}]. *)
Fixpoint if_fields_fixed (s : Stmt) : bool :=
  match s with
  | VarDeclaration _ _ _ => true
  | ExprStmt _ => true
  | FunctionDeclaration _ _ body => forallb if_fields_fixed body
  | IfStmt _ op rhs consequent alternate =>
      TokenType_eqb op TBinaryEquals
      && is_EmptyObject rhs
      && forallb if_fields_fixed consequent
      && match alternate with
         | Some alt => forallb if_fields_fixed alt
         | None => true
         end
  end.

(** What the statement functions return, as far as [IfStmt] nodes go. *)
Record stmt_if_fields (n : nat) : Prop := {
  f_stmt : returns (parse_stmt n) (fun s => if_fields_fixed s = true);
  f_block : forall b, forallb if_fields_fixed b = true ->
    returns (parse_block n b) (fun l => forallb if_fields_fixed l = true);
  f_if : returns (parse_if_stmt n)
           (fun s => if_fields_fixed s = true /\
                     exists c cons alt,
                       s = IfStmt c TBinaryEquals EmptyObject cons alt);
  f_fn : returns (parse_fn_declaration n) (fun s => if_fields_fixed s = true)
}.

(** The buffer starts with an open-parenthesis token. *)
Definition starts_with_OpenParen (ts : list Token) : bool :=
  match ts with
  | t :: _ => TokenType_eqb (type t) TOpenParen
  | [] => false
  end.

(** The buffer starts with a token that can start an expression. *)
Definition starts_expression (ts : list Token) : bool :=
  match ts with
  | t :: _ =>
      match type t with
      | TIdentifier | TNumber | TString | TOpenParen | TOpenBrace => true
      | _ => false
      end
  | [] => false
  end.

(** ** Inputs, trees and messages of the claims *)

Definition num (text : string) : Expr := NumericLiteral (parseFloat text).

(** [a.b(1)[2]] *)
Definition src_member_call_index : list Token :=
  [t_id "a"; t_dot; t_id "b"; t_lparen; t_num "1"; t_rparen;
   t_lbracket; t_num "2"; t_rbracket; t_eof].

(** [a.b(1)(2)] *)
Definition src_member_call_call : list Token :=
  [t_id "a"; t_dot; t_id "b"; t_lparen; t_num "1"; t_rparen;
   t_lparen; t_num "2"; t_rparen; t_eof].

(** The tree of [a.b(1)]. *)
Definition ast_member_call : Expr :=
  CallExpr (MemberExpr (Identifier "a") (Identifier "b") false) [num "1"].

(** [{ a: 1, }] *)
Definition src_object_trailing_comma : list Token :=
  [t_lbrace; t_id "a"; t_colon; t_num "1"; t_comma; t_rbrace; t_eof].

(** [{ a: 1 }] *)
Definition src_object_plain : list Token :=
  [t_lbrace; t_id "a"; t_colon; t_num "1"; t_rbrace; t_eof].

(** [{ a, }] *)
Definition src_object_shorthand_comma : list Token :=
  [t_lbrace; t_id "a"; t_comma; t_rbrace; t_eof].

(** [{ a: 1 b }] *)
Definition src_object_missing_comma : list Token :=
  [t_lbrace; t_id "a"; t_colon; t_num "1"; t_id "b"; t_rbrace; t_eof].

(** The program of [{ a: 1 }]. *)
Definition ast_object_a_1 : Program :=
  mkProgram [ExprStmt (ObjectLiteral [mkProperty "a" (Some (num "1"))])].

(** [1 + 2 * 3] *)
Definition src_sum_product : list Token :=
  [t_num "1"; t_op "+"; t_num "2"; t_op "*"; t_num "3"; t_eof].

(** [if (a != b) { if c { } } else if d { } else { y }] *)
Definition src_if_chain : list Token :=
  [t_if; t_lparen; t_id "a"; t_neq; t_id "b"; t_rparen; t_lbrace;
   t_if; t_id "c"; t_lbrace; t_rbrace; t_rbrace;
   t_else; t_if; t_id "d"; t_lbrace; t_rbrace;
   t_else; t_lbrace; t_id "y"; t_rbrace; t_eof].

(** The statement of [src_if_chain]. *)
Definition ast_if_chain : Stmt :=
  IfStmt (EqualityExpr (Identifier "a") TNotEquals (Identifier "b"))
    TBinaryEquals EmptyObject
    [IfStmt (Identifier "c") TBinaryEquals EmptyObject [] None]
    (Some [IfStmt (Identifier "d") TBinaryEquals EmptyObject []
             (Some [ExprStmt (Identifier "y")])]).

(** The message of the [expect] after a property value. *)
Definition msg_comma_or_brace : string :=
  "Expected comma or closing bracket following property".

(** The message of the [expect] that closes a variable declaration. *)
Definition msg_semicolon : string :=
  "Variable declaration statment must end with semicolon.".

(** ** Vocabulary of the further properties *)

(** [suffix ts' ts]: [ts'] is what is left of [ts] after some tokens were
    taken from its front. *)
Definition suffix (ts' ts : list Token) : Prop :=
  exists consumed, ts = (consumed ++ ts')%list.

(** At fuel [n], what a function leaves is a suffix of what it was given. *)
Definition left_to_right (n : nat) : Family :=
  fun A _ _ f => forall ts a ts', f n ts = Ok a ts' -> suffix ts' ts.

(** The buffer starts with a token of type [EOF]. *)
Definition starts_with_EOF (ts : list Token) : bool :=
  match ts with
  | t :: _ => TokenType_eqb (type t) TEOF
  | [] => false
  end.

(** No token of the list has the type [EOF]. *)
Definition no_EOF (ts : list Token) : bool :=
  forallb (fun t => negb (TokenType_eqb (type t) TEOF)) ts.

(** The statement is of the kind that the token type selects in
    [parse_stmt]. *)
Definition selected_by (ty : TokenType) (s : Stmt) : bool :=
  match ty, s with
  | (TSet | TLock), VarDeclaration _ _ _ => true
  | (TSet | TLock), _ => false
  | TFun, FunctionDeclaration _ _ _ => true
  | TFun, _ => false
  | TIf, IfStmt _ _ _ _ _ => true
  | TIf, _ => false
  | _, ExprStmt _ => true
  | _, _ => false
  end.
(** The messages of [parse_var_declaration]. *)
Definition msg_var_identifier : string :=
  "Expected identifier name following let | const keywords.".
Definition msg_var_equals : string :=
  "Expected equals token following identifier in var declaration.".

(** The messages of the closing-brace checks. *)
Definition msg_if_close : string :=
  "Expected closing brace for consequent block.".
Definition msg_else_close : string :=
  "Expected closing brace for alternate block.".
Definition msg_fn_close : string :=
  "Closing brace expected inside function declaration".

(** The [symbol] of each [Identifier] of the list. *)
Definition symbols (args : list Expr) : list string :=
  flat_map (fun e => match e with Identifier s => [s] | _ => [] end) args.

(** The buffer starts with a token of type [EOF] or [CloseBrace]. *)
Definition starts_with_block_end (ts : list Token) : bool :=
  match ts with
  | t :: _ => TokenType_eqb (type t) TEOF
              || TokenType_eqb (type t) TCloseBrace
  | [] => false
  end.

(** ** Tokens that end an operand

    What the loops of the precedence ladder look at in the token that
    follows an operand: [ends_member t] lets the loop of [parse_member_expr]
    stop at [t], [ends_call t] lets [parse_call_member_expr] return as well,
    and so on up the ladder. *)
Definition ends_member (t : Token) : bool :=
  negb (TokenType_eqb (type t) TDot)
  && negb (TokenType_eqb (type t) TOpenBracket).

Definition ends_call (t : Token) : bool :=
  ends_member t && negb (TokenType_eqb (type t) TOpenParen).

Definition is_multiplicative (op : string) : bool :=
  existsb (String.eqb op) ["/"; "*"; "%"].

Definition is_additive (op : string) : bool :=
  String.eqb op "+" || String.eqb op "-".

Definition ends_product (t : Token) : bool :=
  ends_call t && negb (is_multiplicative (value t)).

Definition ends_sum (t : Token) : bool :=
  ends_product t && negb (is_additive (value t)).

Definition ends_expr (t : Token) : bool :=
  ends_sum t && negb (TokenType_eqb (type t) TEquals).

(** [parses_as ends f toks e]: in front of any token that [ends] allows, [f]
    reads exactly the tokens [toks] and returns [e]. *)
Definition parses_as (ends : Token -> bool) (f : nat -> Parser Expr)
  (toks : list Token) (e : Expr) : Prop :=
  forall t rest, ends t = true ->
    yields f (toks ++ t :: rest)%list (Ok e (t :: rest)).

(** An operator and the operand to its right: the operator's text, the
    tokens of the operand and its tree. *)
Definition Operation : Type := (string * list Token * Expr)%type.

(** The tokens [op1 operand1 op2 operand2 ...] and the tree they add to
    [left], nesting to the left. *)
Definition chain_tokens (more : list Operation) : list Token :=
  flat_map (fun '(op, toks, _) => t_op op :: toks) more.

Definition chain_expr (left : Expr) (more : list Operation) : Expr :=
  fold_left (fun acc '(op, _, e) => BinaryExpr acc e op) more left.

(** Every operation has an operator that [is_op] accepts and an operand that
    [operand] reads, in front of the tokens [ends] allows. *)
Definition operations (is_op : string -> bool) (ends : Token -> bool)
  (operand : nat -> Parser Expr) (more : list Operation) : Prop :=
  Forall (fun '(op, toks, e) =>
            is_op op = true /\ parses_as ends operand toks e) more.

(** The buffer starts with a token that can start an operand: any start of
    an expression but the open brace of an object literal. *)
Definition starts_operand (ts : list Token) : bool :=
  match ts with
  | t :: _ =>
      match type t with
      | TIdentifier | TNumber | TString | TOpenParen => true
      | _ => false
      end
  | [] => false
  end.

(** A target of an assignment: its tokens and its tree. *)
Definition Operand : Type := (list Token * Expr)%type.

(** The tokens [target1 = target2 = ... = value] and their tree, nesting to
    the right. *)
Definition assignment_tokens (targets : list Operand) (value : list Token)
  : list Token :=
  (flat_map (fun '(toks, _) => toks ++ [t_eq]) targets ++ value)%list.

Definition assignment_expr (targets : list Operand) (value : Expr) : Expr :=
  fold_right (fun '(_, e) acc => AssignmentExpr e acc) value targets.

(** The message of the [expect] that closes a parenthesis. *)
Definition msg_close_paren : string :=
  "Unexpected token found inside parenthesised expression. Expected closing parenthesis.".
(** A member access: [.name], or [[index]] with the tokens and the tree of
    the index. *)
Inductive Access : Type :=
| Field (name : string)
| Index (toks : list Token) (e : Expr).

Definition access_tokens (a : Access) : list Token :=
  match a with
  | Field name => [t_dot; t_id name]
  | Index toks _ => (t_lbracket :: toks ++ [t_rbracket])%list
  end.

Definition access_expr (object : Expr) (a : Access) : Expr :=
  match a with
  | Field name => MemberExpr object (Identifier name) false
  | Index _ e => MemberExpr object e true
  end.

(** Every index is read by [parse_expr]. *)
Definition accesses (l : list Access) : Prop :=
  Forall (fun a => match a with
                   | Field _ => True
                   | Index toks e => parses_as ends_expr parse_expr toks e
                   end) l.

(** [reads f toks e]: [f] reads exactly the tokens [toks] and returns [e],
    whatever follows. *)
Definition reads {A} (f : nat -> Parser A) (toks : list Token) (a : A)
  : Prop :=
  forall rest, yields f (toks ++ rest)%list (Ok a rest).

(** Every operand of the list is read by [f], in front of the tokens that
    [ends] allows. *)
Definition operands (ends : Token -> bool) (f : nat -> Parser Expr)
  (l : list Operand) : Prop :=
  Forall (fun '(toks, e) => parses_as ends f toks e) l.

(** The tokens [arg1 , arg2 , ...] of an argument list, and the
    parenthesised list. *)
Definition arguments_tokens (args : list Operand) : list Token :=
  match args with
  | [] => []
  | (toks, _) :: more =>
      (toks ++ flat_map (fun '(toks', _) => t_comma :: toks') more)%list
  end.

Definition call_tokens (args : list Operand) : list Token :=
  (t_lparen :: arguments_tokens args ++ [t_rparen])%list.

(** The call of [caller] with each argument list in turn. *)
Definition calls_expr (caller : Expr) (calls : list (list Operand)) : Expr :=
  fold_left (fun c args => CallExpr c (map snd args)) calls caller.

(** An entry of an object literal: [key], or [key : value] with the tokens
    and the tree of the value. *)
Inductive Entry : Type :=
| Shorthand (key : string)
| KeyValue (key : string) (toks : list Token) (e : Expr).

Definition entry_tokens (p : Entry) : list Token :=
  match p with
  | Shorthand key => [t_id key]
  | KeyValue key toks _ => t_id key :: t_colon :: toks
  end.

Definition entry_property (p : Entry) : Property :=
  match p with
  | Shorthand key => mkProperty key None
  | KeyValue key _ e => mkProperty key (Some e)
  end.

(** The entries separated by commas, with a comma after the last one when
    [trailing] is set. *)
Fixpoint entries_tokens (l : list Entry) (trailing : bool) : list Token :=
  match l with
  | [] => []
  | p :: ps =>
      (entry_tokens p
       ++ match ps with
          | [] => if trailing then [t_comma] else []
          | _ :: _ => t_comma :: entries_tokens ps trailing
          end)%list
  end.

(** Every value is read by [parse_expr]. *)
Definition entries (l : list Entry) : Prop :=
  Forall (fun p => match p with
                   | Shorthand _ => True
                   | KeyValue _ toks e => parses_as ends_expr parse_expr toks e
                   end) l.

Definition msg_close_bracket : string :=
  "Missing closing bracket in computed value.".

(** The five operators of a [BinaryExpr]. *)
Definition is_binary_operator (op : string) : bool :=
  existsb (String.eqb op) ["+"; "-"; "/"; "*"; "%"].

(** The tree is one that the expression functions build: the operator of a
    [BinaryExpr] is one of the five, the operator of an [EqualityExpr] is
    [==] or [!=], the property of a non-computed [MemberExpr] is an
    [Identifier], and the empty object occurs nowhere. *)
Fixpoint well_formed (e : Expr) : bool :=
  match e with
  | AssignmentExpr a v => well_formed a && well_formed v
  | ObjectLiteral ps =>
      forallb (fun p => match p with
                        | mkProperty _ (Some v) => well_formed v
                        | mkProperty _ None => true
                        end) ps
  | BinaryExpr l r op => well_formed l && well_formed r && is_binary_operator op
  | EqualityExpr l op r =>
      well_formed l && well_formed r
      && (TokenType_eqb op TDoubleEquals || TokenType_eqb op TNotEquals)
  | CallExpr c args => well_formed c && forallb well_formed args
  | MemberExpr o p computed =>
      well_formed o && well_formed p && (computed || kind_is_Identifier p)
  | Identifier _ => true
  | NumericLiteral _ => true
  | StringLiteral _ => true
  | EmptyObject => false
  end.

Definition well_formed_property (p : Property) : bool :=
  match p with
  | mkProperty _ (Some v) => well_formed v
  | mkProperty _ None => true
  end.

(** What the expression functions return, and what the loops return when
    what they were given is well formed. *)
Record expr_well_formed (n : nat) : Prop := {
  w_expr : returns (parse_expr n) (fun e => well_formed e = true);
  w_assignment :
    returns (parse_assignment_expr n) (fun e => well_formed e = true);
  w_object : returns (parse_object_expr n) (fun e => well_formed e = true);
  w_object_loop : forall ps, forallb well_formed_property ps = true ->
    returns (parse_object_loop n ps)
      (fun l => forallb well_formed_property l = true);
  w_additive : returns (parse_additive_expr n) (fun e => well_formed e = true);
  w_additive_loop : forall l, well_formed l = true ->
    returns (parse_additive_loop n l) (fun e => well_formed e = true);
  w_multiplicitave :
    returns (parse_multiplicitave_expr n) (fun e => well_formed e = true);
  w_multiplicitave_loop : forall l, well_formed l = true ->
    returns (parse_multiplicitave_loop n l) (fun e => well_formed e = true);
  w_call_member :
    returns (parse_call_member_expr n) (fun e => well_formed e = true);
  w_call : forall c, well_formed c = true ->
    returns (parse_call_expr n c) (fun e => well_formed e = true);
  w_args : returns (parse_args n) (fun l => forallb well_formed l = true);
  w_arguments_list :
    returns (parse_arguments_list n) (fun l => forallb well_formed l = true);
  w_arguments_loop : forall a, forallb well_formed a = true ->
    returns (parse_arguments_loop n a)
      (fun l => forallb well_formed l = true);
  w_member : returns (parse_member_expr n) (fun e => well_formed e = true);
  w_member_loop : forall o, well_formed o = true ->
    returns (parse_member_loop n o) (fun e => well_formed e = true);
  w_primary : returns (parse_primary_expr n) (fun e => well_formed e = true)
}.

(** Every expression of the statement, at any depth, is well formed, and
    every declaration without a value is not constant. *)
Fixpoint well_formed_stmt (s : Stmt) : bool :=
  match s with
  | VarDeclaration _ (Some v) _ => well_formed v
  | VarDeclaration _ None constant => negb constant
  | FunctionDeclaration _ _ stmts => forallb well_formed_stmt stmts
  | IfStmt c _ _ consequent alternate =>
      well_formed c
      && forallb well_formed_stmt consequent
      && match alternate with
         | Some alt => forallb well_formed_stmt alt
         | None => true
         end
  | ExprStmt e => well_formed e
  end.

Record stmt_well_formed (n : nat) : Prop := {
  w_stmt : returns (parse_stmt n) (fun s => well_formed_stmt s = true);
  w_block : forall b, forallb well_formed_stmt b = true ->
    returns (parse_block n b) (fun l => forallb well_formed_stmt l = true);
  w_if : returns (parse_if_stmt n) (fun s => well_formed_stmt s = true);
  w_fn : returns (parse_fn_declaration n)
           (fun s => well_formed_stmt s = true)
}.

(** The messages of [parse_object_expr] and [parse_args]. *)
Definition msg_object_key : string := "Object literal key expected".
Definition msg_object_colon : string :=
  "Missing colon following identifier in ObjectExpr".
Definition msg_object_close : string :=
  "Object literal missing closing brace.".
Definition msg_args_close : string :=
  "Missing closing parenthesis inside arguments list".

(** ** Equality tokens and parentheses *)

(** The token has the type [==] or [!=]. *)
Definition is_equality_token (t : Token) : bool :=
  TokenType_eqb (type t) TDoubleEquals || TokenType_eqb (type t) TNotEquals.

(** The type is that of a parenthesis or of an equality token. *)
Definition is_parenthesis_or_equality (ty : TokenType) : bool :=
  match ty with
  | TOpenParen | TCloseParen | TDoubleEquals | TNotEquals => true
  | _ => false
  end.

(** The contract of the lexer that the next definitions rely on: a token whose
    text is one of the five arithmetic operators is neither a parenthesis nor
    an equality token.  The loops of [parse_additive_expr] and
    [parse_multiplicitave_expr] look at the text of a token only. *)
Definition operator_text_is_operator (t : Token) : bool :=
  negb (is_binary_operator (value t))
  || negb (is_parenthesis_or_equality (type t)).

(** The depth of parentheses after the token [t] read at depth [d]; there is
    none when [t] closes a parenthesis that was not opened, and when [t] is
    an equality token outside every parenthesis. *)
Definition depth_step (d : nat) (t : Token) : option nat :=
  match type t with
  | TOpenParen => Some (S d)
  | TCloseParen => match d with O => None | S d' => Some d' end
  | TDoubleEquals | TNotEquals => match d with O => None | S _ => Some d end
  | _ => Some d
  end.

(** The depth of parentheses after the tokens [c] read from depth [d]. *)
Fixpoint depth_after (d : nat) (c : list Token) : option nat :=
  match c with
  | [] => Some d
  | t :: c' =>
      match depth_step d t with
      | Some d' => depth_after d' c'
      | None => None
      end
  end.

(** [scans d ts d' ts']: the tokens between [ts] and [ts'] lead from depth [d]
    to depth [d'], when they keep the contract of the lexer. *)
Definition scans (d : nat) (ts : list Token) (d' : nat) (ts' : list Token)
  : Prop :=
  exists c, ts = (c ++ ts')%list
            /\ (forallb operator_text_is_operator c = true ->
                depth_after d c = Some d').

(** [enclosing ts ts']: the tokens between [ts] and [ts'] have their
    parentheses matched and their equality tokens inside parentheses. *)
Definition enclosing (ts ts' : list Token) : Prop :=
  forall d, scans d ts d ts'.

(** At fuel [n], the tokens that a function consumed are [enclosing]. *)
Definition equality_enclosed (n : nat) : Family :=
  fun A _ _ f => forall ts a ts', f n ts = Ok a ts' -> enclosing ts ts'.

(** The same of the statement functions; the first token of a declaration is
    consumed unseen, and is left out. *)
Record stmt_equality_enclosed (n : nat) : Prop := {
  q_stmt : forall ts a ts', parse_stmt n ts = Ok a ts' -> enclosing ts ts';
  q_block : forall b ts a ts',
    parse_block n b ts = Ok a ts' -> enclosing ts ts';
  q_if : forall ts a ts', parse_if_stmt n ts = Ok a ts' -> enclosing ts ts';
  q_fn : forall t ts a ts',
    parse_fn_declaration n (t :: ts) = Ok a ts' -> enclosing ts ts'
}.

(** [inside_parentheses ts ts']: the tokens [c] between [ts] and [ts'], when
    they keep the contract of the lexer, have their parentheses matched, and
    in front of each of their equality tokens more parentheses were opened
    than closed. *)
Definition inside_parentheses (ts ts' : list Token) : Prop :=
  exists c,
    ts = (c ++ ts')%list
    /\ (forallb operator_text_is_operator c = true ->
        depth_after 0 c = Some 0
        /\ forall c1 t c2,
             c = (c1 ++ t :: c2)%list -> is_equality_token t = true ->
             exists k, depth_after 0 c1 = Some (S k)).

(** ** Sums of products *)

(** A product: its first operand and the operations that follow it. *)
Definition Product : Type := (Operand * list Operation)%type.

Definition product_tokens (p : Product) : list Token :=
  (fst (fst p) ++ chain_tokens (snd p))%list.

Definition product_expr (p : Product) : Expr :=
  chain_expr (snd (fst p)) (snd p).

(** The operands of the product are read by [parse_call_member_expr] and its
    operators are among [/ * %]. *)
Definition is_product (p : Product) : Prop :=
  parses_as ends_call parse_call_member_expr (fst (fst p)) (snd (fst p))
  /\ operations is_multiplicative ends_call parse_call_member_expr (snd p).

(** A term of a sum: an additive operator and the product to its right. *)
Definition Term : Type := (string * Product)%type.

Definition term_operation (term : Term) : Operation :=
  (fst term, product_tokens (snd term), product_expr (snd term)).

Definition is_term (term : Term) : Prop :=
  is_additive (fst term) = true /\ is_product (snd term).

(** The tokens [product op1 product1 op2 product2 ...] and their tree: the
    products are the operands of the additive operators. *)
Definition sum_tokens (p : Product) (terms : list Term) : list Token :=
  (product_tokens p ++ chain_tokens (map term_operation terms))%list.

Definition sum_expr (p : Product) (terms : list Term) : Expr :=
  chain_expr (product_expr p) (map term_operation terms).

(** [{ a: 1, b: 2 }] *)
Definition src_object_two : list Token :=
  [t_lbrace; t_id "a"; t_colon; t_num "1"; t_comma;
   t_id "b"; t_colon; t_num "2"; t_rbrace; t_eof].

(** [a.b(1).c] *)
Definition src_member_call_member : list Token :=
  [t_id "a"; t_dot; t_id "b"; t_lparen; t_num "1"; t_rparen;
   t_dot; t_id "c"; t_eof].

(** [(a) == b] *)
Definition src_equality_after_parentheses : list Token :=
  [t_lparen; t_id "a"; t_rparen; t_deq; t_id "b"; t_eof].

(** [x[a == b]] *)
Definition src_equality_in_index : list Token :=
  [t_id "x"; t_lbracket; t_id "a"; t_deq; t_id "b"; t_rbracket; t_eof].

(** [f(a == b)] *)
Definition src_equality_in_call : list Token :=
  [t_id "f"; t_lparen; t_id "a"; t_deq; t_id "b"; t_rparen; t_eof].

(** ** Statements and their first token *)

(** The buffer starts with a token that can start a statement: a keyword of a
    declaration or of an [if], or the start of an expression. *)
Definition starts_statement (ts : list Token) : bool :=
  match ts with
  | t :: _ =>
      match type t with
      | TSet | TLock | TFun | TIf => true
      | _ => starts_expression ts
      end
  | [] => false
  end.

(** The message of the [expect] that opens the block of an [if]. *)
Definition msg_if_open : string :=
  "Expected opening brace for consequent block.".

(** * Basic facts *)

Lemma TokenType_eqb_eq a b : TokenType_eqb a b = true -> a = b.
Proof.
  unfold TokenType_eqb.
  destruct (TokenType_eq_dec a b); [trivial | discriminate].
Qed.

Lemma TokenType_eqb_neq a b : a <> b -> TokenType_eqb a b = false.
Proof.
  unfold TokenType_eqb.
  destruct (TokenType_eq_dec a b); [contradiction | trivial].
Qed.

Lemma forallb_snoc {A} (f : A -> bool) l x :
  forallb f l = true -> f x = true -> forallb f (l ++ [x]) = true.
Proof.
  intros Hl Hx. rewrite forallb_app, Hl. simpl. rewrite Hx. reflexivity.
Qed.

(** Unfolds the families in the goal and in the hypotheses. *)
Ltac open_families :=
  cbv beta iota delta [fuel_step consumption enough safety] in *.

(** Unfolds the token cursor and the monad in [H], leaving the calls of
    the grammar functions. *)
Ltac unfold_cursor_in H :=
  cbv beta iota zeta delta [bind ret halt out_of_fuel at_type at_value at_
    not_eof eat expect type_of value_of hd_error] in H.

(** The same in the goal. *)
Ltac unfold_cursor :=
  cbv beta iota zeta delta [bind ret halt out_of_fuel at_type at_value at_
    not_eof eat expect type_of value_of hd_error].

(** Symbolic execution of a run [H : p ts = r]: case analysis on every
    scrutinee of the body, innermost first; the branches that contradict [H]
    are closed. *)
Ltac exec_in H :=
  repeat (unfold_cursor_in H;
    match type of H with
    | context [match ?x with _ => _ end] =>
        lazymatch x with
        | context [match _ with _ => _ end] => fail
        | _ => destruct x eqn:?
        end
    end; try discriminate H).

(** Splits the conjunctions of a statement, and nothing below them. *)
Ltac split_all := repeat match goal with |- _ /\ _ => split end.

(** * Fuel

    ** More fuel never changes a result *)

Lemma refines_refl {A} (p : Parser A) : refines p p.
Proof. intro ts. right. reflexivity. Qed.

Lemma refines_trans {A} (p q r : Parser A) :
  refines p q -> refines q r -> refines p r.
Proof.
  intros Hpq Hqr ts.
  destruct (Hpq ts) as [E | E]; [left; exact E |].
  rewrite E. apply Hqr.
Qed.

Lemma refines_out_of_fuel {A} (q : Parser A) : refines out_of_fuel q.
Proof. intro ts. left. reflexivity. Qed.

Lemma refines_bind {A B} (p p' : Parser A) (k k' : A -> Parser B) :
  refines p p' -> (forall a, refines (k a) (k' a)) ->
  refines (bind p k) (bind p' k').
Proof.
  intros Hp Hk ts. unfold bind.
  destruct (Hp ts) as [E | E]; rewrite E.
  - left. reflexivity.
  - destruct (p' ts) as [a ts' | e |]; [apply Hk | right | right]; reflexivity.
Qed.

(** One step of a refinement proof between two bodies of the same shape. *)
Ltac refines_step :=
  match goal with
  | |- refines ?p ?p => apply refines_refl
  | |- refines out_of_fuel _ => apply refines_out_of_fuel
  | H : forall x, refines (?f ?n x) _ |- refines (?f ?n _) _ => apply H
  | H : refines ?p _ |- refines ?p _ => exact H
  | |- refines (bind _ _) (bind _ _) => apply refines_bind; [ | intro ]
  | |- refines (if ?b then _ else _) (if ?b then _ else _) => destruct b
  | |- refines (match ?x with _ => _ end) (match ?x with _ => _ end) =>
      destruct x
  end.

Ltac refines_auto := simpl; repeat refines_step.

Lemma expr_fuel_step_all n : on_expressions (fuel_step n).
Proof.
  induction n as [| n IH].
  - constructor; intros; apply refines_out_of_fuel.
  - destruct IH. constructor; intros; open_families; refines_auto.
Qed.

Lemma var_declaration_fuel_step n :
  refines (parse_var_declaration n) (parse_var_declaration (S n)).
Proof.
  destruct n as [| n]; [apply refines_out_of_fuel |].
  destruct (expr_fuel_step_all n). open_families. refines_auto.
Qed.

Lemma stmt_fuel_step_all n : on_statements (fuel_step n).
Proof.
  induction n as [| n IH].
  - constructor; intros; apply refines_out_of_fuel.
  - destruct IH. destruct (expr_fuel_step_all n).
    pose proof (var_declaration_fuel_step n) as Hvar.
    constructor; intros; open_families; refines_auto.
Qed.

Lemma produceAST_loop_fuel_step n : forall b,
  refines (produceAST_loop n b) (produceAST_loop (S n) b).
Proof.
  induction n as [| n IH]; intro b; [apply refines_out_of_fuel |].
  destruct (stmt_fuel_step_all n). open_families. refines_auto.
Qed.

Lemma parse_tokens_fuel_step n :
  refines (parse_tokens n) (parse_tokens (S n)).
Proof.
  unfold parse_tokens. pose proof (produceAST_loop_fuel_step n) as Hloop.
  repeat refines_step.
Qed.

(** ** The result of a monotone function *)

Section Monotone.
Context {A : Type} (f : nat -> Parser A).
Hypothesis f_monotone : monotone f.

Lemma monotone_le n m : n <= m -> refines (f n) (f m).
Proof.
  induction 1 as [| m _ IH]; [apply refines_refl |].
  eapply refines_trans; [exact IH | apply f_monotone].
Qed.

Lemma run_stable n m ts r :
  f n ts = r -> r <> OutOfFuel -> n <= m -> f m ts = r.
Proof.
  intros E Hr Hle.
  destruct (monotone_le n m Hle ts) as [E' | E']; congruence.
Qed.

Lemma yields_run n ts r : f n ts = r -> r <> OutOfFuel -> yields f ts r.
Proof.
  intros E Hr. split; [exact Hr |].
  exists n. intros m Hle. eapply run_stable; eassumption.
Qed.

End Monotone.

Lemma yields_unique {A} (f : nat -> Parser A) ts (r r' : Outcome A) :
  yields f ts r -> yields f ts r' -> r = r'.
Proof.
  intros [_ [n Hn]] [_ [n' Hn']].
  rewrite <- (Hn (Nat.max n n')), <- (Hn' (Nat.max n n')); [reflexivity | |].
  - apply Nat.le_max_r.
  - apply Nat.le_max_l.
Qed.

Lemma monotone_parse_expr : monotone parse_expr.
Proof. intro n. exact (on_expr _ (expr_fuel_step_all n)). Qed.

Lemma monotone_parse_args : monotone parse_args.
Proof. intro n. exact (on_args _ (expr_fuel_step_all n)). Qed.

Lemma monotone_parse_call_expr caller :
  monotone (fun n => parse_call_expr n caller).
Proof. intro n. exact (on_call _ (expr_fuel_step_all n) caller). Qed.

Lemma monotone_parse_object_loop ps :
  monotone (fun n => parse_object_loop n ps).
Proof. intro n. exact (on_object_loop _ (expr_fuel_step_all n) ps). Qed.

Lemma monotone_parse_stmt : monotone parse_stmt.
Proof. intro n. exact (on_stmt _ (stmt_fuel_step_all n)). Qed.

Lemma monotone_parse_if_stmt : monotone parse_if_stmt.
Proof. intro n. exact (on_if _ (stmt_fuel_step_all n)). Qed.

Lemma monotone_parse_fn_declaration : monotone parse_fn_declaration.
Proof. intro n. exact (on_fn _ (stmt_fuel_step_all n)). Qed.

Lemma monotone_parse_tokens : monotone parse_tokens.
Proof. intro n. apply parse_tokens_fuel_step. Qed.

Create HintDb fuel.
#[local] Hint Resolve monotone_parse_expr monotone_parse_args
  monotone_parse_call_expr monotone_parse_object_loop monotone_parse_stmt
  monotone_parse_if_stmt monotone_parse_fn_declaration monotone_parse_tokens
  : fuel.

(** A concrete run with fuel [n] settles [yields]. *)
Ltac by_run n :=
  apply yields_run with n;
  [auto with fuel | vm_compute; reflexivity | discriminate].

(** ** Every production consumes a token *)

Lemma check_params_nongrowing args : forall params,
  nongrowing (check_params args params).
Proof.
  induction args as [| arg args IH]; intros params ts r ts' H; simpl in H.
  - injection H as <- <-. lia.
  - destruct arg; try discriminate H. exact (IH _ _ _ _ H).
Qed.

(** Turns every call that returned into the bound on its buffers. *)
Ltac use_consumption :=
  repeat match goal with
    | H : check_params _ _ _ = Ok _ _ |- _ =>
        apply check_params_nongrowing in H
    | IH : consuming ?p, H : ?p _ = Ok _ _ |- _ => apply IH in H
    | IH : forall x, consuming (?f ?n x), H : ?f ?n _ _ = Ok _ _ |- _ =>
        apply IH in H
    | IH : nongrowing ?p, H : ?p _ = Ok _ _ |- _ => apply IH in H
    | IH : forall x, nongrowing (?f ?n x), H : ?f ?n _ _ = Ok _ _ |- _ =>
        apply IH in H
    end.

Ltac consumption_auto H :=
  simpl in H; exec_in H; try (injection H as <- <-);
  use_consumption; cbn [length] in *; lia.

Lemma expr_consumption_all n : on_expressions (consumption n).
Proof.
  induction n as [| n IH].
  - constructor; intros; intros ts r ts' H; discriminate H.
  - destruct IH. constructor; intros; open_families;
      intros ts r ts' H; consumption_auto H.
Qed.

Lemma var_declaration_consuming n : consuming (parse_var_declaration n).
Proof.
  destruct n as [| n]; intros ts r ts' H; [discriminate H |].
  destruct (expr_consumption_all n). open_families. consumption_auto H.
Qed.

Lemma stmt_consumption_all n : on_statements (consumption n).
Proof.
  induction n as [| n IH].
  - constructor; intros; intros ts r ts' H; discriminate H.
  - destruct IH. destruct (expr_consumption_all n).
    pose proof (var_declaration_consuming n) as Hvar.
    constructor; intros; open_families;
      intros ts r ts' H; consumption_auto H.
Qed.

Lemma produceAST_loop_nongrowing n : forall b,
  nongrowing (produceAST_loop n b).
Proof.
  induction n as [| n IH]; intros b ts r ts' H; [discriminate H |].
  destruct (stmt_consumption_all n). open_families. consumption_auto H.
Qed.

(** ** Enough fuel *)

Lemma check_params_runs args : forall params ts,
  check_params args params ts <> OutOfFuel.
Proof.
  induction args as [| arg args IH]; intros params ts; simpl.
  - discriminate.
  - destruct arg; try discriminate. apply IH.
Qed.

(** Refutes a call that ran out of fuel although its fuel was enough. *)
Ltac use_runs :=
  match goal with
  | E : check_params _ _ _ = OutOfFuel |- _ =>
      exact (check_params_runs _ _ _ E)
  | IH : runs _ ?n ?p, E : ?p ?ts = OutOfFuel |- _ =>
      apply (IH ts); [cbn [length] in *; lia | exact E]
  | IH : forall x, runs _ ?n (?f ?n x), E : ?f ?n ?a ?ts = OutOfFuel |- _ =>
      apply (IH a ts); [cbn [length] in *; lia | exact E]
  end.

Ltac runs_auto H :=
  simpl in H; exec_in H; use_consumption; use_runs.

Lemma expr_runs_all n : on_expressions (enough n).
Proof.
  induction n as [| n IH].
  - constructor; intros; intros ts Hn; exfalso; lia.
  - destruct IH. destruct (expr_consumption_all n).
    constructor; intros; open_families; intros ts Hn H; runs_auto H.
Qed.

Lemma var_declaration_runs n : runs 0 n (parse_var_declaration n).
Proof.
  destruct n as [| n]; intros ts Hn H; [lia |].
  destruct (expr_runs_all n). destruct (expr_consumption_all n).
  open_families. runs_auto H.
Qed.

Lemma stmt_runs_all n : on_statements (enough n).
Proof.
  induction n as [| n IH].
  - constructor; intros; intros ts Hn; exfalso; lia.
  - destruct IH. destruct (expr_runs_all n). destruct (expr_consumption_all n).
    destruct (stmt_consumption_all n).
    pose proof (var_declaration_runs n) as Hvar.
    pose proof (var_declaration_consuming n) as Hvar'.
    constructor; intros; open_families; intros ts Hn H; runs_auto H.
Qed.

Lemma produceAST_loop_runs n : forall b, runs 9 n (produceAST_loop n b).
Proof.
  induction n as [| n IH]; intros b ts Hn H; [lia |].
  destruct (stmt_runs_all n). destruct (stmt_consumption_all n).
  open_families. runs_auto H.
Qed.

Lemma parse_tokens_runs n : runs 9 n (parse_tokens n).
Proof.
  intros ts Hn H. unfold parse_tokens in H.
  pose proof (produceAST_loop_runs n) as Hloop.
  exec_in H. use_runs.
Qed.

(** * The fields [operator] and [right] of an [IfStmt] *)

Lemma var_declaration_if_fields n :
  returns (parse_var_declaration n) (fun s => if_fields_fixed s = true).
Proof.
  destruct n as [| n]; intros ts r ts' H; [discriminate H |].
  simpl in H; exec_in H; injection H as <- <-; reflexivity.
Qed.

Ltac use_if_fields :=
  repeat match goal with
    | IH : returns ?p _, H : ?p _ = Ok _ _ |- _ => apply IH in H; cbv beta in H
    | IH : forall b, _ -> returns (parse_block ?n b) _,
      H : parse_block ?n ?b _ = Ok _ _ |- _ =>
        apply IH in H; cbv beta in H;
        [ | first [ reflexivity | apply forallb_snoc; assumption ] ]
    | H : _ /\ _ |- _ => destruct H
    end.

Lemma stmt_if_fields_all n : stmt_if_fields n.
Proof.
  induction n as [| n IH].
  - constructor; [ | intros b Hb | | ]; intros ts r ts' H; discriminate H.
  - destruct IH. pose proof (var_declaration_if_fields n) as Hvar.
    constructor; [ | intros b Hb | | ]; intros ts r ts' H; simpl in H;
      exec_in H; try (injection H as <- <-); use_if_fields;
      repeat split; simpl;
      repeat match goal with E : _ = true |- _ => rewrite E end;
      eauto.
Qed.

Lemma produceAST_loop_if_fields n : forall b,
  forallb if_fields_fixed b = true ->
  returns (produceAST_loop n b) (fun l => forallb if_fields_fixed l = true).
Proof.
  induction n as [| n IH]; intros b Hb ts r ts' H; [discriminate H |].
  destruct (stmt_if_fields_all n).
  simpl in H; exec_in H.
  - apply IH in H; [exact H |]. use_if_fields. apply forallb_snoc; assumption.
  - injection H as <- <-. exact Hb.
Qed.

(** * Where an [EqualityExpr] and a [CallExpr] come from *)

(** A loop that wraps [left] in a new node at each iteration returns an
    [EqualityExpr] only when it returns [left] itself. *)
Ltac loop_keeps_equality IH H He :=
  simpl in H; exec_in H;
  first [ injection H as <- <-; reflexivity
        | apply IH in H; [subst; discriminate He | exact He] ].

Lemma member_loop_equality n : forall o ts e ts',
  parse_member_loop n o ts = Ok e ts' -> is_EqualityExpr e = true -> e = o.
Proof.
  induction n as [| n IH]; intros o ts e ts' H He; [discriminate H |].
  loop_keeps_equality IH H He.
Qed.

Lemma multiplicitave_loop_equality n : forall l ts e ts',
  parse_multiplicitave_loop n l ts = Ok e ts' ->
  is_EqualityExpr e = true -> e = l.
Proof.
  induction n as [| n IH]; intros l ts e ts' H He; [discriminate H |].
  loop_keeps_equality IH H He.
Qed.

Lemma additive_loop_equality n : forall l ts e ts',
  parse_additive_loop n l ts = Ok e ts' -> is_EqualityExpr e = true -> e = l.
Proof.
  induction n as [| n IH]; intros l ts e ts' H He; [discriminate H |].
  loop_keeps_equality IH H He.
Qed.

Lemma call_expr_is_call n : forall caller ts e ts',
  parse_call_expr n caller ts = Ok e ts' -> is_CallExpr e = true.
Proof.
  induction n as [| n IH]; intros caller ts e ts' H; [discriminate H |].
  simpl in H; exec_in H.
  - exact (IH _ _ _ _ H).
  - injection H as <- <-. reflexivity.
Qed.

Lemma primary_equality n ts e ts' :
  parse_primary_expr n ts = Ok e ts' -> is_EqualityExpr e = true ->
  starts_with_OpenParen ts = true.
Proof.
  destruct n as [| n]; intros H He; [discriminate H |].
  simpl in H; exec_in H; injection H as <- <-; try discriminate He;
    simpl;
    match goal with E : type _ = TOpenParen |- _ => rewrite E end;
    reflexivity.
Qed.

(** One level of the precedence ladder: the result is the result of the
    level below, or a node that is not an [EqualityExpr]. *)
Ltac equality_level H He lower :=
  simpl in H; exec_in H;
  try (injection H as <- <-);
  try (simpl in He; discriminate He);
  repeat match goal with
    | E : parse_additive_loop _ _ _ = Ok _ _ |- _ =>
        apply additive_loop_equality in E; [subst | exact He]
    | E : parse_multiplicitave_loop _ _ _ = Ok _ _ |- _ =>
        apply multiplicitave_loop_equality in E; [subst | exact He]
    | E : parse_member_loop _ _ _ = Ok _ _ |- _ =>
        apply member_loop_equality in E; [subst | exact He]
    | E : parse_call_expr _ _ _ = Ok ?e _ |- _ =>
        apply call_expr_is_call in E; destruct e; discriminate
    end;
  eapply lower; eassumption.

Lemma member_equality n ts e ts' :
  parse_member_expr n ts = Ok e ts' -> is_EqualityExpr e = true ->
  starts_with_OpenParen ts = true.
Proof.
  destruct n as [| n]; intros H He; [discriminate H |].
  equality_level H He primary_equality.
Qed.

Lemma call_member_equality n ts e ts' :
  parse_call_member_expr n ts = Ok e ts' -> is_EqualityExpr e = true ->
  starts_with_OpenParen ts = true.
Proof.
  destruct n as [| n]; intros H He; [discriminate H |].
  equality_level H He member_equality.
Qed.

Lemma multiplicitave_equality n ts e ts' :
  parse_multiplicitave_expr n ts = Ok e ts' -> is_EqualityExpr e = true ->
  starts_with_OpenParen ts = true.
Proof.
  destruct n as [| n]; intros H He; [discriminate H |].
  equality_level H He call_member_equality.
Qed.

Lemma additive_equality n ts e ts' :
  parse_additive_expr n ts = Ok e ts' -> is_EqualityExpr e = true ->
  starts_with_OpenParen ts = true.
Proof.
  destruct n as [| n]; intros H He; [discriminate H |].
  equality_level H He multiplicitave_equality.
Qed.

Lemma object_equality n ts e ts' :
  parse_object_expr n ts = Ok e ts' -> is_EqualityExpr e = true ->
  starts_with_OpenParen ts = true.
Proof.
  destruct n as [| n]; intros H He; [discriminate H |].
  equality_level H He additive_equality.
Qed.

Lemma assignment_equality n ts e ts' :
  parse_assignment_expr n ts = Ok e ts' -> is_EqualityExpr e = true ->
  starts_with_OpenParen ts = true.
Proof.
  destruct n as [| n]; intros H He; [discriminate H |].
  equality_level H He object_equality.
Qed.

Lemma expr_equality n ts e ts' :
  parse_expr n ts = Ok e ts' -> is_EqualityExpr e = true ->
  starts_with_OpenParen ts = true.
Proof.
  destruct n as [| n]; intros H He; [discriminate H |].
  simpl in H. eapply assignment_equality; eassumption.
Qed.

(** * What an expression starts with *)

Lemma primary_start n ts e ts' :
  parse_primary_expr n ts = Ok e ts' -> starts_expression ts = true.
Proof.
  destruct n as [| n]; intro H; [discriminate H |].
  simpl in H; exec_in H; simpl;
    match goal with E : type _ = _ |- _ => rewrite E end; reflexivity.
Qed.

(** One level of the precedence ladder starts with the level below. *)
Ltac start_level H lower :=
  simpl in H; exec_in H; eapply lower; eassumption.

Lemma member_start n ts e ts' :
  parse_member_expr n ts = Ok e ts' -> starts_expression ts = true.
Proof.
  destruct n as [| n]; intro H; [discriminate H |].
  start_level H primary_start.
Qed.

Lemma call_member_start n ts e ts' :
  parse_call_member_expr n ts = Ok e ts' -> starts_expression ts = true.
Proof.
  destruct n as [| n]; intro H; [discriminate H |].
  start_level H member_start.
Qed.

Lemma multiplicitave_start n ts e ts' :
  parse_multiplicitave_expr n ts = Ok e ts' -> starts_expression ts = true.
Proof.
  destruct n as [| n]; intro H; [discriminate H |].
  start_level H call_member_start.
Qed.

Lemma additive_start n ts e ts' :
  parse_additive_expr n ts = Ok e ts' -> starts_expression ts = true.
Proof.
  destruct n as [| n]; intro H; [discriminate H |].
  start_level H multiplicitave_start.
Qed.

Lemma object_start n ts e ts' :
  parse_object_expr n ts = Ok e ts' -> starts_expression ts = true.
Proof.
  destruct n as [| n]; intro H; [discriminate H |].
  simpl in H; exec_in H;
    try (eapply additive_start; eassumption);
    match goal with
    | E : negb (TokenType_eqb _ TOpenBrace) = false |- _ =>
        apply negb_false_iff, TokenType_eqb_eq in E; simpl; rewrite E;
        reflexivity
    end.
Qed.

Lemma assignment_start n ts e ts' :
  parse_assignment_expr n ts = Ok e ts' -> starts_expression ts = true.
Proof.
  destruct n as [| n]; intro H; [discriminate H |].
  start_level H object_start.
Qed.

Lemma expr_start n ts e ts' :
  parse_expr n ts = Ok e ts' -> starts_expression ts = true.
Proof.
  destruct n as [| n]; intro H; [discriminate H |].
  simpl in H. eapply assignment_start; eassumption.
Qed.

(** * Parameters *)

Lemma check_params_rejects args :
  forallb kind_is_Identifier args = false ->
  forall params ts, check_params args params ts = Halt ParameterNotIdentifier.
Proof.
  induction args as [| arg args IH]; simpl; intros H params ts.
  - discriminate H.
  - destruct arg; simpl in H; try reflexivity. apply IH. exact H.
Qed.

(** * No read past the end of the buffer *)

Lemma closed_tail_type t ts :
  closed_by_EOF (t :: ts) = true -> type t <> TEOF -> closed_by_EOF ts = true.
Proof.
  simpl. destruct ts as [| t' ts]; [| trivial].
  intros H Ht. apply andb_prop in H. destruct H as [H _].
  apply TokenType_eqb_eq in H. contradiction.
Qed.

Lemma closed_tail_value t ts :
  closed_by_EOF (t :: ts) = true -> is_unguarded_operator (value t) = true ->
  closed_by_EOF ts = true.
Proof.
  simpl. destruct ts as [| t' ts]; [| trivial].
  intros H Hv. rewrite Hv in H. rewrite andb_false_r in H. discriminate H.
Qed.

Lemma unguarded_plus v : (v =? "+") = true -> is_unguarded_operator v = true.
Proof. intro E. unfold is_unguarded_operator. simpl. rewrite E. reflexivity. Qed.

Lemma unguarded_multiplicitave v :
  existsb (String.eqb v) ["/"; "*"; "%"] = true ->
  is_unguarded_operator v = true.
Proof.
  intro E. unfold is_unguarded_operator. simpl in *. rewrite E.
  apply orb_true_r.
Qed.

Lemma safe_ok {A} (p : Parser A) ts a ts' :
  safe p -> closed_by_EOF ts = true -> p ts = Ok a ts' ->
  closed_by_EOF ts' = true.
Proof. intros Hp Hts. apply (Hp ts Hts). Qed.

Lemma safe_halt {A} (p : Parser A) ts :
  safe p -> closed_by_EOF ts = true -> p ts = Halt TypeError -> False.
Proof. intros Hp Hts. apply (Hp ts Hts). Qed.

(** The type of the front token, as the branch of the run fixed it, is not
    [TEOF]. *)
Ltac front_not_EOF :=
  let Heof := fresh "Heof" in
  intro Heof;
  repeat match goal with
    | E : context [type ?t] |- _ =>
        lazymatch type of Heof with
        | type t = _ =>
            tryif constr_eq E Heof then fail
            else (rewrite Heof in E; vm_compute in E; try discriminate E)
        end
    end;
  fail.

Ltac closed_tail :=
  match goal with
  | Hc : closed_by_EOF (?t :: ?l) = true |- closed_by_EOF ?l = true =>
      first [ exact Hc
            | apply (closed_tail_type t l Hc); front_not_EOF
            | apply (closed_tail_value t l Hc);
              first [ apply unguarded_plus; assumption
                    | apply unguarded_multiplicitave; assumption ] ]
  end.

(** Every suffix of the buffer that the run has reached is closed. *)
Ltac saturate_closed :=
  repeat match goal with
    | Hc : closed_by_EOF (?t :: ?l) = true |- _ =>
        lazymatch goal with
        | _ : closed_by_EOF l = true |- _ => fail
        | _ => idtac
        end;
        let Hn := fresh "Hc" in
        assert (Hn : closed_by_EOF l = true) by closed_tail
    end.

Lemma check_params_safe args : forall params, safe (check_params args params).
Proof.
  induction args as [| arg args IH]; intros params ts Hc;
    (split; [intros ? ? H | intro H]); simpl in H.
  - injection H as <- <-. exact Hc.
  - discriminate H.
  - destruct arg; try discriminate H. exact (proj1 (IH _ ts Hc) _ _ H).
  - destruct arg; try discriminate H. exact (proj2 (IH _ ts Hc) H).
Qed.

Ltac use_safe :=
  repeat (saturate_closed;
    match goal with
    | E : closed_by_EOF [] = true |- _ => discriminate E
    | E : check_params ?args ?ps ?ts = Ok _ _ |- _ =>
        apply (safe_ok _ ts _ _ (check_params_safe args ps)) in E;
        [ | assumption ]
    | E : check_params ?args ?ps ?ts = Halt TypeError |- _ =>
        exfalso; apply (safe_halt _ ts (check_params_safe args ps));
        [assumption | exact E]
    | IH : safe ?p, E : ?p ?ts = Ok _ _ |- _ =>
        apply (safe_ok p ts _ _ IH) in E; [ | assumption ]
    | IH : forall x, safe (?f ?n x), E : ?f ?n ?a ?ts = Ok _ _ |- _ =>
        apply (safe_ok _ ts _ _ (IH a)) in E; [ | assumption ]
    | IH : safe ?p, E : ?p ?ts = Halt TypeError |- _ =>
        exfalso; apply (safe_halt p ts IH); [assumption | exact E]
    | IH : forall x, safe (?f ?n x), E : ?f ?n ?a ?ts = Halt TypeError |- _ =>
        exfalso; apply (safe_halt _ ts (IH a)); [assumption | exact E]
    end);
  saturate_closed.

Ltac safe_auto H :=
  simpl in H; exec_in H;
  try (injection H as <- <-); try (injection H as ->); try discriminate H;
  use_safe; assumption.

Ltac safe_cases ts Hc H :=
  intros ts Hc; split; [intros ? ? H | intro H].

Lemma expr_safe_all n : on_expressions (safety n).
Proof.
  induction n as [| n IH].
  - constructor; intros; safe_cases ts Hc H; discriminate H.
  - destruct IH.
    constructor; intros; open_families; safe_cases ts Hc H; safe_auto H.
Qed.

Lemma var_declaration_safe n : safe (parse_var_declaration n).
Proof.
  destruct n as [| n]; safe_cases ts Hc H; try discriminate H.
  all: destruct (expr_safe_all n); open_families; safe_auto H.
Qed.

Lemma stmt_safe_all n : on_statements (safety n).
Proof.
  induction n as [| n IH].
  - constructor; intros; safe_cases ts Hc H; discriminate H.
  - destruct IH. destruct (expr_safe_all n).
    pose proof (var_declaration_safe n) as Hvar.
    constructor; intros; open_families; safe_cases ts Hc H; safe_auto H.
Qed.

Lemma produceAST_loop_safe n : forall b, safe (produceAST_loop n b).
Proof.
  induction n as [| n IH]; intros b; safe_cases ts Hc H; try discriminate H.
  all: destruct (stmt_safe_all n); open_families; safe_auto H.
Qed.

Lemma parse_tokens_safe n : safe (parse_tokens n).
Proof.
  safe_cases ts Hc H; unfold parse_tokens in H;
    pose proof (produceAST_loop_safe n) as Hloop; safe_auto H.
Qed.

(** The closed buffers are the buffers that end in an end-of-file token with
    an ordinary text. *)
Lemma closed_by_EOF_app front eof :
  type eof = TEOF -> is_unguarded_operator (value eof) = false ->
  closed_by_EOF (front ++ [eof]) = true.
Proof.
  intros Hty Hv. induction front as [| t front IH]; simpl.
  - rewrite Hty, Hv. reflexivity.
  - destruct (front ++ [eof])%list eqn:E; [| exact IH].
    destruct front; discriminate E.
Qed.

Lemma closed_by_EOF_ends ts : closed_by_EOF ts = true -> ends_in_EOF ts.
Proof.
  induction ts as [| t ts IH]; simpl; [discriminate |].
  destruct ts as [| t' ts].
  - intro H. apply andb_prop in H. destruct H as [H _].
    exists [], t. split; [reflexivity | exact (TokenType_eqb_eq _ _ H)].
  - intro H. destruct (IH H) as (front & eof & E & Hty).
    exists (t :: front), eof. rewrite E. split; [reflexivity | exact Hty].
Qed.

(** * Properties of the functions of the grammar *)

(** ** Tokens leave the buffer from the front *)

Lemma suffix_refl ts : suffix ts ts.
Proof. exists []. reflexivity. Qed.

Lemma suffix_cons t ts' ts : suffix ts' ts -> suffix ts' (t :: ts).
Proof. intros [c E]. exists (t :: c). rewrite E. reflexivity. Qed.

Lemma suffix_trans ts1 ts2 ts3 :
  suffix ts1 ts2 -> suffix ts2 ts3 -> suffix ts1 ts3.
Proof.
  intros [c E] [c' E']. exists (c' ++ c)%list.
  rewrite E', E, app_assoc. reflexivity.
Qed.

Lemma suffix_tail t ts' ts : suffix (t :: ts') ts -> suffix ts' ts.
Proof.
  intros [c E]. exists (c ++ [t])%list. rewrite E, <- app_assoc. reflexivity.
Qed.

Lemma check_params_keeps_buffer args : forall params ts r ts',
  check_params args params ts = Ok r ts' -> ts' = ts.
Proof.
  induction args as [| arg args IH]; intros params ts r ts' H; simpl in H.
  - injection H as _ <-. reflexivity.
  - destruct arg; try discriminate H. exact (IH _ _ _ _ H).
Qed.

(** Turns every call that returned into the suffix fact of its buffers, and
    chains them. *)
Ltac use_suffix :=
  repeat match goal with
    | H : check_params _ _ _ = Ok _ _ |- _ =>
        apply check_params_keeps_buffer in H; subst
    | IH : forall ts a ts', ?p ts = Ok a ts' -> suffix ts' ts,
      H : ?p _ = Ok _ _ |- _ => apply IH in H
    | IH : forall x ts a ts', ?f ?n x ts = Ok a ts' -> suffix ts' ts,
      H : ?f ?n _ _ = Ok _ _ |- _ => apply IH in H
    end.

Ltac link_suffix :=
  solve [ apply suffix_refl
        | assumption
        | match goal with
          | H : suffix ?a ?b |- suffix ?a _ =>
              apply (suffix_trans a b _ H); clear H; link_suffix
          end
        | apply suffix_cons; link_suffix ].

Ltac chain_suffix :=
  repeat match goal with
    | H : suffix (?t :: ?l) ?x |- _ =>
        lazymatch goal with
        | _ : suffix l x |- _ => fail
        | _ => pose proof (suffix_tail t l x H)
        end
    end;
  link_suffix.

Ltac suffix_auto H :=
  simpl in H; exec_in H; try (injection H as <- <-);
  use_suffix; chain_suffix.

Lemma expr_left_to_right n : on_expressions (left_to_right n).
Proof.
  induction n as [| n IH].
  - constructor; intros; intros ts r ts' H; discriminate H.
  - destruct IH. constructor; intros;
      cbv beta iota delta [left_to_right] in *;
      intros ts r ts' H; suffix_auto H.
Qed.

Lemma var_declaration_left_to_right n ts a ts' :
  parse_var_declaration n ts = Ok a ts' -> suffix ts' ts.
Proof.
  destruct n as [| n]; intro H; [discriminate H |].
  destruct (expr_left_to_right n). cbv beta iota delta [left_to_right] in *.
  suffix_auto H.
Qed.

Lemma stmt_left_to_right n : on_statements (left_to_right n).
Proof.
  induction n as [| n IH].
  - constructor; intros; intros ts r ts' H; discriminate H.
  - destruct IH. destruct (expr_left_to_right n).
    pose proof (var_declaration_left_to_right n) as Hvar.
    constructor; intros; cbv beta iota delta [left_to_right] in *;
      intros ts r ts' H; suffix_auto H.
Qed.

Lemma produceAST_loop_left_to_right n : forall b ts r ts',
  produceAST_loop n b ts = Ok r ts' -> suffix ts' ts.
Proof.
  induction n as [| n IH]; intros b ts r ts' H; [discriminate H |].
  destruct (stmt_left_to_right n). cbv beta iota delta [left_to_right] in *.
  suffix_auto H.
Qed.

Lemma produceAST_loop_stops_at_EOF n : forall b ts r ts',
  produceAST_loop n b ts = Ok r ts' -> starts_with_EOF ts' = true.
Proof.
  induction n as [| n IH]; intros b ts r ts' H; [discriminate H |].
  simpl in H; exec_in H.
  - exact (IH _ _ _ _ H).
  - injection H as <- <-. simpl.
    match goal with E : negb _ = false |- _ =>
      apply negb_false_iff in E; exact E end.
Qed.

Lemma suffix_of_closed front eof ts' :
  no_EOF front = true -> suffix ts' (front ++ [eof])%list ->
  starts_with_EOF ts' = true -> ts' = [eof].
Proof.
  intros Hfront [c E] Hs. revert c E.
  induction front as [| t front IH]; intros c E.
  - destruct c as [| t' c]; simpl in E.
    + symmetry. exact E.
    + injection E as _ E. destruct c; simpl in E; [| discriminate E].
      subst ts'. discriminate Hs.
  - simpl in Hfront. apply andb_prop in Hfront. destruct Hfront as [Ht Hfront].
    destruct c as [| t' c]; simpl in E.
    + subst ts'. simpl in Hs. rewrite Hs in Ht. discriminate Ht.
    + injection E as _ E. exact (IH Hfront c E).
Qed.

Lemma parse_tokens_left_to_right n ts p ts' :
  parse_tokens n ts = Ok p ts' -> suffix ts' ts.
Proof.
  intro H. unfold parse_tokens in H. exec_in H.
  injection H as _ <-. eapply produceAST_loop_left_to_right; eassumption.
Qed.

(** X1: what [parse_expr], [parse_stmt] and the whole parse leave in the
    buffer is a suffix of what they were given: tokens are only taken from
    the front, and none is put back or reordered. *)
Theorem X1_consumed_from_the_front n ts :
  (forall e ts', parse_expr n ts = Ok e ts' -> suffix ts' ts)
  /\ (forall s ts', parse_stmt n ts = Ok s ts' -> suffix ts' ts)
  /\ (forall p ts', parse_tokens n ts = Ok p ts' -> suffix ts' ts).
Proof.
  split_all.
  - exact (on_expr _ (expr_left_to_right n) ts).
  - exact (on_stmt _ (stmt_left_to_right n) ts).
  - apply parse_tokens_left_to_right.
Qed.

(** X1 at [1 + 2 * 3]. *)
Lemma X1_consumed_from_the_front_witness :
  suffix [t_eof] src_sum_product.
Proof.
  refine (proj2 (proj2 (X1_consumed_from_the_front 100 src_sum_product))
            (mkProgram
               [ExprStmt (BinaryExpr (num "1")
                            (BinaryExpr (num "2") (num "3") "*") "+")])
            [t_eof] _).
  vm_compute. reflexivity.
Defined.

(** X2: when the buffer is a list of tokens without [EOF] followed by one
    [EOF] token and the parse returns a program, every token was consumed:
    exactly the [EOF] token is left. *)
Theorem X2_program_drains_buffer n front eof p ts' :
  no_EOF front = true ->
  parse_tokens n (front ++ [eof])%list = Ok p ts' ->
  ts' = [eof].
Proof.
  intros Hfront H.
  pose proof (parse_tokens_left_to_right _ _ _ _ H) as Hsuffix.
  unfold parse_tokens in H. exec_in H. injection H as _ <-.
  eapply suffix_of_closed; try eassumption.
  eapply produceAST_loop_stops_at_EOF; eassumption.
Qed.

(** X2 at [1 + 2 * 3]. *)
Lemma X2_program_drains_buffer_witness :
  no_EOF [t_num "1"; t_op "+"; t_num "2"; t_op "*"; t_num "3"] = true
  /\ exists p ts', parse_tokens 100 src_sum_product = Ok p ts'
                   /\ ts' = [t_eof].
Proof.
  split; [reflexivity |].
  exists (mkProgram
            [ExprStmt (BinaryExpr (num "1")
                         (BinaryExpr (num "2") (num "3") "*") "+")]),
    [t_eof].
  split; [vm_compute; reflexivity |].
  refine (X2_program_drains_buffer 100
            [t_num "1"; t_op "+"; t_num "2"; t_op "*"; t_num "3"] t_eof
            (mkProgram
               [ExprStmt (BinaryExpr (num "1")
                            (BinaryExpr (num "2") (num "3") "*") "+")])
            [t_eof] _ _).
  - reflexivity.
  - vm_compute. reflexivity.
Defined.

(** ** Running one function on a given buffer *)

(** Settles [monotone f] for a function of the grammar. *)
Ltac solve_monotone :=
  let n := fresh "n" in
  intro n; cbv beta;
  first [ apply parse_tokens_fuel_step
        | apply var_declaration_fuel_step
        | apply produceAST_loop_fuel_step
        | destruct (expr_fuel_step_all n); destruct (stmt_fuel_step_all n);
          open_families; auto; fail ].

#[local] Hint Extern 1 (monotone _) => solve_monotone : fuel.

(** A run with fuel [S N]: the body of the function, with its calls at
    fuel [N]. *)
Ltac run_with N :=
  let m := fresh "m" in
  let Em := fresh "Em" in
  apply yields_run with (S N);
  [ solve_monotone
  | remember N as m eqn:Em; simpl; unfold_cursor; simpl
  | try discriminate ].

(** Replaces a call by its result [H], known from some fuel on. *)
Ltac feed H := rewrite H by lia; simpl; unfold_cursor; simpl.

(** ** The loop of [produceAST] *)

(** The loop of [produceAST] with a body already pushed. *)
Lemma produceAST_loop_body n : forall b ts,
  produceAST_loop n b ts
  = match produceAST_loop n [] ts with
    | Ok l ts' => Ok (b ++ l)%list ts'
    | Halt e => Halt e
    | OutOfFuel => OutOfFuel
    end.
Proof.
  induction n as [| n IH]; intros b ts; [reflexivity |].
  simpl. unfold_cursor. destruct ts as [| t ts]; [reflexivity |].
  simpl. destruct (negb (TokenType_eqb (type t) TEOF)).
  - destruct (parse_stmt n (t :: ts)) as [s ts1 | e |]; try reflexivity.
    rewrite (IH (b ++ [s])%list), (IH ([] ++ [s])%list).
    destruct (produceAST_loop n [] ts1); try reflexivity.
    rewrite <- app_assoc. reflexivity.
  - rewrite app_nil_r. reflexivity.
Qed.

Lemma parse_tokens_loop n ts :
  produceAST_loop n [] ts
  = match parse_tokens n ts with
    | Ok p ts' => Ok (body p) ts'
    | Halt e => Halt e
    | OutOfFuel => OutOfFuel
    end.
Proof.
  unfold parse_tokens. unfold_cursor.
  destruct (produceAST_loop n [] ts); reflexivity.
Qed.

(** X3: the body of the program is the statements in the order of the
    source.  A buffer that starts with [EOF] gives the empty program and
    loses no token; otherwise the program is the statement that [parse_stmt]
    returns, followed by the program of what [parse_stmt] left. *)
Theorem X3_program_in_order :
  (forall ts, starts_with_EOF ts = true ->
     yields parse_tokens ts (Ok (mkProgram []) ts))
  /\ (forall ts s ts1 stmts ts2,
        starts_with_EOF ts = false ->
        yields parse_stmt ts (Ok s ts1) ->
        yields parse_tokens ts1 (Ok (mkProgram stmts) ts2) ->
        yields parse_tokens ts (Ok (mkProgram (s :: stmts)) ts2)).
Proof.
  split.
  - intros ts Hts. destruct ts as [| t ts]; [discriminate Hts |].
    simpl in Hts. apply yields_run with 1; [solve_monotone | | discriminate].
    unfold parse_tokens. simpl. unfold_cursor. simpl. rewrite Hts. reflexivity.
  - intros ts s ts1 stmts ts2 Hts [_ [n1 H1]] [_ [n2 H2]].
    apply yields_run with (S (n1 + n2)); [solve_monotone | | discriminate].
    unfold parse_tokens. simpl. unfold_cursor.
    destruct ts as [| t ts].
    + (* the statement parser fails on an empty buffer *)
      specialize (H1 (S n1) (Nat.le_succ_diag_r n1)). discriminate H1.
    + simpl in Hts. simpl. rewrite Hts. simpl.
      rewrite H1 by lia. rewrite produceAST_loop_body, parse_tokens_loop.
      rewrite H2 by lia. reflexivity.
Qed.

(** X3 at [set x; 1]. *)
Lemma X3_program_in_order_witness :
  yields parse_tokens [t_set; t_id "x"; t_semi; t_num "1"; t_eof]
    (Ok (mkProgram [VarDeclaration "x" None false; ExprStmt (num "1")])
       [t_eof]).
Proof.
  refine (proj2 X3_program_in_order
            _ _ [t_num "1"; t_eof] [ExprStmt (num "1")] _ _ _ _).
  - reflexivity.
  - by_run 100.
  - by_run 100.
Defined.

(** X4: there is no recovery from an error.  When [parse_stmt] stops with an
    error on the first statement, or the parse of what follows the first
    statement stops with an error, the whole parse stops with that error. *)
Theorem X4_first_error_aborts :
  (forall ts e,
      starts_with_EOF ts = false ->
      yields parse_stmt ts (Halt e) ->
      yields parse_tokens ts (Halt e))
  /\ (forall ts s ts1 e,
        starts_with_EOF ts = false ->
        yields parse_stmt ts (Ok s ts1) ->
        yields parse_tokens ts1 (Halt e) ->
        yields parse_tokens ts (Halt e)).
Proof.
  split.
  - intros ts e Hts [_ [n1 H1]].
    apply yields_run with (S n1); [solve_monotone | | discriminate].
    unfold parse_tokens. simpl. unfold_cursor.
    destruct ts as [| t ts].
    + (* on an empty buffer both read the missing front token *)
      specialize (H1 (S n1) (Nat.le_succ_diag_r n1)).
      simpl in H1. unfold_cursor_in H1. injection H1 as <-. reflexivity.
    + simpl in Hts. simpl. rewrite Hts. simpl.
      rewrite H1 by lia. reflexivity.
  - intros ts s ts1 e Hts [_ [n1 H1]] [_ [n2 H2]].
    apply yields_run with (S (n1 + n2)); [solve_monotone | | discriminate].
    unfold parse_tokens. simpl. unfold_cursor.
    destruct ts as [| t ts].
    + specialize (H1 (S n1) (Nat.le_succ_diag_r n1)). discriminate H1.
    + simpl in Hts. simpl. rewrite Hts. simpl.
      rewrite H1 by lia. rewrite produceAST_loop_body, parse_tokens_loop.
      rewrite H2 by lia. reflexivity.
Qed.

(** X4 at [1 lock x;]. *)
Lemma X4_first_error_aborts_witness :
  yields parse_tokens [t_num "1"; t_lock; t_id "x"; t_semi; t_eof]
    (Halt ConstantWithoutValue).
Proof.
  refine (proj2 X4_first_error_aborts
            _ (ExprStmt (num "1")) [t_lock; t_id "x"; t_semi; t_eof]
            _ _ _ _).
  - reflexivity.
  - by_run 100.
  - by_run 100.
Defined.

(** ** Statements *)

Lemma var_declaration_returns_VarDeclaration n ts s ts' :
  parse_var_declaration n ts = Ok s ts' ->
  exists x v c, s = VarDeclaration x v c.
Proof.
  destruct n as [| n]; intro H; [discriminate H |].
  simpl in H; exec_in H; injection H as <- <-; eauto.
Qed.

Lemma fn_declaration_returns_FunctionDeclaration n ts s ts' :
  parse_fn_declaration n ts = Ok s ts' ->
  exists name params stmts, s = FunctionDeclaration name params stmts.
Proof.
  destruct n as [| n]; intro H; [discriminate H |].
  simpl in H; exec_in H; injection H as <- <-; eauto.
Qed.

(** X5: the type of the first token decides the kind of the statement that
    [parse_stmt] returns: [Set] and [Lock] a [VarDeclaration], [Fun] a
    [FunctionDeclaration], [If] an [IfStmt], any other type an expression. *)
Theorem X5_first_token_selects n t ts s ts' :
  parse_stmt n (t :: ts) = Ok s ts' -> selected_by (type t) s = true.
Proof.
  destruct n as [| n]; intro H; [discriminate H |].
  simpl in H. unfold_cursor_in H.
  destruct (type t) eqn:Ety;
    try (exec_in H; injection H as <- <-; reflexivity).
  - apply var_declaration_returns_VarDeclaration in H.
    destruct H as (x & v & c & ->). reflexivity.
  - apply var_declaration_returns_VarDeclaration in H.
    destruct H as (x & v & c & ->). reflexivity.
  - apply fn_declaration_returns_FunctionDeclaration in H.
    destruct H as (x & v & c & ->). reflexivity.
  - apply (f_if _ (stmt_if_fields_all n)) in H.
    destruct H as (_ & c & cons & alt & ->). reflexivity.
Qed.

(** X5 at [fun f(a) { }]. *)
Lemma X5_first_token_selects_witness :
  selected_by (type t_fun) (FunctionDeclaration "f" ["a"] []) = true.
Proof.
  refine (X5_first_token_selects 100 t_fun
            [t_id "f"; t_lparen; t_id "a"; t_rparen; t_lbrace; t_rbrace; t_eof]
            _ [t_eof] _).
  vm_compute. reflexivity.
Defined.

(** X6: a keyword, an identifier [x], [=], an expression and [;] give the
    [VarDeclaration] of [x] with the expression as its value; it is constant
    exactly when the keyword token has the type [Lock].  The semicolon is
    consumed. *)
Theorem X6_declaration_with_value kw x ts v rest :
  yields parse_expr ts (Ok v (t_semi :: rest)) ->
  yields parse_var_declaration (kw :: t_id x :: t_eq :: ts)
    (Ok (VarDeclaration x (Some v) (TokenType_eqb (type kw) TLock)) rest).
Proof.
  intros [_ [n Hn]]. run_with n. feed Hn. reflexivity.
Qed.

(** X6 at [lock x = 1;]. *)
Lemma X6_declaration_with_value_witness :
  yields parse_var_declaration
    [t_lock; t_id "x"; t_eq; t_num "1"; t_semi; t_eof]
    (Ok (VarDeclaration "x" (Some (num "1")) true) [t_eof]).
Proof.
  refine (X6_declaration_with_value
            t_lock "x" [t_num "1"; t_semi; t_eof] (num "1") [t_eof] _).
  by_run 100.
Defined.

(** X7: the three [expect] errors of a declaration: the keyword is not
    followed by an identifier; the identifier is followed by neither [;] nor
    [=]; the value is not followed by [;].  Each reports the token found and
    the type expected. *)
Theorem X7_declaration_errors :
  (forall kw t rest,
      type t <> TIdentifier ->
      yields parse_var_declaration (kw :: t :: rest)
        (Halt (ExpectError msg_var_identifier (Some t) TIdentifier)))
  /\ (forall kw x t rest,
        type t <> TSemicolon -> type t <> TEquals ->
        yields parse_var_declaration (kw :: t_id x :: t :: rest)
          (Halt (ExpectError msg_var_equals (Some t) TEquals)))
  /\ (forall kw x ts v t rest,
        yields parse_expr ts (Ok v (t :: rest)) ->
        type t <> TSemicolon ->
        yields parse_var_declaration (kw :: t_id x :: t_eq :: ts)
          (Halt (ExpectError msg_semicolon (Some t) TSemicolon))).
Proof.
  split_all.
  - intros kw t rest Ht. run_with 0.
    rewrite (TokenType_eqb_neq _ _ Ht). reflexivity.
  - intros kw x t rest Hsemi Heq. run_with 0.
    rewrite (TokenType_eqb_neq _ _ Hsemi), (TokenType_eqb_neq _ _ Heq).
    reflexivity.
  - intros kw x ts v t rest [_ [n Hn]] Ht. run_with n. feed Hn.
    rewrite (TokenType_eqb_neq _ _ Ht). reflexivity.
Qed.

(** X7 at [set x = 1 2]. *)
Lemma X7_declaration_errors_witness :
  yields parse_var_declaration
    [t_set; t_id "x"; t_eq; t_num "1"; t_num "2"; t_eof]
    (Halt (ExpectError msg_semicolon (Some (t_num "2")) TSemicolon)).
Proof.
  refine (proj2 (proj2 X7_declaration_errors)
            t_set "x" [t_num "1"; t_num "2"; t_eof]
            (num "1") (t_num "2") [t_eof] _ _).
  - by_run 100.
  - discriminate.
Defined.

Lemma check_params_symbols args : forall params ts,
  forallb kind_is_Identifier args = true ->
  check_params args params ts = Ok (params ++ symbols args)%list ts.
Proof.
  induction args as [| arg args IH]; intros params ts H; simpl.
  - rewrite app_nil_r. reflexivity.
  - destruct arg; try discriminate H. simpl in H.
    rewrite (IH _ _ H), <- app_assoc. reflexivity.
Qed.

(** X8: a keyword, a name, an argument list whose arguments are all
    identifiers, [{], a block and [}] give the [FunctionDeclaration] with
    that name, the symbols of the arguments in order as parameters, and the
    statements of the block as body. *)
Theorem X8_function_assembled kw name ts args ts1 stmts rest :
  yields parse_args ts (Ok args (t_lbrace :: ts1)) ->
  forallb kind_is_Identifier args = true ->
  yields (fun n => parse_block n []) ts1 (Ok stmts (t_rbrace :: rest)) ->
  yields parse_fn_declaration (kw :: t_id name :: ts)
    (Ok (FunctionDeclaration name (symbols args) stmts) rest).
Proof.
  intros [_ [n1 H1]] Hargs [_ [n2 H2]]. run_with (n1 + n2).
  feed H1. rewrite (check_params_symbols _ _ _ Hargs). simpl.
  feed H2. reflexivity.
Qed.

(** X8 at [fun f(a, b) { a }]. *)
Lemma X8_function_assembled_witness :
  yields parse_fn_declaration
    [t_fun; t_id "f"; t_lparen; t_id "a"; t_comma; t_id "b"; t_rparen;
     t_lbrace; t_id "a"; t_rbrace; t_eof]
    (Ok (FunctionDeclaration "f" ["a"; "b"] [ExprStmt (Identifier "a")])
       [t_eof]).
Proof.
  refine (X8_function_assembled
            t_fun "f" _ [Identifier "a"; Identifier "b"]
            [t_id "a"; t_rbrace; t_eof] [ExprStmt (Identifier "a")] [t_eof]
            _ _ _).
  - by_run 100.
  - reflexivity.
  - by_run 100.
Defined.

(** X9: the loop that reads a block stops, without consuming a token, in
    front of [}] and of [EOF]; in front of any other token it reads one
    statement with [parse_stmt], pushes it at the end of the block and goes
    on. *)
Theorem X9_block_in_order block :
  (forall ts, starts_with_block_end ts = true ->
     yields (fun n => parse_block n block) ts (Ok block ts))
  /\ (forall ts s ts1 r,
        starts_with_block_end ts = false ->
        yields parse_stmt ts (Ok s ts1) ->
        yields (fun n => parse_block n (block ++ [s])%list) ts1 r ->
        yields (fun n => parse_block n block) ts r).
Proof.
  split.
  - intros ts Hts. destruct ts as [| t ts]; [discriminate Hts |].
    simpl in Hts. run_with 0.
    destruct (TokenType_eqb (type t) TEOF); [reflexivity |].
    simpl in Hts. rewrite Hts. reflexivity.
  - intros ts s ts1 r Hts [_ [n1 H1]] [Hr [n2 H2]].
    apply yields_run with (S (n1 + n2)); [solve_monotone | | exact Hr].
    destruct ts as [| t ts].
    + (* the statement parser fails on an empty buffer *)
      specialize (H1 (S n1) (Nat.le_succ_diag_r n1)). discriminate H1.
    + simpl in Hts. apply orb_false_iff in Hts. destruct Hts as [Heof Hclose].
      simpl. unfold_cursor. simpl. rewrite Heof, Hclose. simpl.
      rewrite H1 by lia. apply H2. lia.
Qed.

(** X9 at [a }]. *)
Lemma X9_block_in_order_witness :
  yields (fun n => parse_block n []) [t_id "a"; t_rbrace; t_eof]
    (Ok [ExprStmt (Identifier "a")] [t_rbrace; t_eof]).
Proof.
  refine (proj2 (X9_block_in_order [])
            _ (ExprStmt (Identifier "a")) [t_rbrace; t_eof] _ _ _ _).
  - reflexivity.
  - by_run 100.
  - by_run 100.
Defined.

Lemma block_stops_at_block_end n : forall b ts l ts',
  parse_block n b ts = Ok l ts' -> starts_with_block_end ts' = true.
Proof.
  induction n as [| n IH]; intros b ts l ts' H; [discriminate H |].
  simpl in H; exec_in H.
  - exact (IH _ _ _ _ H).
  - injection H as <- <-. simpl.
    match goal with E : _ && _ = false |- _ =>
      apply andb_false_iff in E; destruct E as [E | E];
      apply negb_false_iff in E; rewrite E end.
    + reflexivity.
    + apply orb_true_r.
Qed.

(** X10: the loop that reads a block returns only in front of [}] or [EOF].
    When it returned in front of [EOF], the [expect] of the closing brace
    fails: an [if] whose block or whose [else] block is still open at the end
    of the input, and a function whose body is, is an error, not a
    statement.  The error of an [if] that follows [else] is the error of the
    whole statement. *)
Theorem X10_unterminated_block :
  (forall n b ts l ts',
      parse_block n b ts = Ok l ts' -> starts_with_block_end ts' = true)
  /\ (forall kw ts c ts1 stmts t rest,
        type kw = TIf ->
        yields parse_expr ts (Ok c (t_lbrace :: ts1)) ->
        yields (fun n => parse_block n []) ts1 (Ok stmts (t :: rest)) ->
        type t = TEOF ->
        yields parse_if_stmt (kw :: ts)
          (Halt (ExpectError msg_if_close (Some t) TCloseBrace)))
  /\ (forall kw ts c ts1 stmts ts2 alt t rest,
        type kw = TIf ->
        yields parse_expr ts (Ok c (t_lbrace :: ts1)) ->
        yields (fun n => parse_block n []) ts1
          (Ok stmts (t_rbrace :: t_else :: t_lbrace :: ts2)) ->
        yields (fun n => parse_block n []) ts2 (Ok alt (t :: rest)) ->
        type t = TEOF ->
        yields parse_if_stmt (kw :: ts)
          (Halt (ExpectError msg_else_close (Some t) TCloseBrace)))
  /\ (forall kw ts c ts1 stmts t ts2 e,
        type kw = TIf ->
        yields parse_expr ts (Ok c (t_lbrace :: ts1)) ->
        yields (fun n => parse_block n []) ts1
          (Ok stmts (t_rbrace :: t_else :: t :: ts2)) ->
        type t = TIf ->
        yields parse_if_stmt (t :: ts2) (Halt e) ->
        yields parse_if_stmt (kw :: ts) (Halt e))
  /\ (forall kw name ts args ts1 stmts t rest,
        yields parse_args ts (Ok args (t_lbrace :: ts1)) ->
        forallb kind_is_Identifier args = true ->
        yields (fun n => parse_block n []) ts1 (Ok stmts (t :: rest)) ->
        type t = TEOF ->
        yields parse_fn_declaration (kw :: t_id name :: ts)
          (Halt (ExpectError msg_fn_close (Some t) TCloseBrace))).
Proof.
  split_all.
  - apply block_stops_at_block_end.
  - intros kw ts c ts1 stmts t rest Hkw [_ [n1 H1]] [_ [n2 H2]] Ht.
    run_with (n1 + n2). rewrite Hkw. simpl.
    feed H1. feed H2. rewrite Ht. reflexivity.
  - intros kw ts c ts1 stmts ts2 alt t rest Hkw
      [_ [n1 H1]] [_ [n2 H2]] [_ [n3 H3]] Ht.
    run_with (n1 + n2 + n3). rewrite Hkw. simpl.
    feed H1. feed H2. feed H3. rewrite Ht. reflexivity.
  - intros kw ts c ts1 stmts t ts2 e Hkw
      [_ [n1 H1]] [_ [n2 H2]] Ht [_ [n3 H3]].
    run_with (n1 + n2 + n3). rewrite Hkw. simpl.
    feed H1. feed H2. rewrite Ht. simpl. feed H3. reflexivity.
  - intros kw name ts args ts1 stmts t rest [_ [n1 H1]] Hargs [_ [n2 H2]] Ht.
    run_with (n1 + n2). feed H1.
    rewrite (check_params_symbols _ _ _ Hargs). simpl.
    feed H2. rewrite Ht. reflexivity.
Qed.

(** X10 at [if a { b] and at [if a { } else { b]. *)
Lemma X10_unterminated_block_witness :
  yields parse_if_stmt [t_if; t_id "a"; t_lbrace; t_id "b"; t_eof]
    (Halt (ExpectError msg_if_close (Some t_eof) TCloseBrace))
  /\ yields parse_if_stmt
       [t_if; t_id "a"; t_lbrace; t_rbrace; t_else; t_lbrace; t_id "b"; t_eof]
       (Halt (ExpectError msg_else_close (Some t_eof) TCloseBrace)).
Proof.
  split.
  - refine (proj1 (proj2 X10_unterminated_block)
              t_if _ (Identifier "a") [t_id "b"; t_eof]
              [ExprStmt (Identifier "b")] t_eof [] _ _ _ _).
    + reflexivity.
    + by_run 100.
    + by_run 100.
    + reflexivity.
  - refine (proj1 (proj2 (proj2 X10_unterminated_block))
              t_if _ (Identifier "a") _ [] [t_id "b"; t_eof]
              [ExprStmt (Identifier "b")] t_eof [] _ _ _ _ _).
    + reflexivity.
    + by_run 100.
    + by_run 100.
    + by_run 100.
    + reflexivity.
Defined.

(** X11: an [if] statement is built from its condition and its block, with
    no alternate when the token after the closing brace is not [else], with
    the nested [IfStmt] as the only statement of the alternate for
    [else if], and with the statements of the second block for
    [else { ... }]. *)
Theorem X11_if_assembled kw ts c ts1 stmts :
  type kw = TIf ->
  yields parse_expr ts (Ok c (t_lbrace :: ts1)) ->
  (forall t rest,
      yields (fun n => parse_block n []) ts1
        (Ok stmts (t_rbrace :: t :: rest)) ->
      type t <> TElse ->
      yields parse_if_stmt (kw :: ts)
        (Ok (IfStmt c TBinaryEquals EmptyObject stmts None) (t :: rest)))
  /\ (forall t ts2 s rest,
        yields (fun n => parse_block n []) ts1
          (Ok stmts (t_rbrace :: t_else :: t :: ts2)) ->
        type t = TIf ->
        yields parse_if_stmt (t :: ts2) (Ok s rest) ->
        yields parse_if_stmt (kw :: ts)
          (Ok (IfStmt c TBinaryEquals EmptyObject stmts (Some [s])) rest))
  /\ (forall ts2 alt rest,
        yields (fun n => parse_block n []) ts1
          (Ok stmts (t_rbrace :: t_else :: t_lbrace :: ts2)) ->
        yields (fun n => parse_block n []) ts2 (Ok alt (t_rbrace :: rest)) ->
        yields parse_if_stmt (kw :: ts)
          (Ok (IfStmt c TBinaryEquals EmptyObject stmts (Some alt)) rest)).
Proof.
  intros Hkw [_ [n1 H1]]. split_all.
  - intros t rest [_ [n2 H2]] Ht. run_with (n1 + n2). rewrite Hkw. simpl.
    feed H1. feed H2. rewrite (TokenType_eqb_neq _ _ Ht). reflexivity.
  - intros t ts2 s rest [_ [n2 H2]] Ht [_ [n3 H3]].
    run_with (n1 + n2 + n3). rewrite Hkw. simpl.
    feed H1. feed H2. rewrite Ht. simpl. feed H3. reflexivity.
  - intros ts2 alt rest [_ [n2 H2]] [_ [n3 H3]].
    run_with (n1 + n2 + n3). rewrite Hkw. simpl.
    feed H1. feed H2. feed H3. reflexivity.
Qed.

(** X11 at [if a { } else if b { }] and at [if a { x } else { y }]. *)
Lemma X11_if_assembled_witness :
  yields parse_if_stmt
    [t_if; t_id "a"; t_lbrace; t_rbrace; t_else;
     t_if; t_id "b"; t_lbrace; t_rbrace; t_eof]
    (Ok (IfStmt (Identifier "a") TBinaryEquals EmptyObject []
           (Some [IfStmt (Identifier "b") TBinaryEquals EmptyObject [] None]))
       [t_eof])
  /\ yields parse_if_stmt
       [t_if; t_id "a"; t_lbrace; t_id "x"; t_rbrace; t_else;
        t_lbrace; t_id "y"; t_rbrace; t_eof]
       (Ok (IfStmt (Identifier "a") TBinaryEquals EmptyObject
              [ExprStmt (Identifier "x")] (Some [ExprStmt (Identifier "y")]))
          [t_eof]).
Proof.
  split.
  - refine (proj1 (proj2 (X11_if_assembled t_if _ (Identifier "a") _ [] _ _))
              t_if [t_id "b"; t_lbrace; t_rbrace; t_eof]
              (IfStmt (Identifier "b") TBinaryEquals EmptyObject [] None)
              [t_eof] _ _ _).
    + reflexivity.
    + by_run 100.
    + by_run 100.
    + reflexivity.
    + by_run 100.
  - refine (proj2 (proj2 (X11_if_assembled t_if _ (Identifier "a") _
                            [ExprStmt (Identifier "x")] _ _))
              [t_id "y"; t_rbrace; t_eof] [ExprStmt (Identifier "y")]
              [t_eof] _ _).
    + reflexivity.
    + by_run 100.
    + by_run 100.
    + by_run 100.
Defined.

(** ** Chains of binary operators *)

Section Chain.
Variable operand : nat -> Parser Expr.
Variable loop : nat -> Expr -> Parser Expr.
Variable is_op : string -> bool.
Variables ends_operand ends_chain : Token -> bool.

Hypothesis ends_weaken :
  forall t, ends_chain t = true -> ends_operand t = true.
Hypothesis op_ends_operand :
  forall op, is_op op = true -> ends_operand (t_op op) = true.
Hypothesis loop_stop :
  forall left t rest, ends_chain t = true ->
    yields (fun n => loop n left) (t :: rest) (Ok left (t :: rest)).
Hypothesis loop_step :
  forall left op ts e ts1 r,
    is_op op = true ->
    yields operand ts (Ok e ts1) ->
    yields (fun n => loop n (BinaryExpr left e op)) ts1 r ->
    yields (fun n => loop n left) (t_op op :: ts) r.

(** What follows an operand inside a chain ends the operand. *)
Lemma chain_head more t rest :
  operations is_op ends_operand operand more -> ends_chain t = true ->
  exists t' rest',
    (chain_tokens more ++ t :: rest)%list = t' :: rest'
    /\ ends_operand t' = true.
Proof.
  intros Hmore Ht. destruct more as [| [[op toks] e] more]; simpl.
  - exists t, rest. split; [reflexivity | apply ends_weaken; exact Ht].
  - apply Forall_cons_iff in Hmore. destruct Hmore as [[Hop _] _].
    eexists _, _. split; [reflexivity | apply op_ends_operand; exact Hop].
Qed.

Lemma loop_chain more : forall left t rest,
  operations is_op ends_operand operand more -> ends_chain t = true ->
  yields (fun n => loop n left) (chain_tokens more ++ t :: rest)%list
    (Ok (chain_expr left more) (t :: rest)).
Proof.
  induction more as [| [[op toks] e] more IH]; intros left t rest Hmore Ht.
  - apply loop_stop. exact Ht.
  - apply Forall_cons_iff in Hmore. destruct Hmore as [[Hop He] Hmore'].
    destruct (chain_head more t rest Hmore' Ht) as (t' & rest' & E & Ht').
    simpl. rewrite <- app_assoc.
    apply loop_step with (e := e)
      (ts1 := (chain_tokens more ++ t :: rest)%list).
    + exact Hop.
    + rewrite E. apply He. exact Ht'.
    + apply IH; assumption.
Qed.

End Chain.

Lemma ends_product_call t : ends_product t = true -> ends_call t = true.
Proof. unfold ends_product. intro H. apply andb_prop in H. apply H. Qed.

Lemma ends_sum_product t : ends_sum t = true -> ends_product t = true.
Proof. unfold ends_sum. intro H. apply andb_prop in H. apply H. Qed.

Lemma ends_expr_sum t : ends_expr t = true -> ends_sum t = true.
Proof. unfold ends_expr. intro H. apply andb_prop in H. apply H. Qed.

Lemma ends_call_member t : ends_call t = true -> ends_member t = true.
Proof. unfold ends_call. intro H. apply andb_prop in H. apply H. Qed.

Lemma multiplicative_ends_call op :
  is_multiplicative op = true -> ends_call (t_op op) = true.
Proof. reflexivity. Qed.

Lemma additive_ends_product op :
  is_additive op = true -> ends_product (t_op op) = true.
Proof.
  unfold is_additive, ends_product. intro H. simpl.
  apply orb_prop in H.
  destruct H as [H | H]; apply String.eqb_eq in H; subst op; reflexivity.
Qed.

Lemma multiplicitave_loop_stop left t rest :
  ends_product t = true ->
  yields (fun n => parse_multiplicitave_loop n left) (t :: rest)
    (Ok left (t :: rest)).
Proof.
  intro Ht. unfold ends_product in Ht. apply andb_prop in Ht.
  destruct Ht as [_ Ht]. apply negb_true_iff in Ht.
  unfold is_multiplicative in Ht. simpl in Ht.
  run_with 0. rewrite Ht. reflexivity.
Qed.

Lemma multiplicitave_loop_step left op ts e ts1 r :
  is_multiplicative op = true ->
  yields parse_call_member_expr ts (Ok e ts1) ->
  yields (fun n => parse_multiplicitave_loop n (BinaryExpr left e op)) ts1 r ->
  yields (fun n => parse_multiplicitave_loop n left) (t_op op :: ts) r.
Proof.
  intros Hop [_ [n1 H1]] [Hr [n2 H2]].
  unfold is_multiplicative in Hop. simpl in Hop.
  apply yields_run with (S (n1 + n2)); [solve_monotone | | exact Hr].
  simpl. unfold_cursor. simpl. rewrite Hop. feed H1. apply H2. lia.
Qed.

Lemma additive_loop_stop left t rest :
  ends_sum t = true ->
  yields (fun n => parse_additive_loop n left) (t :: rest)
    (Ok left (t :: rest)).
Proof.
  intro Ht. unfold ends_sum in Ht. apply andb_prop in Ht.
  destruct Ht as [_ Ht]. apply negb_true_iff in Ht.
  unfold is_additive in Ht. apply orb_false_iff in Ht.
  destruct Ht as [Hplus Hminus].
  run_with 0. rewrite Hplus, Hminus. reflexivity.
Qed.

Lemma additive_loop_step left op ts e ts1 r :
  is_additive op = true ->
  yields parse_multiplicitave_expr ts (Ok e ts1) ->
  yields (fun n => parse_additive_loop n (BinaryExpr left e op)) ts1 r ->
  yields (fun n => parse_additive_loop n left) (t_op op :: ts) r.
Proof.
  intros Hop [_ [n1 H1]] [Hr [n2 H2]].
  apply yields_run with (S (n1 + n2)); [solve_monotone | | exact Hr].
  simpl. unfold_cursor. simpl.
  unfold is_additive in Hop. apply orb_prop in Hop.
  destruct Hop as [Hop | Hop]; apply String.eqb_eq in Hop; subst op; simpl;
    feed H1; apply H2; lia.
Qed.

Lemma product_reads toks e more :
  parses_as ends_call parse_call_member_expr toks e ->
  operations is_multiplicative ends_call parse_call_member_expr more ->
  parses_as ends_product parse_multiplicitave_expr
    (toks ++ chain_tokens more) (chain_expr e more).
Proof.
  intros He Hmore t rest Ht.
  destruct (chain_head parse_call_member_expr is_multiplicative ends_call
              ends_product ends_product_call multiplicative_ends_call
              more t rest Hmore Ht) as (t' & rest' & E & Ht').
  pose proof (loop_chain parse_call_member_expr parse_multiplicitave_loop
                is_multiplicative ends_call ends_product ends_product_call
                multiplicative_ends_call multiplicitave_loop_stop
                multiplicitave_loop_step more e t rest Hmore Ht) as Hloop.
  rewrite <- app_assoc. rewrite E in *.
  destruct (He t' rest' Ht') as [_ [n1 H1]]. destruct Hloop as [_ [n2 H2]].
  run_with (n1 + n2). feed H1. apply H2. lia.
Qed.

Lemma sum_reads toks e more :
  parses_as ends_product parse_multiplicitave_expr toks e ->
  operations is_additive ends_product parse_multiplicitave_expr more ->
  parses_as ends_sum parse_additive_expr
    (toks ++ chain_tokens more) (chain_expr e more).
Proof.
  intros He Hmore t rest Ht.
  destruct (chain_head parse_multiplicitave_expr is_additive ends_product
              ends_sum ends_sum_product additive_ends_product
              more t rest Hmore Ht) as (t' & rest' & E & Ht').
  pose proof (loop_chain parse_multiplicitave_expr parse_additive_loop
                is_additive ends_product ends_sum ends_sum_product
                additive_ends_product additive_loop_stop
                additive_loop_step more e t rest Hmore Ht) as Hloop.
  rewrite <- app_assoc. rewrite E in *.
  destruct (He t' rest' Ht') as [_ [n1 H1]]. destruct Hloop as [_ [n2 H2]].
  run_with (n1 + n2). feed H1. apply H2. lia.
Qed.

Lemma primary_starts_operand n ts e ts' :
  parse_primary_expr n ts = Ok e ts' -> starts_operand ts = true.
Proof.
  destruct n as [| n]; intro H; [discriminate H |].
  simpl in H; exec_in H; simpl;
    match goal with E : type _ = _ |- _ => rewrite E end; reflexivity.
Qed.

Lemma member_starts_operand n ts e ts' :
  parse_member_expr n ts = Ok e ts' -> starts_operand ts = true.
Proof.
  destruct n as [| n]; intro H; [discriminate H |].
  start_level H primary_starts_operand.
Qed.

Lemma call_member_starts_operand n ts e ts' :
  parse_call_member_expr n ts = Ok e ts' -> starts_operand ts = true.
Proof.
  destruct n as [| n]; intro H; [discriminate H |].
  start_level H member_starts_operand.
Qed.

Lemma multiplicitave_starts_operand n ts e ts' :
  parse_multiplicitave_expr n ts = Ok e ts' -> starts_operand ts = true.
Proof.
  destruct n as [| n]; intro H; [discriminate H |].
  start_level H call_member_starts_operand.
Qed.

Lemma additive_starts_operand n ts e ts' :
  parse_additive_expr n ts = Ok e ts' -> starts_operand ts = true.
Proof.
  destruct n as [| n]; intro H; [discriminate H |].
  start_level H multiplicitave_starts_operand.
Qed.

(** ** One operand, up the ladder *)

Lemma call_member_of_member toks e :
  parses_as ends_member parse_member_expr toks e ->
  parses_as ends_call parse_call_member_expr toks e.
Proof.
  intros He t rest Ht.
  destruct (He t rest (ends_call_member t Ht)) as [_ [n Hn]].
  unfold ends_call in Ht. apply andb_prop in Ht. destruct Ht as [_ Ht].
  apply negb_true_iff in Ht.
  run_with n. feed Hn. rewrite Ht. reflexivity.
Qed.

Lemma object_of_additive toks e :
  parses_as ends_sum parse_additive_expr toks e ->
  parses_as ends_sum parse_object_expr toks e.
Proof.
  intros He t rest Ht. destruct (He t rest Ht) as [_ [n Hn]].
  pose proof (additive_starts_operand _ _ _ _ (Hn n (le_n n))) as Hstart.
  run_with n.
  destruct (toks ++ t :: rest)%list as [| t0 ts0]; [discriminate Hstart |].
  simpl in Hstart. simpl.
  destruct (type t0); try discriminate Hstart; simpl; apply Hn; lia.
Qed.

Lemma assignment_of_object toks e :
  parses_as ends_sum parse_object_expr toks e ->
  parses_as ends_expr parse_assignment_expr toks e.
Proof.
  intros He t rest Ht.
  destruct (He t rest (ends_expr_sum t Ht)) as [_ [n Hn]].
  unfold ends_expr in Ht. apply andb_prop in Ht. destruct Ht as [_ Ht].
  apply negb_true_iff in Ht.
  run_with n. feed Hn. rewrite Ht. reflexivity.
Qed.

Lemma expr_of_assignment ends toks e :
  parses_as ends parse_assignment_expr toks e ->
  parses_as ends parse_expr toks e.
Proof.
  intros He t rest Ht. destruct (He t rest Ht) as [_ [n Hn]].
  run_with n. apply Hn. lia.
Qed.

(** ** Atoms as operands *)

(** Settles a statement about every element of a list given in full, with
    [tac] for each element. *)
Ltac for_each tac :=
  unfold operations, operands, accesses, entries;
  repeat first [ apply Forall_nil
               | apply Forall_cons; [cbv beta iota; tac |] ].

Lemma identifier_is_member name :
  parses_as ends_member parse_member_expr [t_id name] (Identifier name).
Proof.
  intros [ty v] rest Ht. destruct ty; try discriminate Ht; by_run 5.
Qed.

Lemma number_is_member text :
  parses_as ends_member parse_member_expr [t_num text] (num text).
Proof.
  intros [ty v] rest Ht. destruct ty; try discriminate Ht; by_run 5.
Qed.

Lemma product_of_call_member toks e :
  parses_as ends_call parse_call_member_expr toks e ->
  parses_as ends_product parse_multiplicitave_expr toks e.
Proof.
  intro H. pose proof (product_reads toks e [] H (Forall_nil _)) as H'.
  simpl in H'. rewrite app_nil_r in H'. exact H'.
Qed.

Lemma sum_of_product toks e :
  parses_as ends_product parse_multiplicitave_expr toks e ->
  parses_as ends_sum parse_additive_expr toks e.
Proof.
  intro H. pose proof (sum_reads toks e [] H (Forall_nil _)) as H'.
  simpl in H'. rewrite app_nil_r in H'. exact H'.
Qed.

Lemma object_of_member toks e :
  parses_as ends_member parse_member_expr toks e ->
  parses_as ends_sum parse_object_expr toks e.
Proof.
  intro H. apply object_of_additive, sum_of_product, product_of_call_member,
    call_member_of_member. exact H.
Qed.

Lemma expr_of_member toks e :
  parses_as ends_member parse_member_expr toks e ->
  parses_as ends_expr parse_expr toks e.
Proof.
  intro H. apply expr_of_assignment, assignment_of_object, object_of_member.
  exact H.
Qed.

Lemma assignment_of_member toks e :
  parses_as ends_member parse_member_expr toks e ->
  parses_as ends_expr parse_assignment_expr toks e.
Proof.
  intro H. apply assignment_of_object, object_of_member. exact H.
Qed.

(** ** Products, sums and assignments *)

(** X12: a product nests to the left.  An operand followed by any number of
    operators among [/], [*] and [%], each with its operand, is read by
    [parse_multiplicitave_expr] as the [BinaryExpr] of all that precedes the
    last operator and of the last operand. *)
Theorem X12_product_nests_left toks e more :
  parses_as ends_call parse_call_member_expr toks e ->
  operations is_multiplicative ends_call parse_call_member_expr more ->
  parses_as ends_product parse_multiplicitave_expr
    (toks ++ chain_tokens more) (chain_expr e more).
Proof. apply product_reads. Qed.

(** X12 at [2 * 3 / 4]. *)
Lemma X12_product_nests_left_witness :
  parses_as ends_product parse_multiplicitave_expr
    [t_num "2"; t_op "*"; t_num "3"; t_op "/"; t_num "4"]
    (BinaryExpr (BinaryExpr (num "2") (num "3") "*") (num "4") "/").
Proof.
  refine (X12_product_nests_left
            [t_num "2"] (num "2")
            [("*", [t_num "3"], num "3"); ("/", [t_num "4"], num "4")] _ _).
  - apply call_member_of_member, number_is_member.
  - for_each ltac:(split;
                   [reflexivity
                   | apply call_member_of_member, number_is_member]).
Defined.

(** X13: a sum nests to the left, and its operands are products.  An operand
    followed by any number of operators among [+] and [-], each with its
    operand, is read by [parse_additive_expr] as the [BinaryExpr] of all that
    precedes the last operator and of the last operand, the operands being
    read by [parse_multiplicitave_expr]. *)
Theorem X13_sum_nests_left toks e more :
  parses_as ends_product parse_multiplicitave_expr toks e ->
  operations is_additive ends_product parse_multiplicitave_expr more ->
  parses_as ends_sum parse_additive_expr
    (toks ++ chain_tokens more) (chain_expr e more).
Proof. apply sum_reads. Qed.

(** X13 at [1 + 2 * 3 - 4]. *)
Lemma X13_sum_nests_left_witness :
  parses_as ends_sum parse_additive_expr
    [t_num "1"; t_op "+"; t_num "2"; t_op "*"; t_num "3"; t_op "-";
     t_num "4"]
    (BinaryExpr
       (BinaryExpr (num "1") (BinaryExpr (num "2") (num "3") "*") "+")
       (num "4") "-").
Proof.
  refine (X13_sum_nests_left [t_num "1"] (num "1")
            [("+", [t_num "2"; t_op "*"; t_num "3"],
              BinaryExpr (num "2") (num "3") "*");
             ("-", [t_num "4"], num "4")] _ _).
  - apply product_of_call_member, call_member_of_member, number_is_member.
  - for_each ltac:(split; [reflexivity |]).
    + refine (product_reads [t_num "2"] (num "2") [("*", [t_num "3"], num "3")]
                _ _).
      * apply call_member_of_member, number_is_member.
      * for_each ltac:(split;
                       [reflexivity
                       | apply call_member_of_member, number_is_member]).
    + apply product_of_call_member, call_member_of_member, number_is_member.
Defined.

(** X14: an assignment nests to the right.  Any number of targets, each
    followed by [=], and then a value are read by [parse_assignment_expr] as
    the [AssignmentExpr] of the first target and of the assignment that
    follows it. *)
Theorem X14_assignment_nests_right targets vtoks v :
  Forall (fun '(toks, e) => parses_as ends_sum parse_object_expr toks e)
    targets ->
  parses_as ends_sum parse_object_expr vtoks v ->
  parses_as ends_expr parse_assignment_expr
    (assignment_tokens targets vtoks) (assignment_expr targets v).
Proof.
  intros Htargets Hv. unfold assignment_tokens.
  induction targets as [| [toks e] targets IH]; simpl.
  - apply assignment_of_object. exact Hv.
  - apply Forall_cons_iff in Htargets. destruct Htargets as [He Htargets].
    specialize (IH Htargets). intros t rest Ht.
    destruct (IH t rest Ht) as [_ [n2 H2]].
    repeat rewrite <- app_assoc. simpl.
    destruct (He t_eq
                ((flat_map (fun '(toks0, _) => toks0 ++ [t_eq]) targets
                  ++ vtoks) ++ t :: rest)%list eq_refl) as [_ [n1 H1]].
    run_with (n1 + n2). rewrite <- app_assoc in H1. feed H1.
    rewrite <- app_assoc in H2. feed H2. reflexivity.
Qed.

(** X14 at [a = b = 1]. *)
Lemma X14_assignment_nests_right_witness :
  parses_as ends_expr parse_assignment_expr
    [t_id "a"; t_eq; t_id "b"; t_eq; t_num "1"]
    (AssignmentExpr (Identifier "a")
       (AssignmentExpr (Identifier "b") (num "1"))).
Proof.
  refine (X14_assignment_nests_right
            [([t_id "a"], Identifier "a"); ([t_id "b"], Identifier "b")]
            [t_num "1"] (num "1") _ _).
  - for_each ltac:(apply object_of_member, identifier_is_member).
  - apply object_of_member, number_is_member.
Defined.

(** ** Member accesses *)

Lemma primary_identifier name :
  reads parse_primary_expr [t_id name] (Identifier name).
Proof. intro rest. by_run 1. Qed.

Lemma primary_number text :
  reads parse_primary_expr [t_num text] (num text).
Proof. intro rest. by_run 1. Qed.

Lemma primary_string text :
  reads parse_primary_expr [tok TString text] (StringLiteral text).
Proof. intro rest. by_run 1. Qed.

Lemma ends_expr_rbracket : ends_expr t_rbracket = true.
Proof. reflexivity. Qed.

Lemma member_loop_accesses l : forall object t rest,
  accesses l -> ends_member t = true ->
  yields (fun n => parse_member_loop n object)
    (flat_map access_tokens l ++ t :: rest)%list
    (Ok (fold_left access_expr l object) (t :: rest)).
Proof.
  induction l as [| a l IH]; intros object t rest Hl Ht.
  - simpl. unfold ends_member in Ht. apply andb_prop in Ht.
    destruct Ht as [Hdot Hbracket].
    apply negb_true_iff in Hdot. apply negb_true_iff in Hbracket.
    run_with 0. rewrite Hdot, Hbracket. reflexivity.
  - apply Forall_cons_iff in Hl. destruct Hl as [Ha Hl].
    destruct (IH (access_expr object a) t rest Hl Ht) as [_ [n2 H2]].
    destruct a as [name | toks e]; simpl.
    + destruct (primary_identifier name
                  (flat_map access_tokens l ++ t :: rest)%list)
        as [_ [n1 H1]].
      simpl in H1. run_with (n1 + n2). feed H1. apply H2. lia.
    + destruct (Ha t_rbracket
                  (flat_map access_tokens l ++ t :: rest)%list
                  ends_expr_rbracket) as [_ [n1 H1]].
      repeat (rewrite <- app_assoc; simpl).
      run_with (n1 + n2). feed H1. apply H2. lia.
Qed.

(** X15: member accesses nest to the left.  A primary expression followed by
    any number of accesses [.name] and [[index]] is read by
    [parse_member_expr] as the [MemberExpr] of all that precedes the last
    access; a dot access has [computed = false] and an [Identifier] as
    property, a bracket access has [computed = true] and the index as
    property. *)
Theorem X15_accesses_nest_left toks object l :
  reads parse_primary_expr toks object ->
  accesses l ->
  parses_as ends_member parse_member_expr
    (toks ++ flat_map access_tokens l) (fold_left access_expr l object).
Proof.
  intros Hobject Hl t rest Ht. rewrite <- app_assoc.
  destruct (Hobject (flat_map access_tokens l ++ t :: rest)%list)
    as [_ [n1 H1]].
  destruct (member_loop_accesses l object t rest Hl Ht) as [_ [n2 H2]].
  run_with (n1 + n2). feed H1. apply H2. lia.
Qed.

(** X15 at [a.b[1].c]. *)
Lemma X15_accesses_nest_left_witness :
  parses_as ends_member parse_member_expr
    [t_id "a"; t_dot; t_id "b"; t_lbracket; t_num "1"; t_rbracket;
     t_dot; t_id "c"]
    (MemberExpr
       (MemberExpr (MemberExpr (Identifier "a") (Identifier "b") false)
          (num "1") true)
       (Identifier "c") false).
Proof.
  refine (X15_accesses_nest_left
            [t_id "a"] (Identifier "a")
            [Field "b"; Index [t_num "1"] (num "1"); Field "c"]
            (primary_identifier "a") _).
  for_each ltac:(first [exact I | apply expr_of_member, number_is_member]).
Defined.

(** ** Parentheses *)

(** X16: a parenthesised expression is the expression itself: the
    parentheses leave no node.  With [==] or [!=] and a second expression
    inside the parentheses the result is the [EqualityExpr] of the two, with
    the type of the operator token.  Any other token after the expression is
    rejected by the [expect] of the closing parenthesis. *)
Theorem X16_parentheses :
  (forall toks e,
      parses_as ends_expr parse_expr toks e ->
      reads parse_primary_expr (t_lparen :: toks ++ [t_rparen]) e)
  /\ (forall ltoks l op rtoks r,
        type op = TDoubleEquals \/ type op = TNotEquals ->
        ends_expr op = true ->
        parses_as ends_expr parse_expr ltoks l ->
        parses_as ends_expr parse_expr rtoks r ->
        reads parse_primary_expr
          (t_lparen :: ltoks ++ op :: rtoks ++ [t_rparen])
          (EqualityExpr l (type op) r))
  /\ (forall toks e t rest,
        yields parse_expr toks (Ok e (t :: rest)) ->
        type t <> TDoubleEquals -> type t <> TNotEquals ->
        type t <> TCloseParen ->
        yields parse_primary_expr (t_lparen :: toks)
          (Halt (ExpectError msg_close_paren (Some t) TCloseParen))).
Proof.
  split_all.
  - intros toks e He rest.
    destruct (He t_rparen rest eq_refl) as [_ [n Hn]].
    simpl. rewrite <- app_assoc. simpl.
    run_with n. feed Hn. reflexivity.
  - intros ltoks l op rtoks r Hop Hends Hl Hr rest.
    destruct (Hr t_rparen rest eq_refl) as [_ [n2 H2]].
    destruct (Hl op (rtoks ++ t_rparen :: rest)%list Hends) as [_ [n1 H1]].
    simpl. repeat (rewrite <- app_assoc; simpl).
    run_with (n1 + n2). feed H1.
    destruct Hop as [Hop | Hop]; rewrite Hop; simpl; feed H2;
      rewrite Hop; reflexivity.
  - intros toks e t rest [_ [n Hn]] Hdeq Hneq Hclose.
    run_with n. feed Hn.
    rewrite (TokenType_eqb_neq _ _ Hdeq), (TokenType_eqb_neq _ _ Hneq).
    simpl. rewrite (TokenType_eqb_neq _ _ Hclose). reflexivity.
Qed.

(** X16 at [(a == b)]. *)
Lemma X16_parentheses_witness :
  reads parse_primary_expr [t_lparen; t_id "a"; t_deq; t_id "b"; t_rparen]
    (EqualityExpr (Identifier "a") TDoubleEquals (Identifier "b")).
Proof.
  refine (proj1 (proj2 X16_parentheses)
            [t_id "a"] (Identifier "a") t_deq [t_id "b"] (Identifier "b")
            (or_introl eq_refl) eq_refl _ _);
    apply expr_of_member, identifier_is_member.
Defined.

(** ** Calls *)

Lemma arguments_loop_reads more : forall acc rest,
  operands ends_expr parse_assignment_expr more ->
  yields (fun n => parse_arguments_loop n acc)
    (flat_map (fun '(toks, _) => t_comma :: toks) more ++ t_rparen :: rest)%list
    (Ok (acc ++ map snd more)%list (t_rparen :: rest)).
Proof.
  induction more as [| [toks e] more IH]; intros acc rest Hmore.
  - simpl. rewrite app_nil_r. run_with 0. reflexivity.
  - apply Forall_cons_iff in Hmore. destruct Hmore as [He Hmore].
    destruct (IH (acc ++ [e])%list rest Hmore) as [_ [n2 H2]].
    assert (Hnext : exists t' rest',
               (flat_map (fun '(toks0, _) => t_comma :: toks0) more
                ++ t_rparen :: rest)%list = t' :: rest'
               /\ ends_expr t' = true).
    { destruct more as [| [toks' e'] more]; simpl; eauto. }
    destruct Hnext as (t' & rest' & E & Ht').
    simpl. rewrite <- app_assoc. rewrite E in *.
    destruct (He t' rest' Ht') as [_ [n1 H1]].
    run_with (n1 + n2). feed H1. rewrite H2 by lia.
    rewrite <- app_assoc. reflexivity.
Qed.

Lemma args_reads args :
  operands ends_expr parse_assignment_expr args ->
  reads parse_args (call_tokens args) (map snd args).
Proof.
  intros Hargs rest. unfold call_tokens.
  destruct args as [| [toks e] more]; simpl.
  - run_with 0. reflexivity.
  - apply Forall_cons_iff in Hargs. destruct Hargs as [He Hmore].
    destruct (arguments_loop_reads more [e] rest Hmore) as [_ [n2 H2]].
    assert (Hnext : exists t' rest',
               (flat_map (fun '(toks0, _) => t_comma :: toks0) more
                ++ t_rparen :: rest)%list = t' :: rest'
               /\ ends_expr t' = true).
    { destruct more as [| [toks' e'] more]; simpl; eauto. }
    destruct Hnext as (t' & rest' & E & Ht').
    repeat (rewrite <- app_assoc; simpl). rewrite E in *.
    destruct (He t' rest' Ht') as [_ [n1 H1]].
    pose proof (assignment_start _ _ _ _ (H1 n1 (le_n n1))) as Hstart.
    run_with (S (n1 + n2)).
    destruct (toks ++ t' :: rest')%list as [| t0 ts0] eqn:E0;
      [discriminate Hstart |].
    simpl in Hstart. simpl.
    assert (Hclose : TokenType_eqb (type t0) TCloseParen = false)
      by (destruct (type t0); try discriminate Hstart; reflexivity).
    rewrite Hclose. subst m. simpl. unfold_cursor.
    rewrite H1 by lia. simpl. rewrite H2 by lia. reflexivity.
Qed.

Lemma call_expr_reads calls : forall args caller t rest,
  Forall (operands ends_expr parse_assignment_expr) (args :: calls) ->
  negb (TokenType_eqb (type t) TOpenParen) = true ->
  yields (fun n => parse_call_expr n caller)
    (flat_map call_tokens (args :: calls) ++ t :: rest)%list
    (Ok (calls_expr caller (args :: calls)) (t :: rest)).
Proof.
  induction calls as [| args' calls IH]; intros args caller t rest Hcalls Ht;
    apply Forall_cons_iff in Hcalls; destruct Hcalls as [Hargs Hcalls].
  - simpl. rewrite app_nil_r.
    destruct (args_reads args Hargs (t :: rest)) as [_ [n1 H1]].
    apply negb_true_iff in Ht.
    run_with n1. feed H1. rewrite Ht. reflexivity.
  - destruct (IH args' (CallExpr caller (map snd args)) t rest Hcalls Ht)
      as [_ [n2 H2]].
    destruct (args_reads args Hargs
                (flat_map call_tokens (args' :: calls) ++ t :: rest)%list)
      as [_ [n1 H1]].
    change (flat_map call_tokens (args :: args' :: calls))
      with (call_tokens args ++ flat_map call_tokens (args' :: calls))%list.
    rewrite <- app_assoc.
    run_with (n1 + n2). feed H1.
    change (flat_map call_tokens (args' :: calls))
      with (call_tokens args' ++ flat_map call_tokens calls)%list.
    unfold call_tokens at 1. simpl.
    change (t_lparen :: (arguments_tokens args' ++ [t_rparen])
            ++ flat_map call_tokens calls ++ t :: rest)%list
      with (flat_map call_tokens (args' :: calls) ++ t :: rest)%list.
    apply H2. lia.
Qed.

(** X17: calls nest to the left.  A member expression followed by any number
    of parenthesised argument lists is read by [parse_call_member_expr] as
    the [CallExpr] of all that precedes the last list; the arguments of a
    list are read by [parse_assignment_expr] and separated by commas, and
    [()] gives no argument. *)
Theorem X17_calls_nest_left toks callee calls :
  parses_as ends_member parse_member_expr toks callee ->
  Forall (operands ends_expr parse_assignment_expr) calls ->
  parses_as ends_call parse_call_member_expr
    (toks ++ flat_map call_tokens calls) (calls_expr callee calls).
Proof.
  intros Hcallee Hcalls. destruct calls as [| args calls].
  - simpl. rewrite app_nil_r. apply call_member_of_member. exact Hcallee.
  - intros t rest Ht. rewrite <- app_assoc.
    assert (Hparen : negb (TokenType_eqb (type t) TOpenParen) = true).
    { unfold ends_call in Ht. apply andb_prop in Ht. apply Ht. }
    destruct (call_expr_reads calls args callee t rest Hcalls Hparen)
      as [_ [n2 H2]].
    destruct (Hcallee t_lparen
                (arguments_tokens args ++ [t_rparen]
                 ++ flat_map call_tokens calls ++ t :: rest)%list eq_refl)
      as [_ [n1 H1]].
    simpl in H2. unfold call_tokens in H2 at 1. simpl in H2.
    simpl. unfold call_tokens at 1. simpl.
    repeat (rewrite <- app_assoc in *; simpl in * ).
    run_with (n1 + n2). feed H1. apply H2. lia.
Qed.

(** X17 at [f(1)(a, b)()]. *)
Lemma X17_calls_nest_left_witness :
  parses_as ends_call parse_call_member_expr
    [t_id "f"; t_lparen; t_num "1"; t_rparen;
     t_lparen; t_id "a"; t_comma; t_id "b"; t_rparen; t_lparen; t_rparen]
    (CallExpr
       (CallExpr (CallExpr (Identifier "f") [num "1"])
          [Identifier "a"; Identifier "b"])
       []).
Proof.
  refine (X17_calls_nest_left [t_id "f"] (Identifier "f")
            [[([t_num "1"], num "1")];
             [([t_id "a"], Identifier "a"); ([t_id "b"], Identifier "b")];
             []]
            (identifier_is_member "f") _).
  for_each ltac:(for_each ltac:(apply assignment_of_member;
                                first [ apply number_is_member
                                      | apply identifier_is_member ])).
Defined.

(** X18: the two [expect] errors of [parse_args]: the token after the
    arguments is not [)], as when a comma is missing between two arguments;
    the buffer does not start with [(]. *)
Theorem X18_argument_errors :
  (forall ts args t rest,
      yields parse_arguments_list ts (Ok args (t :: rest)) ->
      type t <> TCloseParen ->
      yields parse_args (t_lparen :: ts)
        (Halt (ExpectError msg_args_close (Some t) TCloseParen)))
  /\ (forall t rest,
        type t <> TOpenParen ->
        yields parse_args (t :: rest)
          (Halt (ExpectError "Expected open parenthesis" (Some t) TOpenParen))).
Proof.
  split.
  - intros ts args t rest [_ [n Hn]] Ht.
    assert (Hstart : starts_expression ts = true).
    { specialize (Hn (S n) (Nat.le_succ_diag_r n)).
      simpl in Hn. exec_in Hn.
      eapply assignment_start; eassumption. }
    run_with n. destruct ts as [| t0 ts0]; [discriminate Hstart |].
    simpl in Hstart. simpl.
    assert (Hclose : TokenType_eqb (type t0) TCloseParen = false)
      by (destruct (type t0); try discriminate Hstart; reflexivity).
    rewrite Hclose. feed Hn. rewrite (TokenType_eqb_neq _ _ Ht). reflexivity.
  - intros t rest Ht. run_with 0.
    rewrite (TokenType_eqb_neq _ _ Ht). reflexivity.
Qed.

(** An argument list with a missing comma: [(1 2]. *)
Lemma X18_argument_errors_witness :
  yields parse_args [t_lparen; t_num "1"; t_num "2"; t_eof]
    (Halt (ExpectError msg_args_close (Some (t_num "2")) TCloseParen)).
Proof.
  refine (proj1 X18_argument_errors
            [t_num "1"; t_num "2"; t_eof] [num "1"] (t_num "2") [t_eof] _ _).
  - by_run 100.
  - discriminate.
Defined.

(** ** Object literals read entry by entry *)

Lemma object_loop_reads trailing l : forall acc rest,
  entries l ->
  yields (fun n => parse_object_loop n acc)
    (entries_tokens l trailing ++ t_rbrace :: rest)%list
    (Ok (acc ++ map entry_property l)%list (t_rbrace :: rest)).
Proof.
  induction l as [| p ps IH]; intros acc rest Hl.
  - simpl. rewrite app_nil_r. run_with 0. reflexivity.
  - apply Forall_cons_iff in Hl. destruct Hl as [Hp Hps].
    destruct (IH (acc ++ [entry_property p])%list rest Hps) as [_ [n2 H2']].
    assert (H2 : forall m, n2 <= m ->
              parse_object_loop m (acc ++ [entry_property p])
                (entries_tokens ps trailing ++ t_rbrace :: rest)%list
              = Ok (acc ++ map entry_property (p :: ps))%list
                  (t_rbrace :: rest)).
    { intros m Hm. rewrite H2' by exact Hm. rewrite <- app_assoc.
      reflexivity. }
    clear H2'.
    (* what follows the entry: the closing brace, or a comma and the rest *)
    assert (Hnext :
              (match ps with
               | [] => if trailing then [t_comma] else []
               | _ :: _ => t_comma :: entries_tokens ps trailing
               end ++ t_rbrace :: rest)%list
              = (entries_tokens ps trailing ++ t_rbrace :: rest)%list
              /\ ps = [] /\ trailing = false
              \/
              (match ps with
               | [] => if trailing then [t_comma] else []
               | _ :: _ => t_comma :: entries_tokens ps trailing
               end ++ t_rbrace :: rest)%list
              = (t_comma
                 :: entries_tokens ps trailing ++ t_rbrace :: rest)%list).
    { destruct ps; [destruct trailing |]; simpl; auto. }
    simpl entries_tokens. rewrite <- app_assoc.
    destruct p as [key | key toks e]; simpl entry_tokens; simpl app.
    all: rewrite <- ?app_assoc.
    + destruct Hnext as [(E & -> & ->) | E]; rewrite E; simpl.
      * run_with n2. apply H2. lia.
      * run_with n2. apply H2. lia.
    + assert (Hends : exists t' rest',
                 (match ps with
                  | [] => if trailing then [t_comma] else []
                  | _ :: _ => t_comma :: entries_tokens ps trailing
                  end ++ t_rbrace :: rest)%list = t' :: rest'
                 /\ ends_expr t' = true).
      { destruct Hnext as [(E & -> & ->) | E]; rewrite E; simpl; eauto. }
      destruct Hends as (t' & rest' & E' & Ht').
      rewrite E' in *.
      destruct (Hp t' rest' Ht') as [_ [n1 H1]].
      destruct Hnext as [(E & -> & ->) | E].
      * simpl in E. injection E as -> ->.
        run_with (n1 + n2). feed H1. apply H2. lia.
      * injection E as -> ->.
        run_with (n1 + n2). feed H1. apply H2. lia.
Qed.

(** X19: an object literal lists its entries in order.  [{], entries
    separated by commas, with or without a comma after the last one, and [}]
    are read by [parse_object_expr] as the [ObjectLiteral] with one property
    for each entry: without a value for a bare key, with the value for
    [key : value]. *)
Theorem X19_object_entries l trailing :
  entries l ->
  reads parse_object_expr
    (t_lbrace :: entries_tokens l trailing ++ [t_rbrace])
    (ObjectLiteral (map entry_property l)).
Proof.
  intros Hl rest.
  destruct (object_loop_reads trailing l [] rest Hl) as [_ [n Hn]].
  simpl. rewrite <- app_assoc. simpl.
  run_with n. feed Hn. reflexivity.
Qed.

(** An object with a bare key, a key with a value and a trailing comma:
    [{ a, b: 1, }]. *)
Lemma X19_object_entries_witness :
  reads parse_object_expr
    [t_lbrace; t_id "a"; t_comma; t_id "b"; t_colon; t_num "1"; t_comma;
     t_rbrace]
    (ObjectLiteral [mkProperty "a" None; mkProperty "b" (Some (num "1"))]).
Proof.
  refine (X19_object_entries
            [Shorthand "a"; KeyValue "b" [t_num "1"] (num "1")] true _).
  for_each ltac:(first [exact I | apply expr_of_member, number_is_member]).
Defined.

(** X20: the errors inside an object literal: where a key is expected, a
    token that is neither an identifier, nor [}], nor [EOF]; after a key, a
    token that is neither [,], nor [}], nor [:]; and [EOF] right after the
    opening brace. *)
Theorem X20_object_errors acc :
  (forall t rest,
      type t <> TEOF -> type t <> TCloseBrace -> type t <> TIdentifier ->
      yields (fun n => parse_object_loop n acc) (t :: rest)
        (Halt (ExpectError msg_object_key (Some t) TIdentifier)))
  /\ (forall key t rest,
        type t <> TComma -> type t <> TCloseBrace -> type t <> TColon ->
        yields (fun n => parse_object_loop n acc) (t_id key :: t :: rest)
          (Halt (ExpectError msg_object_colon (Some t) TColon)))
  /\ (forall t rest,
        type t = TEOF ->
        yields parse_object_expr (t_lbrace :: t :: rest)
          (Halt (ExpectError msg_object_close (Some t) TCloseBrace))).
Proof.
  split_all.
  - intros t rest Heof Hclose Hid. run_with 0.
    rewrite (TokenType_eqb_neq _ _ Heof). simpl.
    rewrite (TokenType_eqb_neq _ _ Hclose). simpl.
    rewrite (TokenType_eqb_neq _ _ Hid). reflexivity.
  - intros key t rest Hcomma Hclose Hcolon. run_with 0.
    rewrite (TokenType_eqb_neq _ _ Hcomma). simpl.
    rewrite (TokenType_eqb_neq _ _ Hclose). simpl.
    rewrite (TokenType_eqb_neq _ _ Hcolon). reflexivity.
  - intros t rest Heof. run_with 1. subst m. simpl. unfold_cursor. simpl.
    rewrite Heof. simpl. rewrite Heof. reflexivity.
Qed.

(** A key followed by a key: [a b }]. *)
Lemma X20_object_errors_witness :
  yields (fun n => parse_object_loop n [])
    [t_id "a"; t_id "b"; t_rbrace; t_eof]
    (Halt (ExpectError msg_object_colon (Some (t_id "b")) TColon)).
Proof.
  refine (proj1 (proj2 (X20_object_errors []))
            "a" (t_id "b") [t_rbrace; t_eof] _ _ _);
    discriminate.
Defined.

(** ** Errors of a member access, and the first token of an expression *)

(** X21: the two errors of a member access: a dot followed by a primary
    expression that is not an identifier is the thrown dot-operator error (a
    Syntax Error); an index that is not followed by the closing bracket is an
    [expect] error. *)
Theorem X21_access_errors object :
  (forall ts property rest,
      yields parse_primary_expr ts (Ok property rest) ->
      kind_is_Identifier property = false ->
      yields (fun n => parse_member_loop n object) (t_dot :: ts)
        (Halt DotWithoutIdentifier))
  /\ error_kind DotWithoutIdentifier = Some SyntaxError
  /\ (forall ts e t rest,
        yields parse_expr ts (Ok e (t :: rest)) ->
        type t <> TCloseBracket ->
        yields (fun n => parse_member_loop n object) (t_lbracket :: ts)
          (Halt (ExpectError msg_close_bracket (Some t) TCloseBracket))).
Proof.
  split_all; try reflexivity.
  - intros ts property rest [_ [n Hn]] Hkind.
    run_with n. feed Hn. rewrite Hkind. reflexivity.
  - intros ts e t rest [_ [n Hn]] Ht.
    run_with n. feed Hn. rewrite (TokenType_eqb_neq _ _ Ht). reflexivity.
Qed.

(** A number after a dot: [.1] after [a]. *)
Lemma X21_access_errors_witness :
  yields (fun n => parse_member_loop n (Identifier "a"))
    [t_dot; t_num "1"; t_eof] (Halt DotWithoutIdentifier).
Proof.
  refine (proj1 (X21_access_errors (Identifier "a")) _ (num "1") [t_eof] _ _).
  - by_run 100.
  - reflexivity.
Defined.

(** X22: an expression starts with an identifier, a number, a string, [(] or
    [{].  [parse_expr] returns only on such a buffer; on any other first
    token it stops reporting that token as unexpected; on the empty buffer
    it stops with the type error of reading a missing token. *)
Theorem X22_expression_starts :
  (forall n ts e ts',
      parse_expr n ts = Ok e ts' -> starts_expression ts = true)
  /\ (forall t rest,
        starts_expression (t :: rest) = false ->
        yields parse_expr (t :: rest) (Halt (UnexpectedToken (Some t))))
  /\ yields parse_expr [] (Halt TypeError).
Proof.
  split_all.
  - apply expr_start.
  - intros [ty v] rest Hstart.
    destruct ty; try discriminate Hstart; by_run 10.
  - by_run 10.
Qed.

(** An expression cannot start with [)]. *)
Lemma X22_expression_starts_witness :
  yields parse_expr [t_rparen; t_eof] (Halt (UnexpectedToken (Some t_rparen))).
Proof.
  refine (proj1 (proj2 X22_expression_starts) t_rparen [t_eof] _). reflexivity.
Defined.

(** ** The trees that are built *)

Lemma multiplicative_is_binary v :
  existsb (String.eqb v) ["/"; "*"; "%"] = true ->
  is_binary_operator v = true.
Proof.
  unfold is_binary_operator. simpl. intro H.
  destruct (v =? "+"); [reflexivity |].
  destruct (v =? "-"); [reflexivity |]. exact H.
Qed.

(** Brings the tests of a run into the form in which [well_formed] uses
    them. *)
Ltac normalize_tests :=
  repeat match goal with
    | E : (_ =? _)%string = true |- _ => apply String.eqb_eq in E
    | E : negb _ = false |- _ => apply negb_false_iff in E
    | E : existsb (String.eqb _) _ = true |- _ =>
        apply multiplicative_is_binary in E
    | E : (_ =? _)%string || _ = true |- _ =>
        apply multiplicative_is_binary in E
    end.

(** Closes a goal [well_formed _ = true] or [forallb _ _ = true] from the
    facts at hand. *)
Ltac well_formed_now :=
  try assumption;
  simpl; rewrite ?forallb_app; simpl;
  repeat match goal with
    | E : _ = true |- _ => rewrite E
    | E : value _ = _ |- _ => rewrite E
    end;
  simpl; rewrite ?orb_true_r; reflexivity.

Ltac use_well_formed :=
  repeat match goal with
    | IH : returns ?p _, H : ?p _ = Ok _ _ |- _ =>
        apply IH in H; cbv beta in H
    | IH : forall x, _ -> returns (?f ?n x) _, H : ?f ?n ?a _ = Ok _ _ |- _ =>
        apply IH in H; cbv beta in H; [ | well_formed_now ]
    end.

(** Introduces what a loop is given, up to [returns]. *)
Ltac intro_given :=
  lazymatch goal with
  | |- returns _ _ => idtac
  | |- forall _ : _, _ => let x := fresh "given" in intro x; intro_given
  end.

Ltac well_formed_auto H :=
  simpl in H; exec_in H; try (injection H as <- <-);
  normalize_tests; use_well_formed; well_formed_now.

Lemma expr_well_formed_all n : expr_well_formed n.
Proof.
  induction n as [| n IH].
  - constructor; intro_given; intros ts r ts' H; discriminate H.
  - destruct IH.
    constructor; intro_given; intros ts r ts' H; well_formed_auto H.
Qed.

Lemma var_declaration_well_formed n :
  returns (parse_var_declaration n) (fun s => well_formed_stmt s = true).
Proof.
  destruct n as [| n]; intros ts r ts' H; [discriminate H |].
  destruct (expr_well_formed_all n). well_formed_auto H.
Qed.

Lemma stmt_well_formed_all n : stmt_well_formed n.
Proof.
  induction n as [| n IH].
  - constructor; intro_given; intros ts r ts' H; discriminate H.
  - destruct IH. destruct (expr_well_formed_all n).
    pose proof (var_declaration_well_formed n) as Hvar.
    constructor; intro_given; intros ts r ts' H; well_formed_auto H.
Qed.

Lemma produceAST_loop_well_formed n : forall b,
  forallb well_formed_stmt b = true ->
  returns (produceAST_loop n b) (fun l => forallb well_formed_stmt l = true).
Proof.
  induction n as [| n IH]; intros b Hb ts r ts' H; [discriminate H |].
  destruct (stmt_well_formed_all n). well_formed_auto H.
Qed.

(** X23: every tree that [parse_expr] returns is well formed at every depth:
    the operator of a [BinaryExpr] is one of [+ - / * %], the operator of an
    [EqualityExpr] is [==] or [!=], the property of a [MemberExpr] that is not
    computed is an [Identifier], and the empty object that [parse_if_stmt]
    puts in [right] occurs nowhere. *)
Theorem X23_expressions_well_formed n ts e ts' :
  parse_expr n ts = Ok e ts' -> well_formed e = true.
Proof. apply (w_expr _ (expr_well_formed_all n)). Qed.

(** The tree of [1 + 2 * 3]. *)
Lemma X23_expressions_well_formed_witness :
  well_formed
    (BinaryExpr (num "1") (BinaryExpr (num "2") (num "3") "*") "+") = true.
Proof.
  refine (X23_expressions_well_formed 100 src_sum_product _ [t_eof] _).
  vm_compute. reflexivity.
Defined.

(** X24: in every program that the parse returns, at any depth of function
    bodies and of [if] blocks, a declaration without a value is not
    constant, and every expression is well formed. *)
Theorem X24_programs_well_formed n ts p ts' :
  parse_tokens n ts = Ok p ts' -> forallb well_formed_stmt (body p) = true.
Proof.
  intro H. unfold parse_tokens in H. exec_in H. injection H as <- <-.
  simpl. eapply produceAST_loop_well_formed; [| eassumption]. reflexivity.
Qed.

(** The program of [if (a != b) { if c { } } else if d { } else { y }]. *)
Lemma X24_programs_well_formed_witness :
  forallb well_formed_stmt (body (mkProgram [ast_if_chain])) = true.
Proof.
  refine (X24_programs_well_formed
            100 src_if_chain (mkProgram [ast_if_chain]) [t_eof] _).
  vm_compute. reflexivity.
Defined.

(** ** A buffer without its end-of-file token *)

Lemma member_loop_at_end object :
  yields (fun n => parse_member_loop n object) [] (Halt TypeError).
Proof. by_run 1. Qed.

(** An error of the first operand is the error of the expression. *)
Lemma member_error_is_expr_error ts e :
  starts_operand ts = true ->
  yields parse_member_expr ts (Halt e) ->
  yields parse_expr ts (Halt e).
Proof.
  intros Hstart [_ [n Hn]].
  apply yields_run with (n + 6); [solve_monotone | | discriminate].
  replace (n + 6) with (S (S (S (S (S (S n)))))) by lia.
  destruct ts as [| t ts]; [discriminate Hstart |].
  simpl in Hstart.
  assert (Hbrace : TokenType_eqb (type t) TOpenBrace = false)
    by (destruct (type t); try discriminate Hstart; reflexivity).
  remember n as m eqn:Em. simpl. unfold_cursor. simpl.
  rewrite Hbrace. simpl. rewrite Hn by lia. reflexivity.
Qed.

Lemma expr_error_is_program_error ts e :
  starts_operand ts = true ->
  yields parse_expr ts (Halt e) ->
  yields parse_tokens ts (Halt e).
Proof.
  intros Hstart [_ [n Hn]].
  apply yields_run with (S (S n)); [solve_monotone | | discriminate].
  destruct ts as [| [ty v] ts]; [discriminate Hstart |].
  simpl in Hstart. unfold parse_tokens.
  remember n as m eqn:Em.
  destruct ty; try discriminate Hstart; simpl; unfold_cursor; simpl;
    rewrite Hn by lia; reflexivity.
Qed.

(** X25: the parser relies on the [EOF] token that ends the buffer.  On the
    empty buffer, and on a buffer that is one primary expression with
    nothing after it, the parse stops with the type error of reading the
    type of a missing token, which is neither of the two error kinds. *)
Theorem X25_missing_EOF_crashes :
  yields parse_tokens [] (Halt TypeError)
  /\ (forall toks e,
        reads parse_primary_expr toks e ->
        yields parse_expr toks (Halt TypeError)
        /\ yields parse_tokens toks (Halt TypeError))
  /\ error_kind TypeError = None.
Proof.
  split_all; try reflexivity.
  - by_run 1.
  - intros toks e Hreads.
    pose proof (Hreads []) as Hprimary. rewrite app_nil_r in Hprimary.
    destruct Hprimary as [_ [n1 H1]].
    pose proof (primary_starts_operand _ _ _ _ (H1 n1 (le_n n1))) as Hstart.
    assert (Hexpr : yields parse_expr toks (Halt TypeError)).
    { apply member_error_is_expr_error; [exact Hstart |].
      destruct (member_loop_at_end e) as [_ [n2 H2]].
      run_with (n1 + n2). feed H1. rewrite H2 by lia. reflexivity. }
    split; [exact Hexpr |].
    apply expr_error_is_program_error; assumption.
Qed.

(** The buffer [a], without [EOF]. *)
Lemma X25_missing_EOF_crashes_witness :
  yields parse_expr [t_id "a"] (Halt TypeError)
  /\ yields parse_tokens [t_id "a"] (Halt TypeError).
Proof.
  refine (proj1 (proj2 X25_missing_EOF_crashes) [t_id "a"] (Identifier "a")
            (primary_identifier "a")).
Defined.

(** * Expressions inside statements and programs *)

(** ** The depth of parentheses *)

Lemma depth_after_app d c1 c2 :
  depth_after d (c1 ++ c2)
  = match depth_after d c1 with
    | Some d' => depth_after d' c2
    | None => None
    end.
Proof.
  revert d. induction c1 as [| t c1 IH]; intro d; simpl; [reflexivity |].
  destruct (depth_step d t); [apply IH | reflexivity].
Qed.

Lemma scans_refl d ts : scans d ts d ts.
Proof. exists []. split; reflexivity. Qed.

Lemma scans_step d d1 d' t ts ts' :
  (operator_text_is_operator t = true -> depth_step d t = Some d1) ->
  scans d1 ts d' ts' -> scans d (t :: ts) d' ts'.
Proof.
  intros Ht (c & E & Hc). exists (t :: c). split.
  - rewrite E. reflexivity.
  - simpl. intro H. apply andb_prop in H. destruct H as [H1 H2].
    rewrite (Ht H1). exact (Hc H2).
Qed.

Lemma scans_trans d ts d1 ts1 d2 ts2 :
  scans d ts d1 ts1 -> scans d1 ts1 d2 ts2 -> scans d ts d2 ts2.
Proof.
  intros (c & E & Hc) (c' & E' & Hc'). exists (c ++ c')%list. split.
  - rewrite E, E', app_assoc. reflexivity.
  - rewrite forallb_app. intro H. apply andb_prop in H. destruct H as [H1 H2].
    rewrite depth_after_app, (Hc H1). exact (Hc' H2).
Qed.

Lemma operator_step d t :
  operator_text_is_operator t = true ->
  is_binary_operator (value t) = true ->
  depth_step d t = Some d.
Proof.
  unfold operator_text_is_operator, depth_step. intros H Hv.
  rewrite Hv in H. simpl in H. destruct (type t); try reflexivity;
    discriminate H.
Qed.

(** The depth after one consumed token, from what the run tested of it. *)
Ltac token_step :=
  let Hs := fresh "Hs" in
  intro Hs;
  first
    [ match goal with
      | E : type ?t = _ |- depth_step _ ?t = _ =>
          unfold depth_step; rewrite E; reflexivity
      end
    | apply operator_step; [exact Hs |];
      match goal with
      | E : (value ?t =? _) = true |- is_binary_operator (value ?t) = true =>
          apply String.eqb_eq in E; rewrite E; reflexivity
      end ].

(** Brings what a run tested of the token types into equations. *)
Ltac type_facts :=
  repeat match goal with
    | E : false = true |- _ => discriminate E
    | E : TokenType_eqb _ _ = true |- _ => apply TokenType_eqb_eq in E
    | E : negb _ = false |- _ => apply negb_false_iff in E
    | E : _ || _ = true |- _ => apply orb_prop in E; destruct E
    end.

Ltac use_enclosing :=
  repeat match goal with
    | H : check_params _ _ _ = Ok _ _ |- _ =>
        apply check_params_keeps_buffer in H; subst
    | IH : forall ts a ts', ?p ts = Ok a ts' -> enclosing ts ts',
      H : ?p _ = Ok _ _ |- _ => apply IH in H
    | IH : forall x ts a ts', ?f ?n x ts = Ok a ts' -> enclosing ts ts',
      H : ?f ?n _ _ = Ok _ _ |- _ => apply IH in H
    | IH : forall t ts a ts', ?f ?n (t :: ts) = Ok a ts' -> enclosing ts ts',
      H : ?f ?n (_ :: _) = Ok _ _ |- _ => apply IH in H
    end.

Ltac link_scans :=
  solve [ apply scans_refl
        | match goal with
          | H : enclosing ?a ?b |- scans ?d ?a _ _ =>
              apply (scans_trans d a d b _ _ (H d)); clear H; link_scans
          end
        | eapply scans_step; [token_step | link_scans] ].

Ltac enclosing_auto H :=
  simpl in H; exec_in H; try (injection H as <- <-);
  use_enclosing; type_facts;
  let d := fresh "d" in intro d; link_scans.

Lemma expr_equality_enclosed n : on_expressions (equality_enclosed n).
Proof.
  induction n as [| n IH].
  - constructor; intros; intros ts r ts' H; discriminate H.
  - destruct IH. constructor; intros;
      cbv beta iota delta [equality_enclosed] in *;
      intros ts r ts' H; enclosing_auto H.
Qed.

Lemma var_declaration_equality_enclosed n t ts a ts' :
  parse_var_declaration n (t :: ts) = Ok a ts' -> enclosing ts ts'.
Proof.
  destruct n as [| n]; intro H; [discriminate H |].
  destruct (expr_equality_enclosed n).
  cbv beta iota delta [equality_enclosed] in *.
  enclosing_auto H.
Qed.

Lemma stmt_equality_enclosed_all n : stmt_equality_enclosed n.
Proof.
  induction n as [| n IH].
  - constructor; intros; discriminate.
  - destruct IH. destruct (expr_equality_enclosed n).
    cbv beta iota delta [equality_enclosed] in *.
    pose proof (var_declaration_equality_enclosed n) as Hvar.
    constructor; intros until ts'; intro H; enclosing_auto H.
Qed.

Lemma produceAST_loop_equality_enclosed n : forall b ts r ts',
  produceAST_loop n b ts = Ok r ts' -> enclosing ts ts'.
Proof.
  induction n as [| n IH]; intros b ts r ts' H; [discriminate H |].
  destruct (stmt_equality_enclosed_all n).
  enclosing_auto H.
Qed.

Lemma parse_tokens_equality_enclosed n ts p ts' :
  parse_tokens n ts = Ok p ts' -> enclosing ts ts'.
Proof.
  intro H. unfold parse_tokens in H. exec_in H.
  injection H as _ <-. eapply produceAST_loop_equality_enclosed; eassumption.
Qed.

(** ** From an operand to a program

    What each function of the ladder does when the function below it has
    returned and the token that follows is not one it consumes. *)

Lemma binary_operator_split v :
  is_binary_operator v = false ->
  is_multiplicative v = false /\ is_additive v = false.
Proof.
  unfold is_binary_operator, is_multiplicative, is_additive. simpl.
  destruct (v =? "+"); [discriminate |].
  destruct (v =? "-"); [discriminate |].
  intro H. split; [exact H | reflexivity].
Qed.

Lemma multiplicitave_loop_passes left t rest :
  is_multiplicative (value t) = false ->
  yields (fun n => parse_multiplicitave_loop n left) (t :: rest)
    (Ok left (t :: rest)).
Proof.
  intro Ht. unfold is_multiplicative in Ht. simpl in Ht.
  run_with 0. rewrite Ht. reflexivity.
Qed.

Lemma additive_loop_passes left t rest :
  is_additive (value t) = false ->
  yields (fun n => parse_additive_loop n left) (t :: rest)
    (Ok left (t :: rest)).
Proof.
  intro Ht. unfold is_additive in Ht. apply orb_false_iff in Ht.
  destruct Ht as [Hplus Hminus].
  run_with 0. rewrite Hplus, Hminus. reflexivity.
Qed.

Lemma multiplicitave_of_call_member ts e t rest :
  yields parse_call_member_expr ts (Ok e (t :: rest)) ->
  is_multiplicative (value t) = false ->
  yields parse_multiplicitave_expr ts (Ok e (t :: rest)).
Proof.
  intros [_ [n1 H1]] Ht.
  destruct (multiplicitave_loop_passes e t rest Ht) as [_ [n2 H2]].
  run_with (n1 + n2). feed H1. apply H2. lia.
Qed.

Lemma additive_of_multiplicitave ts e t rest :
  yields parse_multiplicitave_expr ts (Ok e (t :: rest)) ->
  is_additive (value t) = false ->
  yields parse_additive_expr ts (Ok e (t :: rest)).
Proof.
  intros [_ [n1 H1]] Ht.
  destruct (additive_loop_passes e t rest Ht) as [_ [n2 H2]].
  run_with (n1 + n2). feed H1. apply H2. lia.
Qed.

Lemma object_of_additive_run ts e ts' :
  yields parse_additive_expr ts (Ok e ts') ->
  yields parse_object_expr ts (Ok e ts').
Proof.
  intros [_ [n Hn]].
  pose proof (additive_starts_operand _ _ _ _ (Hn n (le_n n))) as Hstart.
  run_with n.
  destruct ts as [| t0 ts0]; [discriminate Hstart |].
  simpl in Hstart. simpl.
  destruct (type t0); try discriminate Hstart; simpl; apply Hn; lia.
Qed.

Lemma assignment_of_object_run ts e t rest :
  yields parse_object_expr ts (Ok e (t :: rest)) ->
  type t <> TEquals ->
  yields parse_assignment_expr ts (Ok e (t :: rest)).
Proof.
  intros [_ [n Hn]] Ht.
  run_with n. feed Hn. rewrite (TokenType_eqb_neq _ _ Ht). reflexivity.
Qed.

Lemma expr_of_assignment_run ts (r : Outcome Expr) :
  yields parse_assignment_expr ts r -> yields parse_expr ts r.
Proof.
  intros [Hr [n Hn]].
  apply yields_run with (S n); [solve_monotone | | exact Hr].
  apply Hn. lia.
Qed.

Lemma assignment_of_expr_run ts (r : Outcome Expr) :
  yields parse_expr ts r -> yields parse_assignment_expr ts r.
Proof.
  intros [Hr [n Hn]].
  apply yields_run with n; [solve_monotone | | exact Hr].
  specialize (Hn (S n) (Nat.le_succ_diag_r n)). exact Hn.
Qed.

(** A call or member expression followed by a token that is no arithmetic
    operator and no [=] is an expression. *)
Lemma expr_of_call_member ts e t rest :
  yields parse_call_member_expr ts (Ok e (t :: rest)) ->
  is_binary_operator (value t) = false ->
  type t <> TEquals ->
  yields parse_expr ts (Ok e (t :: rest)).
Proof.
  intros H Hv Ht. destruct (binary_operator_split _ Hv) as [Hm Ha].
  apply expr_of_assignment_run, assignment_of_object_run; [| exact Ht].
  apply object_of_additive_run, additive_of_multiplicitave; [| exact Ha].
  apply multiplicitave_of_call_member; assumption.
Qed.

Lemma stmt_of_expr ts e rest :
  yields parse_expr ts (Ok e rest) ->
  yields parse_stmt ts (Ok (ExprStmt e) rest).
Proof.
  intros [_ [n Hn]].
  pose proof (Hn n (le_n n)) as He.
  pose proof (expr_start _ _ _ _ He) as Hs.
  apply yields_run with (S n); [solve_monotone | | discriminate].
  destruct ts as [| t ts]; [discriminate Hs |].
  simpl in Hs. simpl. unfold_cursor.
  destruct (type t); try discriminate Hs; rewrite He; reflexivity.
Qed.

Lemma stmt_not_at_EOF ts s ts1 :
  yields parse_stmt ts (Ok s ts1) -> starts_with_EOF ts = false.
Proof.
  intro H. destruct ts as [| [ty v] ts]; [reflexivity |].
  destruct ty; try reflexivity.
  assert (H' : yields parse_stmt (tok TEOF v :: ts)
                 (Halt (UnexpectedToken (Some (tok TEOF v)))))
    by by_run 20.
  pose proof (yields_unique _ _ _ _ H H') as E. discriminate E.
Qed.

(** The program of a buffer is the first statement followed by the program
    of what the statement left. *)
Lemma program_of_statement ts s ts1 stmts ts2 :
  yields parse_stmt ts (Ok s ts1) ->
  yields parse_tokens ts1 (Ok (mkProgram stmts) ts2) ->
  yields parse_tokens ts (Ok (mkProgram (s :: stmts)) ts2).
Proof.
  intros Hs [_ [n2 H2]]. pose proof (stmt_not_at_EOF _ _ _ Hs) as Hts.
  destruct Hs as [_ [n1 H1]].
  apply yields_run with (S (n1 + n2)); [solve_monotone | | discriminate].
  unfold parse_tokens. simpl. unfold_cursor.
  destruct ts as [| t ts].
  { specialize (H1 (S n1) (Nat.le_succ_diag_r n1)). discriminate H1. }
  simpl in Hts. simpl. rewrite Hts. simpl.
  rewrite H1 by lia. rewrite produceAST_loop_body, parse_tokens_loop.
  rewrite H2 by lia. reflexivity.
Qed.

Lemma program_at_EOF t rest :
  type t = TEOF ->
  yields parse_tokens (t :: rest) (Ok (mkProgram []) (t :: rest)).
Proof.
  intro Ht. apply yields_run with 1; [solve_monotone | | discriminate].
  unfold parse_tokens. simpl. unfold_cursor. simpl. rewrite Ht. reflexivity.
Qed.

(** An error after the first statement is the error of the program. *)
Lemma program_halts_later ts s ts1 e :
  yields parse_stmt ts (Ok s ts1) ->
  yields parse_tokens ts1 (Halt e) ->
  yields parse_tokens ts (Halt e).
Proof.
  intros Hs [_ [n2 H2]]. pose proof (stmt_not_at_EOF _ _ _ Hs) as Hts.
  destruct Hs as [_ [n1 H1]].
  apply yields_run with (S (n1 + n2)); [solve_monotone | | discriminate].
  unfold parse_tokens. simpl. unfold_cursor.
  destruct ts as [| t ts].
  { specialize (H1 (S n1) (Nat.le_succ_diag_r n1)). discriminate H1. }
  simpl in Hts. simpl. rewrite Hts. simpl.
  rewrite H1 by lia. rewrite produceAST_loop_body, parse_tokens_loop.
  rewrite H2 by lia. reflexivity.
Qed.

(** A token that starts no statement, where a statement is expected. *)
Lemma stray_token_halts t rest :
  starts_statement (t :: rest) = false -> type t <> TEOF ->
  yields parse_tokens (t :: rest) (Halt (UnexpectedToken (Some t))).
Proof.
  destruct t as [ty v]. intros Hs Ht.
  destruct ty; try discriminate Hs; try (contradiction Ht; reflexivity);
    by_run 20.
Qed.

(** The program of one expression. *)
Lemma program_of_expr ts e t rest :
  yields parse_expr ts (Ok e (t :: rest)) -> type t = TEOF ->
  yields parse_tokens ts (Ok (mkProgram [ExprStmt e]) (t :: rest)).
Proof.
  intros He Ht. eapply program_of_statement.
  - apply stmt_of_expr. exact He.
  - apply program_at_EOF. exact Ht.
Qed.

(** An expression followed by a token that starts no statement. *)
Lemma program_halts_after_expr ts e t rest :
  yields parse_expr ts (Ok e (t :: rest)) ->
  starts_statement (t :: rest) = false -> type t <> TEOF ->
  yields parse_tokens ts (Halt (UnexpectedToken (Some t))).
Proof.
  intros He Hs Ht. eapply program_halts_later.
  - apply stmt_of_expr. exact He.
  - apply stray_token_halts; assumption.
Qed.

(** ** After a call *)

(** A member expression followed by one or more argument lists, in front of
    any token that is not an open parenthesis. *)
Lemma call_member_reads_calls toks callee args calls t rest :
  parses_as ends_member parse_member_expr toks callee ->
  Forall (operands ends_expr parse_assignment_expr) (args :: calls) ->
  type t <> TOpenParen ->
  yields parse_call_member_expr
    (toks ++ flat_map call_tokens (args :: calls) ++ t :: rest)%list
    (Ok (calls_expr callee (args :: calls)) (t :: rest)).
Proof.
  intros Hcallee Hcalls Ht.
  assert (Hparen : negb (TokenType_eqb (type t) TOpenParen) = true)
    by (rewrite (TokenType_eqb_neq _ _ Ht); reflexivity).
  destruct (call_expr_reads calls args callee t rest Hcalls Hparen)
    as [_ [n2 H2]].
  destruct (Hcallee t_lparen
              (arguments_tokens args ++ [t_rparen]
               ++ flat_map call_tokens calls ++ t :: rest)%list eq_refl)
    as [_ [n1 H1]].
  simpl in H2. unfold call_tokens in H2 at 1. simpl in H2.
  simpl. unfold call_tokens at 1. simpl.
  repeat (rewrite <- app_assoc in *; simpl in * ).
  run_with (n1 + n2). feed H1. apply H2. lia.
Qed.

Lemma calls_expr_is_call callee args calls :
  is_CallExpr (calls_expr callee (args :: calls)) = true.
Proof.
  unfold calls_expr. simpl.
  assert (H : is_CallExpr (CallExpr callee (map snd args)) = true)
    by reflexivity.
  revert H. generalize (CallExpr callee (map snd args)).
  induction calls as [| a calls IH]; intros c Hc; simpl; [exact Hc |].
  apply IH. reflexivity.
Qed.

(** ** Equality tokens lie inside parentheses *)

Lemma depth_at_equality c1 t c2 : forall d d',
  depth_after d (c1 ++ t :: c2) = Some d' -> is_equality_token t = true ->
  exists k, depth_after d c1 = Some (S k).
Proof.
  intros d d' H Ht. rewrite depth_after_app in H.
  destruct (depth_after d c1) as [d1 |]; [| discriminate H].
  simpl in H. unfold is_equality_token in Ht. unfold depth_step in H.
  destruct d1 as [| k]; [| exists k; reflexivity].
  apply orb_prop in Ht.
  destruct Ht as [Ht | Ht]; apply TokenType_eqb_eq in Ht; rewrite Ht in H;
    discriminate H.
Qed.

Lemma enclosing_inside_parentheses ts ts' :
  enclosing ts ts' -> inside_parentheses ts ts'.
Proof.
  intro H. destruct (H 0) as (c & E & Hc). exists c. split; [exact E |].
  intro Hlex. split; [exact (Hc Hlex) |].
  intros c1 t c2 Ec Ht. subst c.
  exact (depth_at_equality c1 t c2 0 0 (Hc Hlex) Ht).
Qed.

(** ** An equality token after an expression

    What the callers of [parse_expr] and of [parse_assignment_expr] do when
    the expression is followed by an equality token. *)

Lemma equality_token_type t :
  is_equality_token t = true ->
  type t = TDoubleEquals \/ type t = TNotEquals.
Proof.
  unfold is_equality_token. intro H. apply orb_prop in H.
  destruct H as [H | H]; apply TokenType_eqb_eq in H; auto.
Qed.

(** Runs the tests of the token type on an equality token. *)
Ltac test_equality t Ht :=
  let E := fresh "E" in
  destruct (equality_token_type t Ht) as [E | E];
  repeat (rewrite E; simpl); reflexivity.

Lemma equality_token_starts_nothing t rest :
  is_equality_token t = true ->
  starts_statement (t :: rest) = false /\ type t <> TEOF.
Proof.
  intro H. destruct (equality_token_type t H) as [E | E]; simpl; rewrite E;
    split; [reflexivity | discriminate | reflexivity | discriminate].
Qed.

Lemma arguments_loop_at_equality acc ts e t rest :
  yields parse_expr ts (Ok e (t :: rest)) ->
  is_equality_token t = true ->
  yields (fun n => parse_arguments_loop n acc) (t_comma :: ts)
    (Ok (acc ++ [e])%list (t :: rest)).
Proof.
  intros He Ht. apply assignment_of_expr_run in He.
  destruct He as [_ [n Hn]].
  apply yields_run with (S (S n)); [solve_monotone | | discriminate].
  remember (S n) as m eqn:Em. simpl. unfold_cursor. simpl.
  rewrite Hn by lia. subst m. simpl. unfold_cursor. simpl.
  test_equality t Ht.
Qed.

Lemma args_at_equality ts e t rest :
  yields parse_expr ts (Ok e (t :: rest)) ->
  is_equality_token t = true ->
  yields parse_args (t_lparen :: ts)
    (Halt (ExpectError msg_args_close (Some t) TCloseParen)).
Proof.
  intros He Ht.
  assert (Hstart : starts_expression ts = true).
  { destruct He as [_ [n Hn]]. exact (expr_start _ _ _ _ (Hn n (le_n n))). }
  apply assignment_of_expr_run in He. destruct He as [_ [n Hn]].
  apply yields_run with (S (S (S n))); [solve_monotone | | discriminate].
  remember (S (S n)) as m eqn:Em. simpl. unfold_cursor.
  destruct ts as [| t0 ts0]; [discriminate Hstart |].
  simpl in Hstart. simpl.
  assert (Hclose : TokenType_eqb (type t0) TCloseParen = false)
    by (destruct (type t0); try discriminate Hstart; reflexivity).
  rewrite Hclose. subst m. remember (S n) as m eqn:Em.
  simpl. unfold_cursor. rewrite Hn by lia. simpl.
  subst m. simpl. unfold_cursor. simpl.
  test_equality t Ht.
Qed.

Lemma member_loop_at_equality object ts e t rest :
  yields parse_expr ts (Ok e (t :: rest)) ->
  is_equality_token t = true ->
  yields (fun n => parse_member_loop n object) (t_lbracket :: ts)
    (Halt (ExpectError msg_close_bracket (Some t) TCloseBracket)).
Proof.
  intros [_ [n Hn]] Ht. run_with n. feed Hn.
  test_equality t Ht.
Qed.

Lemma object_loop_at_equality key ps ts e t rest :
  yields parse_expr ts (Ok e (t :: rest)) ->
  is_equality_token t = true ->
  yields (fun n => parse_object_loop n ps) (t_id key :: t_colon :: ts)
    (Halt (ExpectError msg_comma_or_brace (Some t) TComma)).
Proof.
  intros [_ [n Hn]] Ht. run_with n. feed Hn.
  test_equality t Ht.
Qed.

Lemma var_declaration_at_equality kw x ts e t rest :
  yields parse_expr ts (Ok e (t :: rest)) ->
  is_equality_token t = true ->
  yields parse_var_declaration (kw :: t_id x :: t_eq :: ts)
    (Halt (ExpectError msg_semicolon (Some t) TSemicolon)).
Proof.
  intros [_ [n Hn]] Ht. run_with n. feed Hn.
  test_equality t Ht.
Qed.

Lemma if_stmt_at_equality kw ts e t rest :
  type kw = TIf ->
  yields parse_expr ts (Ok e (t :: rest)) ->
  is_equality_token t = true ->
  yields parse_if_stmt (kw :: ts)
    (Halt (ExpectError msg_if_open (Some t) TOpenBrace)).
Proof.
  intros Hkw [_ [n Hn]] Ht. run_with n. rewrite Hkw. simpl. feed Hn.
  test_equality t Ht.
Qed.

Lemma primary_at_second_equality lts l op ts e t rest :
  yields parse_expr lts (Ok l (op :: ts)) ->
  is_equality_token op = true ->
  yields parse_expr ts (Ok e (t :: rest)) ->
  is_equality_token t = true ->
  yields parse_primary_expr (t_lparen :: lts)
    (Halt (ExpectError msg_close_paren (Some t) TCloseParen)).
Proof.
  intros [_ [n1 H1]] Hop [_ [n2 H2]] Ht. run_with (n1 + n2). feed H1.
  destruct (equality_token_type op Hop) as [Eop | Eop]; rewrite Eop; simpl;
    feed H2;
    test_equality t Ht.
Qed.

(** ** Object literals at the top level *)

Lemma object_loop_continues ts v rest key ps (r : Outcome (list Property)) :
  yields parse_expr ts (Ok v (t_comma :: rest)) ->
  yields (fun n => parse_object_loop n (ps ++ [mkProperty key (Some v)])%list)
    rest r ->
  yields (fun n => parse_object_loop n ps) (t_id key :: t_colon :: ts) r.
Proof.
  intros [_ [n1 H1]] [Hr [n2 H2]].
  apply yields_run with (S (n1 + n2)); [solve_monotone | | exact Hr].
  remember (n1 + n2) as m eqn:Em. simpl. unfold_cursor. simpl.
  rewrite H1 by lia. simpl. apply H2. lia.
Qed.

Lemma object_loop_closes ts v rest key ps :
  yields parse_expr ts (Ok v (t_rbrace :: rest)) ->
  yields (fun n => parse_object_loop n ps) (t_id key :: t_colon :: ts)
    (Ok (ps ++ [mkProperty key (Some v)])%list (t_rbrace :: rest)).
Proof.
  intros [_ [n Hn]].
  apply yields_run with (S (S n)); [solve_monotone | | discriminate].
  remember (S n) as m eqn:Em.
  simpl. unfold_cursor. simpl. rewrite (Hn m); [| lia].
  subst m. reflexivity.
Qed.

(** An object literal is a statement of its own. *)
Lemma program_of_object toks e :
  reads parse_object_expr toks e ->
  yields parse_tokens (toks ++ [t_eof])
    (Ok (mkProgram [ExprStmt e]) [t_eof]).
Proof.
  intro H. apply program_of_expr; [| reflexivity].
  apply expr_of_assignment_run, assignment_of_object_run; [| discriminate].
  apply H.
Qed.

Lemma object_reads l trailing :
  entries l ->
  reads parse_object_expr
    (t_lbrace :: entries_tokens l trailing ++ [t_rbrace])
    (ObjectLiteral (map entry_property l)).
Proof.
  intros Hl rest.
  destruct (object_loop_reads trailing l [] rest Hl) as [_ [n Hn]].
  simpl. rewrite <- app_assoc. simpl.
  run_with n. feed Hn. reflexivity.
Qed.

(** ** Sums of products at the top level *)

Lemma program_of_sum toks e :
  parses_as ends_sum parse_additive_expr toks e ->
  yields parse_tokens (toks ++ [t_eof])
    (Ok (mkProgram [ExprStmt e]) [t_eof]).
Proof.
  intro H. apply program_of_expr; [| reflexivity].
  apply expr_of_assignment_run, assignment_of_object_run; [| discriminate].
  apply object_of_additive_run. apply H. reflexivity.
Qed.

Lemma product_of_is_product p :
  is_product p ->
  parses_as ends_product parse_multiplicitave_expr
    (product_tokens p) (product_expr p).
Proof. intros [He Hmore]. apply product_reads; assumption. Qed.

Lemma sum_of_products p terms :
  is_product p -> Forall is_term terms ->
  parses_as ends_sum parse_additive_expr (sum_tokens p terms)
    (sum_expr p terms).
Proof.
  intros Hp Hterms. apply sum_reads.
  - apply product_of_is_product. exact Hp.
  - unfold operations. apply Forall_map.
    eapply Forall_impl; [| exact Hterms].
    intros [op q] [Hop Hq]. simpl. split; [exact Hop |].
    apply product_of_is_product. exact Hq.
Qed.

(** Writes the tokens and the tree of a sum that is given in full. *)
Ltac flatten_in H :=
  cbv [sum_tokens sum_expr product_tokens product_expr term_operation
       chain_tokens chain_expr map flat_map fold_left fst snd] in H;
  repeat first [ rewrite <- app_assoc in H
               | rewrite app_nil_r in H
               | progress simpl in H ].

Lemma chain_expr_last left more op toks r :
  chain_expr left (more ++ [(op, toks, r)])
  = BinaryExpr (chain_expr left more) r op.
Proof. unfold chain_expr. rewrite fold_left_app. reflexivity. Qed.

(** * The claims *)

(** ** Member access and calls *)

(** C1, as stated, does not hold: on [a.b(1)[2]] the parse halts at the
    open bracket with an unexpected-token error, so no program is produced, in
    particular none whose statement is a computed [MemberExpr]; and the
    expression read from the start of the input is not a [MemberExpr]. *)
Lemma C1_index_after_call_is_rejected :
  yields parse_tokens src_member_call_index
    (Halt (UnexpectedToken (Some t_lbracket)))
  /\ ~ (exists object property stmts rest,
          yields parse_tokens src_member_call_index
            (Ok (mkProgram (ExprStmt (MemberExpr object property true) :: stmts))
               rest))
  /\ ~ (exists object property rest,
          yields parse_expr src_member_call_index
            (Ok (MemberExpr object property true) rest)).
Proof.
  assert (Hhalt : yields parse_tokens src_member_call_index
                    (Halt (UnexpectedToken (Some t_lbracket)))) by by_run 100.
  assert (Hexpr : yields parse_expr src_member_call_index
                    (Ok ast_member_call
                       [t_lbracket; t_num "2"; t_rbracket; t_eof]))
    by by_run 100.
  split; [exact Hhalt | split].
  - intros (object & property & stmts & rest & H).
    pose proof (yields_unique _ _ _ _ Hhalt H) as E. discriminate E.
  - intros (object & property & rest & H).
    pose proof (yields_unique _ _ _ _ Hexpr H) as E. discriminate E.
Qed.

(** C1, amended: on [a.b(1)[2]] the parser reads the prefix [a.b(1)] as a
    [CallExpr] whose caller is the non-computed [MemberExpr] over [Identifier a]
    and leaves [[2]] in the buffer; the top-level parse then halts with a
    Syntax Error at the open bracket.  A call result is extended by further
    argument lists only: [a.b(1)(2)] is a [CallExpr] whose caller is the
    [CallExpr] of [a.b(1)], and whatever [parse_call_expr] returns is a
    [CallExpr].  In general, for every member expression followed by one or
    more argument lists and then by a dot or an open bracket (a token of that
    type whose text is no arithmetic operator), [parse_call_member_expr] and
    [parse_expr] return the [CallExpr] of the argument lists and leave the
    dot or the bracket unread, and the top-level parse halts at that token:
    a member access after a call is never attached to the call. *)
Theorem C1_call_result_extended_by_calls_only :
  yields parse_expr src_member_call_index
    (Ok ast_member_call [t_lbracket; t_num "2"; t_rbracket; t_eof])
  /\ yields parse_tokens src_member_call_index
       (Halt (UnexpectedToken (Some t_lbracket)))
  /\ error_kind (UnexpectedToken (Some t_lbracket)) = Some SyntaxError
  /\ yields parse_tokens src_member_call_call
       (Ok (mkProgram
              [ExprStmt
                 (CallExpr ast_member_call [num "2"])])
          [t_eof])
  /\ (forall n caller ts e ts',
        parse_call_expr n caller ts = Ok e ts' -> is_CallExpr e = true)
  /\ (forall toks callee args calls t rest,
        parses_as ends_member parse_member_expr toks callee ->
        Forall (operands ends_expr parse_assignment_expr) (args :: calls) ->
        type t = TDot \/ type t = TOpenBracket ->
        is_binary_operator (value t) = false ->
        let ts :=
          (toks ++ flat_map call_tokens (args :: calls) ++ t :: rest)%list in
        let call := calls_expr callee (args :: calls) in
        is_CallExpr call = true
        /\ yields parse_call_member_expr ts (Ok call (t :: rest))
        /\ yields parse_expr ts (Ok call (t :: rest))
        /\ yields parse_tokens ts (Halt (UnexpectedToken (Some t)))).
Proof.
  split_all; try by_run 100; try reflexivity.
  - apply call_expr_is_call.
  - intros toks callee args calls t rest Hcallee Hcalls Ht Hv ts call.
    assert (Hcall : yields parse_call_member_expr ts (Ok call (t :: rest))).
    { apply call_member_reads_calls; try assumption.
      destruct Ht as [E | E]; rewrite E; discriminate. }
    assert (Hexpr : yields parse_expr ts (Ok call (t :: rest))).
    { apply expr_of_call_member; try assumption.
      destruct Ht as [E | E]; rewrite E; discriminate. }
    split_all.
    + apply calls_expr_is_call.
    + exact Hcall.
    + exact Hexpr.
    + apply program_halts_after_expr with call rest; [exact Hexpr | |];
        destruct Ht as [E | E]; simpl; rewrite E;
        first [reflexivity | discriminate].
Qed.

(** The general part of C1 at [a.b(1).c]. *)
Lemma C1_call_result_witness :
  yields parse_expr src_member_call_member
    (Ok ast_member_call [t_dot; t_id "c"; t_eof])
  /\ yields parse_tokens src_member_call_member
       (Halt (UnexpectedToken (Some t_dot))).
Proof.
  refine (proj2 (proj2
            (proj2 (proj2 (proj2 (proj2 (proj2
               C1_call_result_extended_by_calls_only))))
               [t_id "a"; t_dot; t_id "b"]
               (MemberExpr (Identifier "a") (Identifier "b") false)
               [([t_num "1"], num "1")] [] t_dot [t_id "c"; t_eof]
               _ _ _ _))).
  - intros [ty v] rest Ht. destruct ty; try discriminate Ht; by_run 10.
  - for_each ltac:(for_each ltac:(apply assignment_of_member,
                                   number_is_member)).
  - left. reflexivity.
  - reflexivity.
Defined.

(** ** Variable declarations *)

(** C2: [set x;] is a [VarDeclaration] with [constant = false] and no value;
    [lock x;] halts the parse with the Declaration Error of a constant
    without a value.  Both hold for every identifier [x]. *)
Theorem C2_bare_declaration (x : string) :
  yields parse_tokens [t_set; t_id x; t_semi; t_eof]
    (Ok (mkProgram [VarDeclaration x None false]) [t_eof])
  /\ yields parse_tokens [t_lock; t_id x; t_semi; t_eof]
       (Halt ConstantWithoutValue)
  /\ error_kind ConstantWithoutValue = Some DeclarationError.
Proof.
  split_all; try by_run 100. reflexivity.
Qed.

(** ** Equality *)

(** C3: [(a == b)] is an [EqualityExpr] over the two identifiers with the
    operator [==]; the bare [a == b] halts with a Syntax Error (the statement
    [a] is read, then [==] is an unexpected token), and so do [(a) == b],
    [x[a == b]] and [f(a == b)]; and every expression that parses to an
    [EqualityExpr] starts with an open parenthesis.  In general,
    in the tokens that [parse_expr] or the whole parse has consumed, every
    equality token lies inside parentheses (see [inside_parentheses]; the
    tokens are taken to keep the lexer's contract that a parenthesis or an
    equality token does not have the text of an arithmetic operator, which
    the additive and multiplicative loops would consume whatever its type).
    And when an expression is followed by an equality token, no caller of
    [parse_expr] or of [parse_assignment_expr] consumes the token: an
    assignment and a statement return with the token unread and the
    top-level parse halts there with a Syntax Error; the condition of an
    [if], the value of a declaration, the value of a property, an index, an
    argument list and the right operand of an equality fail in their
    [expect]; the loop of an argument list stops in front of it. *)
Theorem C3_equality_only_in_parentheses (a b : string) :
  yields parse_tokens [t_lparen; t_id a; t_deq; t_id b; t_rparen; t_eof]
    (Ok (mkProgram
           [ExprStmt (EqualityExpr (Identifier a) TDoubleEquals (Identifier b))])
       [t_eof])
  /\ yields parse_tokens [t_id a; t_deq; t_id b; t_eof]
       (Halt (UnexpectedToken (Some t_deq)))
  /\ error_kind (UnexpectedToken (Some t_deq)) = Some SyntaxError
  /\ yields parse_tokens src_equality_after_parentheses
       (Halt (UnexpectedToken (Some t_deq)))
  /\ yields parse_tokens src_equality_in_index
       (Halt (ExpectError msg_close_bracket (Some t_deq) TCloseBracket))
  /\ yields parse_tokens src_equality_in_call
       (Halt (ExpectError msg_args_close (Some t_deq) TCloseParen))
  /\ (forall n ts e ts',
        parse_expr n ts = Ok e ts' -> is_EqualityExpr e = true ->
        starts_with_OpenParen ts = true)
  /\ (forall n ts e ts',
        parse_expr n ts = Ok e ts' -> inside_parentheses ts ts')
  /\ (forall n ts p ts',
        parse_tokens n ts = Ok p ts' -> inside_parentheses ts ts')
  /\ (forall ts e t rest,
        yields parse_expr ts (Ok e (t :: rest)) ->
        is_equality_token t = true ->
        yields parse_assignment_expr ts (Ok e (t :: rest))
        /\ yields parse_stmt ts (Ok (ExprStmt e) (t :: rest))
        /\ yields parse_tokens ts (Halt (UnexpectedToken (Some t)))
        /\ error_kind (UnexpectedToken (Some t)) = Some SyntaxError
        /\ (forall kw, type kw = TIf ->
              yields parse_if_stmt (kw :: ts)
                (Halt (ExpectError msg_if_open (Some t) TOpenBrace)))
        /\ (forall kw x,
              yields parse_var_declaration (kw :: t_id x :: t_eq :: ts)
                (Halt (ExpectError msg_semicolon (Some t) TSemicolon)))
        /\ (forall key ps,
              yields (fun n => parse_object_loop n ps)
                (t_id key :: t_colon :: ts)
                (Halt (ExpectError msg_comma_or_brace (Some t) TComma)))
        /\ (forall object,
              yields (fun n => parse_member_loop n object) (t_lbracket :: ts)
                (Halt (ExpectError msg_close_bracket (Some t) TCloseBracket)))
        /\ yields parse_args (t_lparen :: ts)
             (Halt (ExpectError msg_args_close (Some t) TCloseParen))
        /\ (forall acc,
              yields (fun n => parse_arguments_loop n acc) (t_comma :: ts)
                (Ok (acc ++ [e])%list (t :: rest)))
        /\ (forall lts l op,
              yields parse_expr lts (Ok l (op :: ts)) ->
              is_equality_token op = true ->
              yields parse_primary_expr (t_lparen :: lts)
                (Halt (ExpectError msg_close_paren (Some t) TCloseParen)))).
Proof.
  split_all; try by_run 100; try reflexivity.
  - apply expr_equality.
  - intros n ts e ts' H. apply enclosing_inside_parentheses.
    exact (on_expr _ (expr_equality_enclosed n) ts e ts' H).
  - intros n ts p ts' H. apply enclosing_inside_parentheses.
    exact (parse_tokens_equality_enclosed n ts p ts' H).
  - intros ts e t rest He Ht.
    destruct (equality_token_starts_nothing t rest Ht) as [Hs Heof].
    split_all; try reflexivity.
    + apply assignment_of_expr_run. exact He.
    + apply stmt_of_expr. exact He.
    + apply program_halts_after_expr with e rest; assumption.
    + intros kw Hkw. apply if_stmt_at_equality with e rest; assumption.
    + intros kw x. apply var_declaration_at_equality with e rest; assumption.
    + intros key ps. apply object_loop_at_equality with e rest; assumption.
    + intro object. apply member_loop_at_equality with e rest; assumption.
    + apply args_at_equality with e rest; assumption.
    + intro acc. apply arguments_loop_at_equality; assumption.
    + intros lts l op Hl Hop.
      apply primary_at_second_equality with l op ts e rest; assumption.
Qed.

(** The general parts of C3 at [(a != b)], at [a = b == c] and at the index
    of [x[a == b]]. *)
Lemma C3_equality_witness :
  starts_with_OpenParen
    [t_lparen; t_id "a"; t_neq; t_id "b"; t_rparen; t_eof] = true
  /\ yields parse_tokens
       [t_id "a"; t_eq; t_id "b"; t_deq; t_id "c"; t_eof]
       (Halt (UnexpectedToken (Some t_deq)))
  /\ yields (fun n => parse_member_loop n (Identifier "x"))
       [t_lbracket; t_id "a"; t_deq; t_id "b"; t_rbracket; t_eof]
       (Halt (ExpectError msg_close_bracket (Some t_deq) TCloseBracket)).
Proof.
  pose proof (C3_equality_only_in_parentheses "a" "b")
    as (_ & _ & _ & _ & _ & _ & Hstart & _ & _ & Hafter).
  split_all.
  - refine (Hstart 50 _
              (EqualityExpr (Identifier "a") TNotEquals (Identifier "b"))
              [t_eof] _ _).
    + vm_compute. reflexivity.
    + reflexivity.
  - refine (proj1 (proj2 (proj2
              (Hafter [t_id "a"; t_eq; t_id "b"; t_deq; t_id "c"; t_eof]
                 (AssignmentExpr (Identifier "a") (Identifier "b")) t_deq
                 [t_id "c"; t_eof] _ _)))).
    + by_run 100.
    + reflexivity.
  - refine (proj1 (proj2 (proj2 (proj2 (proj2 (proj2 (proj2 (proj2
              (Hafter [t_id "a"; t_deq; t_id "b"; t_rbracket; t_eof]
                 (Identifier "a") t_deq [t_id "b"; t_rbracket; t_eof]
                 _ _))))))))
              (Identifier "x")).
    + by_run 100.
    + reflexivity.
Defined.

(** ** Object literals *)

(** C4, as stated, does not hold: [{ a: 1, }], with a trailing comma after a
    key-value pair, is accepted. *)
Lemma C4_trailing_comma_after_value_is_accepted :
  yields parse_tokens src_object_trailing_comma (Ok ast_object_a_1 [t_eof]).
Proof.
  by_run 100.
Qed.

(** C4, amended: after a [key : Expr] property the next token must be a comma
    or the closing brace, anything else is a Syntax Error.  The closing brace
    ends the literal; after the comma the loop goes on with what follows, be
    it another property or the closing brace.  Hence every list of entries,
    shorthand or with a value, separated by commas, is the [ObjectLiteral] of
    its entries in order, with or without a comma after the last entry: a
    trailing comma is accepted after a key-value pair as it is after a
    shorthand key, and [{ a: 1, }] is the object of [{ a: 1 }]. *)
Theorem C4_comma_or_brace_after_value :
  (forall ts v t rest key ps,
      yields parse_expr ts (Ok v (t :: rest)) ->
      type t <> TCloseBrace -> type t <> TComma ->
      yields (fun n => parse_object_loop n ps) (t_id key :: t_colon :: ts)
        (Halt (ExpectError msg_comma_or_brace (Some t) TComma)))
  /\ (forall ts v rest key ps,
        yields parse_expr ts (Ok v (t_comma :: t_rbrace :: rest)) ->
        yields (fun n => parse_object_loop n ps) (t_id key :: t_colon :: ts)
          (Ok (ps ++ [mkProperty key (Some v)])%list (t_rbrace :: rest)))
  /\ (forall ts v rest key ps,
        yields parse_expr ts (Ok v (t_rbrace :: rest)) ->
        yields (fun n => parse_object_loop n ps) (t_id key :: t_colon :: ts)
          (Ok (ps ++ [mkProperty key (Some v)])%list (t_rbrace :: rest)))
  /\ (forall ts v rest key ps (r : Outcome (list Property)),
        yields parse_expr ts (Ok v (t_comma :: rest)) ->
        yields
          (fun n => parse_object_loop n (ps ++ [mkProperty key (Some v)])%list)
          rest r ->
        yields (fun n => parse_object_loop n ps) (t_id key :: t_colon :: ts) r)
  /\ (forall l trailing,
        entries l ->
        yields parse_tokens
          (t_lbrace :: entries_tokens l trailing ++ [t_rbrace; t_eof])
          (Ok (mkProgram [ExprStmt (ObjectLiteral (map entry_property l))])
             [t_eof]))
  /\ (forall prev, error_kind (ExpectError msg_comma_or_brace prev TComma)
                   = Some SyntaxError)
  /\ yields parse_tokens src_object_trailing_comma (Ok ast_object_a_1 [t_eof])
  /\ yields parse_tokens src_object_plain (Ok ast_object_a_1 [t_eof])
  /\ yields parse_tokens src_object_two
       (Ok (mkProgram
              [ExprStmt
                 (ObjectLiteral
                    [mkProperty "a" (Some (num "1"));
                     mkProperty "b" (Some (num "2"))])])
          [t_eof])
  /\ yields parse_tokens src_object_shorthand_comma
       (Ok (mkProgram [ExprStmt (ObjectLiteral [mkProperty "a" None])])
          [t_eof])
  /\ yields parse_tokens src_object_missing_comma
       (Halt (ExpectError msg_comma_or_brace (Some (t_id "b")) TComma)).
Proof.
  split_all; try by_run 100; try reflexivity.
  - intros ts v t rest key ps [_ [n Hn]] Hbrace Hcomma.
    apply yields_run with (S n); [auto with fuel | | discriminate].
    simpl. unfold_cursor. simpl. rewrite (Hn n (le_n n)).
    rewrite (TokenType_eqb_neq _ _ Hbrace). simpl.
    rewrite (TokenType_eqb_neq _ _ Hcomma). reflexivity.
  - intros ts v rest key ps [_ [n Hn]].
    apply yields_run with (S (S n)); [auto with fuel | | discriminate].
    remember (S n) as m eqn:Em.
    simpl. unfold_cursor. simpl. rewrite (Hn m); [| lia].
    subst m. reflexivity.
  - intros ts v rest key ps. apply object_loop_closes.
  - intros ts v rest key ps r. apply object_loop_continues.
  - intros l trailing Hl.
    pose proof (program_of_object _ _ (object_reads l trailing Hl)) as H.
    simpl in H. rewrite <- app_assoc in H. exact H.
Qed.

(** The general parts of C4 at [b: 2 c], at [b: 2, }] and at [b: 2, c }]
    inside an object, and at the whole of [{ a, b: 2, c: 3, }]. *)
Lemma C4_comma_or_brace_witness :
  yields (fun n => parse_object_loop n [])
    [t_id "b"; t_colon; t_num "2"; t_id "c"; t_rbrace; t_eof]
    (Halt (ExpectError msg_comma_or_brace (Some (t_id "c")) TComma))
  /\ yields (fun n => parse_object_loop n [])
       [t_id "b"; t_colon; t_num "2"; t_comma; t_rbrace; t_eof]
       (Ok [mkProperty "b" (Some (num "2"))] [t_rbrace; t_eof])
  /\ yields (fun n => parse_object_loop n [])
       [t_id "b"; t_colon; t_num "2"; t_comma; t_id "c"; t_rbrace; t_eof]
       (Ok [mkProperty "b" (Some (num "2")); mkProperty "c" None]
          [t_rbrace; t_eof])
  /\ yields parse_tokens
       [t_lbrace; t_id "a"; t_comma; t_id "b"; t_colon; t_num "2"; t_comma;
        t_id "c"; t_colon; t_num "3"; t_comma; t_rbrace; t_eof]
       (Ok (mkProgram
              [ExprStmt
                 (ObjectLiteral
                    [mkProperty "a" None; mkProperty "b" (Some (num "2"));
                     mkProperty "c" (Some (num "3"))])])
          [t_eof]).
Proof.
  split_all.
  - refine (proj1 C4_comma_or_brace_after_value
              _ (num "2") (t_id "c") [t_rbrace; t_eof] "b" [] _ _ _).
    + by_run 100.
    + discriminate.
    + discriminate.
  - refine (proj1 (proj2 C4_comma_or_brace_after_value)
              _ (num "2") [t_eof] "b" [] _).
    by_run 100.
  - refine (proj1 (proj2 (proj2 (proj2 C4_comma_or_brace_after_value)))
              _ (num "2") [t_id "c"; t_rbrace; t_eof] "b" [] _ _ _).
    + by_run 100.
    + by_run 100.
  - refine (proj1 (proj2 (proj2 (proj2 (proj2
              C4_comma_or_brace_after_value))))
              [Shorthand "a"; KeyValue "b" [t_num "2"] (num "2");
               KeyValue "c" [t_num "3"] (num "3")] true _).
    for_each ltac:(first [exact I | apply expr_of_member, number_is_member]).
Defined.

(** ** Arithmetic *)

(** C5: [1 + 2 * 3] is [BinaryExpr(+, 1, BinaryExpr( *, 2, 3))] and never
    [BinaryExpr( *, BinaryExpr(+, 1, 2), 3)]; the same for every three
    number tokens [a + b * c].  In general the operands of [+] and [-] are
    whole products: a product followed by any number of additive operators,
    each with its product, is the chain of [BinaryExpr] over the trees of
    the products.  So for all operands [x], [y], [z], every additive
    operator and every multiplicative operator, [x + y * z] is
    [BinaryExpr(+, x, BinaryExpr( *, y, z))] and [x * y + z] is
    [BinaryExpr(+, BinaryExpr( *, x, y), z)]. *)
Theorem C5_multiplicative_binds_tighter (a b c : string) :
  let src := [t_num a; t_op "+"; t_num b; t_op "*"; t_num c; t_eof] in
  yields parse_tokens src
    (Ok (mkProgram
           [ExprStmt (BinaryExpr (num a) (BinaryExpr (num b) (num c) "*") "+")])
       [t_eof])
  /\ (forall rest,
        ~ yields parse_tokens src
            (Ok (mkProgram
                   [ExprStmt
                      (BinaryExpr (BinaryExpr (num a) (num b) "+") (num c) "*")])
               rest))
  /\ (forall p terms,
        is_product p -> Forall is_term terms ->
        parses_as ends_sum parse_additive_expr (sum_tokens p terms)
          (sum_expr p terms)
        /\ yields parse_tokens (sum_tokens p terms ++ [t_eof])
             (Ok (mkProgram [ExprStmt (sum_expr p terms)]) [t_eof]))
  /\ (forall x xe y ye z ze plus times,
        parses_as ends_call parse_call_member_expr x xe ->
        parses_as ends_call parse_call_member_expr y ye ->
        parses_as ends_call parse_call_member_expr z ze ->
        is_additive plus = true -> is_multiplicative times = true ->
        yields parse_tokens (x ++ t_op plus :: y ++ t_op times :: z ++ [t_eof])
          (Ok (mkProgram
                 [ExprStmt (BinaryExpr xe (BinaryExpr ye ze times) plus)])
             [t_eof])
        /\ yields parse_tokens
             (x ++ t_op times :: y ++ t_op plus :: z ++ [t_eof])
             (Ok (mkProgram
                    [ExprStmt (BinaryExpr (BinaryExpr xe ye times) ze plus)])
                [t_eof])).
Proof.
  intro src.
  assert (H : yields parse_tokens src
                (Ok (mkProgram
                       [ExprStmt
                          (BinaryExpr (num a) (BinaryExpr (num b) (num c) "*")
                             "+")])
                   [t_eof])) by by_run 100.
  split_all.
  - exact H.
  - intros rest H'. pose proof (yields_unique _ _ _ _ H H') as E.
    discriminate E.
  - intros p terms Hp Hterms.
    pose proof (sum_of_products p terms Hp Hterms) as Hsum.
    split; [exact Hsum | apply program_of_sum; exact Hsum].
  - intros x xe y ye z ze plus times Hx Hy Hz Hplus Htimes.
    assert (Hone : forall toks e,
               parses_as ends_call parse_call_member_expr toks e ->
               is_product (toks, e, []))
      by (intros toks e He; split; [exact He | apply Forall_nil]).
    assert (Htwo : forall toks e toks' e',
               parses_as ends_call parse_call_member_expr toks e ->
               parses_as ends_call parse_call_member_expr toks' e' ->
               is_product (toks, e, [(times, toks', e')])).
    { intros toks e toks' e' He He'. split; [exact He |].
      apply Forall_cons; [split; assumption | apply Forall_nil]. }
    split.
    + assert (Hterms : Forall is_term [(plus, (y, ye, [(times, z, ze)]))]).
      { apply Forall_cons; [split; [exact Hplus |] | apply Forall_nil].
        apply Htwo; assumption. }
      pose proof (program_of_sum _ _
                    (sum_of_products _ _ (Hone x xe Hx) Hterms)) as Hrun.
      flatten_in Hrun. exact Hrun.
    + assert (Hterms : Forall is_term [(plus, (z, ze, []))]).
      { apply Forall_cons; [split; [exact Hplus |] | apply Forall_nil].
        apply Hone; assumption. }
      pose proof (program_of_sum _ _
                    (sum_of_products _ _ (Htwo x xe y ye Hx Hy) Hterms))
        as Hrun.
      flatten_in Hrun. exact Hrun.
Qed.

(** The general part of C5 at [1 - 2 * 3] and at [1 * 2 - 3]. *)
Lemma C5_multiplicative_binds_tighter_witness :
  yields parse_tokens
    [t_num "1"; t_op "-"; t_num "2"; t_op "*"; t_num "3"; t_eof]
    (Ok (mkProgram
           [ExprStmt
              (BinaryExpr (num "1") (BinaryExpr (num "2") (num "3") "*") "-")])
       [t_eof])
  /\ yields parse_tokens
       [t_num "1"; t_op "*"; t_num "2"; t_op "-"; t_num "3"; t_eof]
       (Ok (mkProgram
              [ExprStmt
                 (BinaryExpr (BinaryExpr (num "1") (num "2") "*") (num "3")
                    "-")])
          [t_eof]).
Proof.
  refine (proj2 (proj2 (proj2 (C5_multiplicative_binds_tighter "1" "2" "3")))
            [t_num "1"] (num "1") [t_num "2"] (num "2") [t_num "3"] (num "3")
            "-" "*" _ _ _ _ _);
    first [reflexivity | apply call_member_of_member, number_is_member].
Defined.

(** C6: [1 - 2 - 3] is [BinaryExpr(-, BinaryExpr(-, 1, 2), 3)]; the same for
    every three number tokens [a - b - c].  In general an operand followed
    by any number of operators among [+] and [-], each with its operand, is
    the chain of [BinaryExpr] that nests to the left: the tree of a chain is
    the [BinaryExpr] of the tree of all that precedes the last operator and
    of the last operand.  So for all operands [x], [y], [z] and all additive
    operators, [x op1 y op2 z] is
    [BinaryExpr(op2, BinaryExpr(op1, x, y), z)]. *)
Theorem C6_additive_left_associative (a b c : string) :
  yields parse_tokens [t_num a; t_op "-"; t_num b; t_op "-"; t_num c; t_eof]
    (Ok (mkProgram
           [ExprStmt (BinaryExpr (BinaryExpr (num a) (num b) "-") (num c) "-")])
       [t_eof])
  /\ (forall toks e more,
        parses_as ends_product parse_multiplicitave_expr toks e ->
        operations is_additive ends_product parse_multiplicitave_expr more ->
        yields parse_tokens (toks ++ chain_tokens more ++ [t_eof])
          (Ok (mkProgram [ExprStmt (chain_expr e more)]) [t_eof]))
  /\ (forall left more op toks r,
        chain_expr left (more ++ [(op, toks, r)])
        = BinaryExpr (chain_expr left more) r op)
  /\ (forall x xe y ye z ze op1 op2,
        parses_as ends_product parse_multiplicitave_expr x xe ->
        parses_as ends_product parse_multiplicitave_expr y ye ->
        parses_as ends_product parse_multiplicitave_expr z ze ->
        is_additive op1 = true -> is_additive op2 = true ->
        yields parse_tokens (x ++ t_op op1 :: y ++ t_op op2 :: z ++ [t_eof])
          (Ok (mkProgram
                 [ExprStmt (BinaryExpr (BinaryExpr xe ye op1) ze op2)])
             [t_eof])).
Proof.
  split_all.
  - by_run 100.
  - intros toks e more He Hmore.
    pose proof (program_of_sum _ _ (sum_reads toks e more He Hmore)) as H.
    rewrite <- app_assoc in H. exact H.
  - apply chain_expr_last.
  - intros x xe y ye z ze op1 op2 Hx Hy Hz Hop1 Hop2.
    assert (Hmore : operations is_additive ends_product
                      parse_multiplicitave_expr
                      [(op1, y, ye); (op2, z, ze)])
      by (repeat (apply Forall_cons; [split; assumption |]);
          apply Forall_nil).
    pose proof (program_of_sum _ _ (sum_reads x xe _ Hx Hmore)) as H.
    flatten_in H. exact H.
Qed.

(** The general part of C6 at [1 + 2 - 3]. *)
Lemma C6_additive_left_associative_witness :
  yields parse_tokens
    [t_num "1"; t_op "+"; t_num "2"; t_op "-"; t_num "3"; t_eof]
    (Ok (mkProgram
           [ExprStmt
              (BinaryExpr (BinaryExpr (num "1") (num "2") "+") (num "3") "-")])
       [t_eof]).
Proof.
  refine (proj2 (proj2 (proj2 (C6_additive_left_associative "1" "2" "3")))
            [t_num "1"] (num "1") [t_num "2"] (num "2") [t_num "3"] (num "3")
            "+" "-" _ _ _ _ _);
    first [ reflexivity
          | apply product_of_call_member, call_member_of_member,
              number_is_member ].
Defined.

(** ** Function declarations *)

(** C7: when the argument list of a function declaration contains an
    argument that is not an [Identifier], the declaration halts with the
    Declaration Error for parameters, whatever follows the closing
    parenthesis; on [fun f(1)] the error is raised without reading any token
    after the parenthesis, be it the body [{ }] or anything else. *)
Theorem C7_parameters_are_identifiers :
  (forall kw name ts args rest,
      yields parse_args ts (Ok args rest) ->
      forallb kind_is_Identifier args = false ->
      yields parse_fn_declaration (kw :: t_id name :: ts)
        (Halt ParameterNotIdentifier))
  /\ error_kind ParameterNotIdentifier = Some DeclarationError
  /\ yields parse_tokens
       [t_fun; t_id "f"; t_lparen; t_num "1"; t_rparen; t_lbrace; t_rbrace;
        t_eof]
       (Halt ParameterNotIdentifier)
  /\ (forall rest,
        yields parse_tokens
          (t_fun :: t_id "f" :: t_lparen :: t_num "1" :: t_rparen :: rest)
          (Halt ParameterNotIdentifier)).
Proof.
  split_all; try by_run 100; try reflexivity.
  - intros kw name ts args rest [_ [n Hn]] Hargs.
    apply yields_run with (S n); [auto with fuel | | discriminate].
    simpl. unfold_cursor. simpl. rewrite (Hn n (le_n n)).
    rewrite (check_params_rejects _ Hargs). reflexivity.
  - intro rest. by_run 100.
Qed.

(** The general part of C7 at [fun g(a, 1 + 2)]. *)
Lemma C7_parameters_witness :
  yields parse_fn_declaration
    [t_fun; t_id "g"; t_lparen; t_id "a"; t_comma; t_num "1"; t_op "+";
     t_num "2"; t_rparen; t_eof]
    (Halt ParameterNotIdentifier).
Proof.
  refine (proj1 C7_parameters_are_identifiers t_fun "g" _
            [Identifier "a"; BinaryExpr (num "1") (num "2") "+"] [t_eof] _ _).
  - by_run 100.
  - reflexivity.
Defined.

(** ** Termination *)

(** C8: on every token sequence that ends in an end-of-file token the
    top-level parse terminates: it has a result, a program or an error, which
    it reaches with any fuel above ten times the number of tokens plus nine.
    Every statement and expression production that returns has consumed at
    least one token.  When the text of the closing end-of-file token is none
    of [+ * / %], the error is a Syntax Error or a Declaration Error. *)
Theorem C8_parse_terminates ts :
  ends_in_EOF ts ->
  (exists r, stops r /\ yields parse_tokens ts r
             /\ forall fuel, 10 * length ts + 9 < fuel ->
                             parse_tokens fuel ts = r)
  /\ (forall n, consuming (parse_stmt n))
  /\ (forall n, consuming (parse_expr n))
  /\ (closed_by_EOF ts = true ->
      forall e, yields parse_tokens ts (Halt e) ->
                exists kind, error_kind e = Some kind).
Proof.
  intros _. split_all.
  - set (n := 10 * length ts + 10).
    assert (Hr : parse_tokens n ts <> OutOfFuel)
      by (apply parse_tokens_runs; unfold n; lia).
    exists (parse_tokens n ts). split_all.
    + destruct (parse_tokens n ts) as [p rest | e |];
        [left; eauto | right; eauto | contradiction].
    + eapply yields_run; [auto with fuel | reflexivity | exact Hr].
    + intros fuel Hfuel.
      eapply run_stable; [auto with fuel | reflexivity | exact Hr |].
      unfold n; lia.
  - intro n. exact (on_stmt _ (stmt_consumption_all n)).
  - intro n. exact (on_expr _ (expr_consumption_all n)).
  - intros Hc e [_ [n Hn]].
    pose proof (proj2 (parse_tokens_safe n _ Hc)) as Hsafe.
    rewrite (Hn n (le_n n)) in Hsafe.
    destruct e; simpl; eauto. contradiction Hsafe. reflexivity.
Qed.

(** C8 at the input [1 + 2 * 3]. *)
Lemma C8_parse_terminates_witness :
  (exists r, stops r /\ yields parse_tokens src_sum_product r
             /\ forall fuel, 10 * length src_sum_product + 9 < fuel ->
                             parse_tokens fuel src_sum_product = r)
  /\ (forall n, consuming (parse_stmt n))
  /\ (forall n, consuming (parse_expr n))
  /\ (closed_by_EOF src_sum_product = true ->
      forall e, yields parse_tokens src_sum_product (Halt e) ->
                exists kind, error_kind e = Some kind).
Proof.
  refine (C8_parse_terminates src_sum_product _).
  exists [t_num "1"; t_op "+"; t_num "2"; t_op "*"; t_num "3"], t_eof.
  split; reflexivity.
Defined.

(** The guard of the additive loop tests the end of file for [-] only: an
    end-of-file token whose text is [+] is consumed as an operator, and the
    next read of the front token finds the buffer empty. *)
Remark additive_guard_reads_past_EOF :
  yields parse_tokens [t_num "1"; tok TEOF "+"] (Halt TypeError).
Proof.
  by_run 100.
Qed.

(** ** If statements *)

(** C9: every [IfStmt] that [parse_if_stmt] returns has the field [operator]
    equal to [TokenType.BinaryEquals] and the field [right] equal to the empty
    object, whatever its conditional is; and so has every [IfStmt] node, at
    any depth, of the program the top-level parse returns. *)
Theorem C9_if_operator_and_right_are_constant n ts :
  (forall s ts', parse_if_stmt n ts = Ok s ts' ->
     exists conditional consequent alternate,
       s = IfStmt conditional TBinaryEquals EmptyObject consequent alternate)
  /\ (forall p ts', parse_tokens n ts = Ok p ts' ->
        forallb if_fields_fixed (body p) = true).
Proof.
  split.
  - intros s ts' H. apply (f_if _ (stmt_if_fields_all n)) in H.
    destruct H as [_ H]. exact H.
  - intros p ts' H. unfold parse_tokens in H. exec_in H.
    injection H as <- <-. simpl.
    eapply produceAST_loop_if_fields; [| eassumption]. reflexivity.
Qed.

(** C9 at an [if] whose conditional is [(a != b)], with a nested [if] and an
    [else if]. *)
Lemma C9_if_fields_witness :
  (exists conditional consequent alternate,
     ast_if_chain
     = IfStmt conditional TBinaryEquals EmptyObject consequent alternate)
  /\ forallb if_fields_fixed (body (mkProgram [ast_if_chain])) = true.
Proof.
  split.
  - refine (proj1 (C9_if_operator_and_right_are_constant 100 src_if_chain)
              ast_if_chain [t_eof] _).
    vm_compute. reflexivity.
  - refine (proj2 (C9_if_operator_and_right_are_constant 100 src_if_chain)
              (mkProgram [ast_if_chain]) [t_eof] _).
    vm_compute. reflexivity.
Defined.

(** ** Expression statements *)


